(** * CO.RA.PAN tools: the annotation pipeline of annotation_grabaciones.py,
      the counting of tense labels of analysis_tenses.py, and the speaker
      lookup, token contexts and token identifiers of database_creation.py.

    The Python code works on JSON records loaded with [json.load].  A word is
    a Python [dict]; it is modelled as a finite map from keys to JSON values
    (and as an association list where the order of its keys matters).
    Python's [str] is modelled as a UTF-8 byte string.  The built-ins
    [str.lower] and [str.strip] (which depend on the Unicode tables), the
    spaCy tagger [nlp], the truth value of a JSON number, [str] on a JSON
    value and the MD5 digest are parameters of the development.  Exceptions
    are modelled by the [result] type: a Python expression that can raise
    evaluates to [Raise e].  A [while] loop that may not end carries a bound
    on the number of its tests. *)

From stdpp Require Import gmap strings list fin_maps.
From Stdlib Require Import Ascii.

#[local] Set Warnings "-register-all".

(* ===================================================================== *)
(** ** Python values and exceptions                                         *)
(* ===================================================================== *)

Inductive exn : Type :=
  TypeError | AttributeError | KeyError | ZeroDivisionError.

Inductive result (A : Type) : Type :=
| Ok (a : A)
| Raise (e : exn).
Arguments Ok {A} a.
Arguments Raise {A} e.

#[export] Instance result_bind : MBind result := λ A B f m,
  match m with
  | Ok a => f a
  | Raise e => Raise e
  end.

(** JSON values as [json.load] produces them.  Numbers are carried by their
    literal: the pipeline never computes with them. *)
Inductive jval : Type :=
| JNull
| JBool (b : bool)
| JNum (lit : string)
| JStr (s : string)
| JList (l : list jval)
| JDict (d : gmap string jval).

#[export] Instance jval_inhabited : Inhabited jval := populate JNull.

(** A word object (and any other JSON object) is a [dict]. *)
Abbreviation dict := (gmap string jval).
Abbreviation word := (gmap string jval).

(* --------------------------------------------------------------------- *)
(** *** String built-ins that do not depend on the Unicode tables           *)
(* --------------------------------------------------------------------- *)

(** [s.endswith(suf)] *)
Fixpoint endswith (s suf : string) : bool :=
  String.eqb s suf ||
  match s with
  | String _ s' => endswith s' suf
  | EmptyString => false
  end.

(** [needle in s] for two strings: substring test. *)
Fixpoint str_contains (needle s : string) : bool :=
  String.prefix needle s ||
  match s with
  | String _ s' => str_contains needle s'
  | EmptyString => false
  end.

(** [enumerate(l)], counting from [k]. *)
Fixpoint enumerate_from {A : Type} (k : nat) (l : list A) : list (nat * A) :=
  match l with
  | [] => []
  | x :: l' => (k, x) :: enumerate_from (S k) l'
  end.

Definition enumerate {A : Type} (l : list A) : list (nat * A) :=
  enumerate_from 0 l.

(** [sep.join(parts)] *)
Fixpoint join (sep : string) (parts : list string) : string :=
  match parts with
  | [] => ""
  | [p] => p
  | p :: rest => p +:+ sep +:+ join sep rest
  end.

(** [string.punctuation] is the 32 ASCII punctuation characters: the code
    ranges 33-47 (exclamation mark to slash), 58-64 (colon to at sign),
    91-96 (opening bracket to backquote) and 123-126 (opening brace to
    tilde). *)
Definition is_ascii_punctuation (c : ascii) : bool :=
  let n := nat_of_ascii c in
  (Nat.leb 33 n && Nat.leb n 47) || (Nat.leb 58 n && Nat.leb n 64) ||
  (Nat.leb 91 n && Nat.leb n 96) || (Nat.leb 123 n && Nat.leb n 126).

(** The two further characters of [PUNCT_CHARS], the inverted question mark
    (U+00BF) and the inverted exclamation mark (U+00A1), are the two-byte
    UTF-8 sequences C2 BF and C2 A1. *)
Definition is_inverted_mark (c1 c2 : ascii) : bool :=
  Nat.eqb (nat_of_ascii c1) 194 &&
  (Nat.eqb (nat_of_ascii c2) 191 || Nat.eqb (nat_of_ascii c2) 161).

(** [s.lstrip(PUNCT_CHARS)] *)
Fixpoint lstrip_punct (s : string) : string :=
  match s with
  | EmptyString => EmptyString
  | String c s' =>
      if is_ascii_punctuation c then lstrip_punct s'
      else match s' with
           | String c' s'' =>
               if is_inverted_mark c c' then lstrip_punct s'' else s
           | EmptyString => s
           end
  end.

(** [s.rstrip(PUNCT_CHARS)] on the reversed string: the continuation byte of
    a two-byte character now comes first. *)
Fixpoint rstrip_punct_rev (r : string) : string :=
  match r with
  | EmptyString => EmptyString
  | String c r' =>
      if is_ascii_punctuation c then rstrip_punct_rev r'
      else match r' with
           | String c' r'' =>
               if is_inverted_mark c' c then rstrip_punct_rev r'' else r
           | EmptyString => r
           end
  end.

(** [strip_punct(token_text)]: [token_text.strip(PUNCT_CHARS)]. *)
Definition strip_punct (token_text : string) : string :=
  String.rev (rstrip_punct_rev (String.rev (lstrip_punct token_text))).

(** [PUNCT_CHARS = string.punctuation + "¿¡"], character by character. *)
Definition PUNCT_CHARS : list string :=
  ["!"; String (ascii_of_nat 34) ""; "#"; "$"; "%"; "&"; "'"; "("; ")"; "*";
   "+"; ","; "-"; "."; "/"; ":"; ";"; "<"; "="; ">"; "?"; "@"; "["; "\"; "]";
   "^"; "_"; "`"; "{"; "|"; "}"; "~"; "¿"; "¡"].

(* --------------------------------------------------------------------- *)
(** *** Operations on JSON values, with the exceptions Python raises        *)
(* --------------------------------------------------------------------- *)

(** [d.get(k, dflt)] on a dict. *)
Definition dict_get (d : dict) (k : string) (dflt : jval) : jval :=
  default dflt (d !! k).

(** [v.get(k, dflt)] on an arbitrary value: only a dict has the method. *)
Definition py_get (v : jval) (k : string) (dflt : jval) : result jval :=
  match v with
  | JDict d => Ok (dict_get d k dflt)
  | _ => Raise AttributeError
  end.

(** The receiver of a [str] method ([lower], [strip], [endswith]): any other
    JSON value has no such attribute. *)
Definition as_str (v : jval) : result string :=
  match v with
  | JStr s => Ok s
  | _ => Raise AttributeError
  end.

(** [v == s] where [s] is a string literal and [v] the result of
    [d.get(k)] ([None] when the key is missing). *)
Definition eq_str (v : option jval) (s : string) : bool :=
  match v with
  | Some (JStr s') => String.eqb s' s
  | _ => false
  end.

(** [isinstance(v, dict)] *)
Definition is_dict (v : jval) : bool :=
  match v with
  | JDict _ => true
  | _ => false
  end.

(** [x in v] for a string literal [x]: substring of a string, element of a
    list, key of a dict; [None], booleans and numbers are not iterable. *)
Definition py_in (x : string) (v : jval) : result bool :=
  match v with
  | JStr s => Ok (str_contains x s)
  | JList l => Ok (existsb (λ e, eq_str (Some e) x) l)
  | JDict d => Ok (bool_decide (is_Some (d !! x)))
  | JNull | JBool _ | JNum _ => Raise TypeError
  end.

(** [v[k]] for a string key. *)
Definition py_item (v : jval) (k : string) : result jval :=
  match v with
  | JDict d => match d !! k with
               | Some x => Ok x
               | None => Raise KeyError
               end
  | _ => Raise TypeError
  end.

(** [v[k] = x] for a string key. *)
Definition py_setitem (v : jval) (k : string) (x : jval) : result jval :=
  match v with
  | JDict d => Ok (JDict (<[k := x]> d))
  | _ => Raise TypeError
  end.

(* ===================================================================== *)
(** ** The tagger's tokens and the transcript record                        *)
(* ===================================================================== *)

(** A spaCy token, as far as the pipeline reads it.  [t_head] is the text of
    the head token, [None] when the head reference is falsy;  [t_morph] is
    [morph.to_dict()], a mapping from feature names to strings. *)
Record token : Type := Token {
  t_text : string;
  t_is_punct : bool;
  t_is_space : bool;
  t_pos : string;
  t_lemma : string;
  t_dep : string;
  t_head : option string;
  t_morph : gmap string string
}.

(** A segment: its own keys (speaker, ...) and its ordered words; a missing
    "words" key reads as the empty list ([seg.get("words", [])]). *)
Record segment : Type := Segment {
  seg_fields : dict;
  words : list word
}.

(** A transcript: its own keys and its segments ([data.get("segments", [])]). *)
Record transcript : Type := Transcript {
  data_fields : dict;
  segments : list segment
}.

(* ===================================================================== *)
(** ** analysis_tenses.py and database_creation.py: speaker attributes      *)
(* ===================================================================== *)

(** The lookup table of [map_speaker_attributes], the same in both files:
    speaker name to (speaker type, sex, mode, discourse). *)
Definition speaker_table : list (string * (string * string * string * string)) :=
  [ ("lib-pm",  ("pro", "m", "libre", "general"));
    ("lib-pf",  ("pro", "f", "libre", "general"));
    ("lib-om",  ("otro", "m", "libre", "general"));
    ("lib-of",  ("otro", "f", "libre", "general"));
    ("lec-pm",  ("pro", "m", "lectura", "general"));
    ("lec-pf",  ("pro", "f", "lectura", "general"));
    ("lec-om",  ("otro", "m", "lectura", "general"));
    ("lec-of",  ("otro", "f", "lectura", "general"));
    ("pre-pm",  ("pro", "m", "pre", "general"));
    ("pre-pf",  ("pro", "f", "pre", "general"));
    ("tie-pm",  ("pro", "m", "n/a", "tiempo"));
    ("tie-pf",  ("pro", "f", "n/a", "tiempo"));
    ("traf-pm", ("pro", "m", "n/a", "tránsito"));
    ("traf-pf", ("pro", "f", "n/a", "tránsito")) ].

Module AnalysisTenses.
Definition mapping : gmap string (string * string * string * string) :=
  list_to_map speaker_table.

(** [mapping.get(name, ('', '', '', ''))] *)
Definition map_speaker_attributes (name : string)
    : string * string * string * string :=
  default ("", "", "", "") (mapping !! name).
End AnalysisTenses.

Module DatabaseCreation.
Definition mapping : gmap string (string * string * string * string) :=
  list_to_map speaker_table.

(** [mapping.get(name, ('', '', '', ''))] *)
Definition map_speaker_attributes (name : string)
    : string * string * string * string :=
  default ("", "", "", "") (mapping !! name).
End DatabaseCreation.

(* ===================================================================== *)
(** ** analysis_tenses.py: counting the tense labels                        *)
(* ===================================================================== *)

(** The counters of [initialize_counters]. *)
Record counters : Type := Counters {
  analyticalFuture : nat;
  simpleFuture : nat;
  compoundPast : nat;
  simplePast : nat
}.

Definition initialize_counters : counters := Counters 0 0 0 0.

(** [update_future_counters(counters, future_type, tense_vals)] *)
Definition update_future_counters (c : counters) (future_type tense_vals : jval)
    : result counters :=
  if eq_str (Some future_type) "analyticalFuture" then
    Ok (Counters (S (analyticalFuture c)) (simpleFuture c)
                 (compoundPast c) (simplePast c))
  else
    is_fut ← py_in "Fut" tense_vals;
    if is_fut : bool then
      Ok (Counters (analyticalFuture c) (S (simpleFuture c))
                   (compoundPast c) (simplePast c))
    else Ok c.

(** [update_pasado_counters(counters, morph)] *)
Definition update_pasado_counters (c : counters) (morph : jval)
    : result counters :=
  match morph with
  | JDict m =>
      is_past ← py_in "Past" (dict_get m "Tense" (JList []));
      if is_past : bool then
        let ptype := dict_get m "Past_Tense_Type" (JStr "PastOther") in
        if eq_str (Some ptype) "PerfectoCompuesto" then
          Ok (Counters (analyticalFuture c) (simpleFuture c)
                       (S (compoundPast c)) (simplePast c))
        else if eq_str (Some ptype) "PerfectoSimple" then
          Ok (Counters (analyticalFuture c) (simpleFuture c)
                       (compoundPast c) (S (simplePast c)))
        else Ok c
      else Ok c
  | _ => Ok c
  end.

(** The four counters [main] keeps for one kind of form: for all words, and
    for the words of the speech modes libre, lectura and pre. *)
Record mode_counters : Type := ModeCounters {
  total : counters;
  libre : counters;
  lectura : counters;
  pre : counters
}.

(** The counters of one file: for the future forms and for the past forms. *)
Record file_counters : Type := FileCounters {
  counters_future : mode_counters;
  counters_pasado : mode_counters
}.

Definition initialize_file_counters : file_counters :=
  let fresh := ModeCounters initialize_counters initialize_counters
                 initialize_counters initialize_counters in
  FileCounters fresh fresh.

(** The update of the total counter followed by the [if]/[elif] chain on
    the mode, which [main] writes once for each kind of form. *)
Definition update_by_mode (update : counters → result counters)
    (mode : string) (mc : mode_counters) : result mode_counters :=
  t ← update (total mc);
  if String.eqb mode "libre" then
    c ← update (libre mc); Ok (ModeCounters t c (lectura mc) (pre mc))
  else if String.eqb mode "lectura" then
    c ← update (lectura mc); Ok (ModeCounters t (libre mc) c (pre mc))
  else if String.eqb mode "pre" then
    c ← update (pre mc); Ok (ModeCounters t (libre mc) (lectura mc) c)
  else Ok (ModeCounters t (libre mc) (lectura mc) (pre mc)).

(** The body of the loop over the words of a segment in [main]. *)
Definition count_word (mode : string) (fc : file_counters) (w_obj : word)
    : result file_counters :=
  match dict_get w_obj "morph" (JDict ∅) with
  | JDict morph =>
      let future_type := dict_get morph "Future_Type" (JStr "") in
      let tense_vals := dict_get morph "Tense" (JList []) in
      fut ← update_by_mode
               (λ c, update_future_counters c future_type tense_vals)
               mode (counters_future fc);
      pas ← update_by_mode (λ c, update_pasado_counters c (JDict morph))
               mode (counters_pasado fc);
      Ok (FileCounters fut pas)
  | _ => Ok fc
  end.

Fixpoint count_words (mode : string) (fc : file_counters) (wlist : list word)
    : result file_counters :=
  match wlist with
  | [] => Ok fc
  | w_obj :: rest => fc' ← count_word mode fc w_obj; count_words mode fc' rest
  end.

(** The speech mode of a speaker name: the third component of
    [map_speaker_attributes(spkname)].  A name that is a list or a dict
    cannot be looked up in the table; any other name that no string is
    resolves to the default. *)
Definition speaker_mode (spkname : jval) : result string :=
  match spkname with
  | JStr name =>
      let '(_, _, mode, _) := AnalysisTenses.map_speaker_attributes name in
      Ok mode
  | JList _ | JDict _ => Raise TypeError
  | JNull | JBool _ | JNum _ => Ok ""
  end.

(** The body of the loop over the segments in [main], for a segment whose
    speaker resolved to the name [spkname], and the loop. *)
Definition count_segment (fc : file_counters) (seg : jval * list word)
    : result file_counters :=
  mode ← speaker_mode (fst seg);
  count_words mode fc (snd seg).

Fixpoint count_segments (fc : file_counters) (segs : list (jval * list word))
    : result file_counters :=
  match segs with
  | [] => Ok fc
  | seg :: rest => fc' ← count_segment fc seg; count_segments fc' rest
  end.

Definition count_file (segs : list (jval * list word)) : result file_counters :=
  count_segments initialize_file_counters segs.

(** The Tense entry of the morphology bag of a word can be searched: it is
    missing, or it is a string, a list or a dict. *)
Definition tense_is_searchable (w : word) : bool :=
  match w !! "morph" with
  | Some (JDict m) =>
      match m !! "Tense" with
      | Some JNull | Some (JBool _) | Some (JNum _) => false
      | _ => true
      end
  | _ => true
  end.

(** The name can be looked up in the speaker table. *)
Definition is_hashable (v : jval) : bool :=
  match v with
  | JList _ | JDict _ => false
  | _ => true
  end.

(** Sums and the order of counters, field by field. *)
Definition counters_add (c d : counters) : counters :=
  Counters (analyticalFuture c + analyticalFuture d)
           (simpleFuture c + simpleFuture d)
           (compoundPast c + compoundPast d)
           (simplePast c + simplePast d).

Definition counters_le (c d : counters) : Prop :=
  analyticalFuture c ≤ analyticalFuture d ∧ simpleFuture c ≤ simpleFuture d ∧
  compoundPast c ≤ compoundPast d ∧ simplePast c ≤ simplePast d.

(** The forms counted for the three speech modes together. *)
Definition mode_sum (mc : mode_counters) : counters :=
  counters_add (counters_add (libre mc) (lectura mc)) (pre mc).

(** The speaker name resolves to one of the three speech modes that have a
    counter of their own. *)
Definition mode_is_counted (spkname : jval) : bool :=
  match speaker_mode spkname with
  | Ok mode =>
      String.eqb mode "libre" || String.eqb mode "lectura" ||
      String.eqb mode "pre"
  | Raise _ => false
  end.

(** What one word adds to a counter of future forms and to a counter of
    past forms. *)
Definition future_delta (future_type tense_vals : jval) : result counters :=
  if eq_str (Some future_type) "analyticalFuture" then Ok (Counters 1 0 0 0)
  else
    is_fut ← py_in "Fut" tense_vals;
    Ok (if is_fut : bool then Counters 0 1 0 0 else Counters 0 0 0 0).

Definition pasado_delta (morph : dict) : result counters :=
  is_past ← py_in "Past" (dict_get morph "Tense" (JList []));
  if is_past : bool then
    let ptype := dict_get morph "Past_Tense_Type" (JStr "PastOther") in
    if eq_str (Some ptype) "PerfectoCompuesto" then Ok (Counters 0 0 1 0)
    else if eq_str (Some ptype) "PerfectoSimple" then Ok (Counters 0 0 0 1)
    else Ok (Counters 0 0 0 0)
  else Ok (Counters 0 0 0 0).

Definition word_delta (w_obj : word) : result (counters * counters) :=
  match dict_get w_obj "morph" (JDict ∅) with
  | JDict morph =>
      df ← future_delta (dict_get morph "Future_Type" (JStr ""))
                        (dict_get morph "Tense" (JList []));
      dp ← pasado_delta morph;
      Ok (df, dp)
  | _ => Ok (Counters 0 0 0 0, Counters 0 0 0 0)
  end.

(** Adding to the total counter and to the counter of the mode. *)
Definition bump (mode : string) (mc : mode_counters) (d : counters)
    : mode_counters :=
  ModeCounters
    (counters_add (total mc) d)
    (if String.eqb mode "libre" then counters_add (libre mc) d else libre mc)
    (if String.eqb mode "lectura" then counters_add (lectura mc) d
     else lectura mc)
    (if String.eqb mode "pre" then counters_add (pre mc) d else pre mc).

(** The number of elements of a list that satisfy a test. *)
Definition count_where {A : Type} (P : A → bool) (l : list A) : nat :=
  length (List.filter P l).

(** The counters of a file fit together: the forms counted for the three
    modes are among those counted in total, the counters of future forms
    count no past form, and the counters of past forms no future form. *)
Definition counters_consistent (fc : file_counters) : Prop :=
  counters_le (mode_sum (counters_future fc)) (total (counters_future fc)) ∧
  counters_le (mode_sum (counters_pasado fc)) (total (counters_pasado fc)) ∧
  compoundPast (total (counters_future fc)) = 0 ∧
  simplePast (total (counters_future fc)) = 0 ∧
  analyticalFuture (total (counters_pasado fc)) = 0 ∧
  simpleFuture (total (counters_pasado fc)) = 0.

(** Every form counted in total is counted for one of the three modes. *)
Definition counters_exhaustive (fc : file_counters) : Prop :=
  mode_sum (counters_future fc) = total (counters_future fc) ∧
  mode_sum (counters_pasado fc) = total (counters_pasado fc).

(* ===================================================================== *)
(** ** database_creation.py: the context of a token                         *)
(* ===================================================================== *)

(** The functions of database_creation.py index lists by position; beside
    the exceptions of the annotation pipeline they can raise IndexError. *)
Inductive db_exn : Type :=
| Builtin (e : exn)
| IndexError.

Inductive outcome (A : Type) : Type :=
| Done (a : A)
| Fails (e : db_exn).
Arguments Done {A} a.
Arguments Fails {A} e.

#[export] Instance outcome_bind : MBind outcome := λ A B f m,
  match m with
  | Done a => f a
  | Fails e => Fails e
  end.

Definition lift {A : Type} (r : result A) : outcome A :=
  match r with
  | Ok a => Done a
  | Raise e => Fails (Builtin e)
  end.

(** [l[i]] for an integer [i]: a negative index counts from the end. *)
Definition py_index {A : Type} (l : list A) (i : Z) : outcome A :=
  let j := if (i <? 0)%Z then (i + Z.of_nat (length l))%Z else i in
  if (j <? 0)%Z then Fails IndexError
  else match l !! Z.to_nat j with
       | Some x => Done x
       | None => Fails IndexError
       end.

Section Context.

(** The truth value of a JSON number, by its literal (false for a zero);
    it depends on how [json.load] reads the literal. *)
Variable number_is_true : string → bool.

(** [is_sentence_boundary(word_text)].  A falsy value is no boundary; the
    last element of a string is its last character, of a list its last
    item; [True], a number and a dict have no element [-1]. *)
Definition is_sentence_boundary (word_text : jval) : result bool :=
  match word_text with
  | JNull => Ok false
  | JBool b => if b then Raise TypeError else Ok false
  | JNum lit => if number_is_true lit then Raise TypeError else Ok false
  | JStr s =>
      if String.eqb s "" then Ok false
      else Ok (existsb (endswith s) ["."; "!"; "?"])
  | JList l =>
      match last l with
      | None => Ok false
      | Some e => Ok (existsb (λ c, eq_str (Some e) c) ["."; "!"; "?"])
      end
  | JDict d => if decide (d = ∅) then Ok false else Raise KeyError
  end.

(** The loop of [get_left_with_sentence_bounds]; [budget] is
    [max_count - steps]. *)
Fixpoint left_loop (words : list word) (budget : nat) (idx : Z)
    (result : list word) : outcome (list word) :=
  match budget with
  | 0 => Done result
  | S budget' =>
      if (0 <=? idx)%Z then
        w ← py_index words idx;
        b ← lift (is_sentence_boundary (dict_get w "text" (JStr "")));
        if b : bool then Done result
        else left_loop words budget' (idx - 1) (result ++ [w])
      else Done result
  end.

Definition get_left_with_sentence_bounds (words : list word)
    (center_index max_count : Z) : outcome (list word) :=
  result ← left_loop words (Z.to_nat max_count) (center_index - 1) [];
  Done (reverse result).

(** The loop of [get_right_with_sentence_bounds]. *)
Fixpoint right_loop (words : list word) (budget : nat) (idx : Z)
    (result : list word) : outcome (list word) :=
  match budget with
  | 0 => Done result
  | S budget' =>
      if (idx <? Z.of_nat (length words))%Z then
        w ← py_index words idx;
        let w_text := dict_get w "text" (JStr "") in
        let result := result ++ [w] in
        b ← lift (is_sentence_boundary w_text);
        if b : bool then Done result
        else right_loop words budget' (idx + 1) result
      else Done result
  end.

Definition get_right_with_sentence_bounds (words : list word)
    (center_index max_count : Z) : outcome (list word) :=
  w ← py_index words center_index;
  b ← lift (is_sentence_boundary (dict_get w "text" (JStr "")));
  if b : bool then Done []
  else right_loop words (Z.to_nat max_count) (center_index + 1) [].

End Context.

(** The word ends a sentence: its text is a string that ends with a full
    stop, an exclamation mark or a question mark. *)
Definition ends_sentence (w : word) : bool :=
  match w !! "text" with
  | Some (JStr s) => existsb (endswith s) ["."; "!"; "?"]
  | _ => false
  end.

(* ===================================================================== *)
(** ** database_creation.py: token identifiers                              *)
(* ===================================================================== *)

(** A continuation byte of a UTF-8 sequence (binary 10xxxxxx): every other
    byte starts a character. *)
Definition is_continuation_byte (c : ascii) : bool :=
  let n := nat_of_ascii c in Nat.leb 128 n && Nat.leb n 191.

(** [len(s)] and [s[:n]], which count characters, on the UTF-8 bytes. *)
Fixpoint char_length (s : string) : nat :=
  match s with
  | EmptyString => 0
  | String c s' =>
      if is_continuation_byte c then char_length s' else S (char_length s')
  end.

Fixpoint take_chars (n : nat) (s : string) : string :=
  match s with
  | EmptyString => EmptyString
  | String c s' =>
      if is_continuation_byte c then String c (take_chars n s')
      else match n with
           | 0 => EmptyString
           | S n' => String c (take_chars n' s')
           end
  end.

Section TokenId.

(** [str(v)], as an f-string formats a value, and the hexadecimal MD5 digest
    of a byte string. *)
Variable py_str : jval → string.
Variable md5_hexdigest : string → string.

(** The identifier tried for a hash length: the country code followed by
    the first [hash_len] digits of the digest. *)
Definition token_id_of (country_code : jval) (hash_full : string)
    (hash_len : nat) : string :=
  py_str country_code +:+ String.substring 0 hash_len hash_full.

(** The [while] loop of [generate_unique_token_id]; it runs as long as the
    identifier is taken, [fuel] bounds the number of its tests. *)
Fixpoint extend_loop (fuel : nat) (country_code : jval) (hash_full : string)
    (existing_ids : gset string) (hash_len extension_count : nat)
    : option (string * nat) :=
  match fuel with
  | 0 => None
  | S fuel' =>
      let token_id := token_id_of country_code hash_full hash_len in
      if decide (token_id ∈ existing_ids)
      then extend_loop fuel' country_code hash_full existing_ids
             (S hash_len) (S extension_count)
      else Some (token_id, extension_count)
  end.

Definition hash_of (date st et : jval) (text : string) : string :=
  let text_part :=
    if Nat.leb 3 (char_length text) then take_chars 3 text else text in
  let composite :=
    py_str date +:+ "_" +:+ py_str st +:+ "_" +:+ py_str et +:+ "_" +:+
    text_part in
  md5_hexdigest composite.

(** [generate_unique_token_id]: the identifier, the number of extensions,
    and the set of identifiers after [existing_ids.add(token_id)]. *)
Definition generate_unique_token_id (fuel : nat) (country_code date st et : jval)
    (text : string) (existing_ids : gset string)
    : option (string * nat * gset string) :=
  let hash_full := hash_of date st et text in
  '(token_id, extension_count) ←
    extend_loop fuel country_code hash_full existing_ids 5 0;
  Some (token_id, extension_count, {[ token_id ]} ∪ existing_ids).

End TokenId.

(** A word object with the order of its keys, as [json.load] builds it and
    [json.dump] writes it: an association list without repeated keys. *)
Abbreviation odict := (list (string * jval)).

(** [d[k] = v] on an ordered dict: a key that is there keeps its place, a
    new key goes to the end. *)
Fixpoint od_set (k : string) (v : jval) (d : odict) : odict :=
  match d with
  | [] => [(k, v)]
  | (k', v') :: d' =>
      if String.eqb k' k then (k', v) :: d' else (k', v') :: od_set k v d'
  end.

(** The [for] loop of [insert_token_id_after_text] over [word.items()]. *)
Fixpoint insert_loop (items : odict) (token_id : jval) (new_word : odict)
    (inserted : bool) : odict * bool :=
  match items with
  | [] => (new_word, inserted)
  | (key, value) :: rest =>
      let new_word := od_set key value new_word in
      if String.eqb key "text" && negb inserted
      then insert_loop rest token_id (od_set "token_id" token_id new_word) true
      else insert_loop rest token_id new_word inserted
  end.

Definition insert_token_id_after_text (word : odict) (token_id : jval)
    : odict :=
  let '(new_word, inserted) := insert_loop word token_id [] false in
  if inserted : bool then new_word else od_set "token_id" token_id new_word.

(* ===================================================================== *)
(** ** A concrete environment, used by the examples                         *)
(* ===================================================================== *)

(** [str.lower()] on the ASCII letters and on the accented capitals of the
    Latin-1 range (U+00C0 to U+00DE without U+00D7, the UTF-8 sequences
    C3 80 to C3 9E); every other byte is kept. *)
Fixpoint lower_latin (s : string) : string :=
  match s with
  | EmptyString => EmptyString
  | String c s' =>
      let n := nat_of_ascii c in
      if Nat.leb 65 n && Nat.leb n 90
      then String (ascii_of_nat (n + 32)) (lower_latin s')
      else if Nat.eqb n 195 then
        match s' with
        | String c' s'' =>
            let m := nat_of_ascii c' in
            if Nat.leb 128 m && Nat.leb m 158 && negb (Nat.eqb m 151)
            then String c (String (ascii_of_nat (m + 32)) (lower_latin s''))
            else String c (String c' (lower_latin s''))
        | EmptyString => String c EmptyString
        end
      else String c (lower_latin s')
  end.

(** ASCII white space: tab to carriage return, the separators 28 to 31 and
    the space. *)
Definition is_ascii_space (c : ascii) : bool :=
  let n := nat_of_ascii c in
  (Nat.leb 9 n && Nat.leb n 13) || (Nat.leb 28 n && Nat.leb n 32).

Fixpoint lstrip_spaces (s : string) : string :=
  match s with
  | String c s' => if is_ascii_space c then lstrip_spaces s' else s
  | EmptyString => EmptyString
  end.

(** [str.strip()] for strings whose white space is ASCII. *)
Definition strip_spaces (s : string) : string :=
  String.rev (lstrip_spaces (String.rev (lstrip_spaces s))).

(** A tagger that returns no token at all. *)
Definition nlp_silent (text : string) : list token := [].

Definition tok_va : token :=
  Token "va" false false "AUX" "ir" "aux" (Some "llover") {[ "Tense" := "Pres" ]}.
Definition tok_a : token :=
  Token "a" false false "ADP" "a" "mark" (Some "llover") ∅.
Definition tok_llover : token :=
  Token "llover" false false "VERB" "llover" "ROOT" (Some "llover")
        {[ "VerbForm" := "Inf" ]}.
Definition tok_comma : token :=
  Token "," true false "PUNCT" "," "punct" (Some "llover") ∅.

(** A tagger that knows one sentence. *)
Definition nlp_demo (text : string) : list token :=
  if String.eqb text "va a llover" then [tok_va; tok_a; tok_llover]
  else if String.eqb text "va, a llover" then
    [tok_va; tok_comma; tok_a; tok_llover]
  else [].

(** A tagger that takes its text for one word: it gives no token for the
    empty text, as spaCy does, and flags a text of punctuation only as
    punctuation. *)
Definition nlp_words (text : string) : list token :=
  if String.eqb text "" then []
  else if String.eqb (strip_punct text) ""
       then [Token text true false "PUNCT" text "ROOT" (Some text) ∅]
       else [Token text false false "NOUN" text "ROOT" (Some text) ∅].

(** Words as they stand in a transcript and after annotation. *)
Definition word_of_text (text : string) : word := {[ "text" := JStr text ]}.

Definition annotated_word (text pos head : string) (morph : dict) : word :=
  <["morph" := JDict morph]> (<["head_text" := JStr head]>
  (<["pos" := JStr pos]> (word_of_text text))).

(** The transcript of the sentence "Va a llover". *)
Definition demo_transcript : transcript :=
  Transcript ∅ [Segment ∅ [word_of_text "Va"; word_of_text "a";
                            word_of_text "llover"]].

(** A transcript with a self-interrupted word, and what the pipeline makes
    of it. *)
Definition interrupted_transcript : transcript :=
  Transcript ∅ [Segment ∅ [word_of_text "tu-"]].

Definition interrupted_result : transcript :=
  Transcript ∅ [Segment ∅ [<["pos" := JStr "self-correction"]>
                             (word_of_text "tu-")]].

(** A transcript of one word that is a comma, and what the pipeline makes of
    it. *)
Definition comma_transcript : transcript :=
  Transcript ∅ [Segment ∅ [word_of_text ","]].

Definition comma_result : transcript :=
  Transcript ∅ [Segment ∅ [
    <["morph" := JDict ∅]> (<["head_text" := JStr ""]> (<["dep" := JStr ""]>
    (<["lemma" := JStr ""]> (<["pos" := JStr ""]> (word_of_text ",")))))]].

(** A transcript without segments. *)
Definition empty_transcript : transcript := Transcript ∅ [].

(** Annotated words: "va a llover", "había comido", "ha Comido". *)
Definition word_va : word :=
  annotated_word "va" "AUX" "llover" {[ "Tense" := JStr "Pres" ]}.
Definition word_a : word := annotated_word "a" "ADP" "llover" ∅.
Definition word_llover : word :=
  annotated_word "llover" "VERB" "llover" {[ "VerbForm" := JStr "Inf" ]}.

Definition word_habia : word :=
  annotated_word "había" "AUX" "comido" {[ "Tense" := JStr "Imp" ]}.
Definition word_comido : word :=
  annotated_word "comido" "VERB" "había"
    (<["Tense" := JStr "Past"]> {[ "VerbForm" := JStr "Part" ]}).

Definition word_ha : word :=
  annotated_word "ha" "AUX" "comido" {[ "Tense" := JStr "Pres" ]}.
Definition word_Comido : word :=
  annotated_word "Comido" "VERB" "comido"
    (<["Tense" := JStr "Past"]> {[ "VerbForm" := JStr "Part" ]}).

(** Words with a malformed morphology bag: JSON null, and a string. *)
Definition word_va_null : word :=
  <["morph" := JNull]> (<["pos" := JStr "AUX"]> (word_of_text "va")).
Definition word_a_bare : word := <["pos" := JStr "ADP"]> (word_of_text "a").
Definition word_llover_bare : word :=
  <["pos" := JStr "VERB"]> (word_of_text "llover").
Definition word_ha_text_morph : word :=
  <["morph" := JStr "Tense=Pres"]> (<["pos" := JStr "AUX"]> (word_of_text "ha")).

(** A transcript whose words carry a morphology bag that is no mapping:
    JSON null and a string. *)
Definition malformed_transcript : transcript :=
  Transcript ∅ [Segment ∅ [word_va_null; word_a_bare; word_llover_bare];
                Segment ∅ [word_Comido; word_ha_text_morph]].

(** The segments and the tagged unit of the examples. *)
Definition future_segments : list segment :=
  [Segment ∅ [word_va; word_a; word_llover]].

Definition demo_doc : list token := nlp_demo "va, a llover".

Definition foreign_word : word :=
  <["foreign" := JStr "1"]> (word_of_text "ok-").

(** A reading of the number literals that takes the literals 0 and 0.0 for
    zero, a stand-in for [str] that is exact on strings, and a stand-in for
    the MD5 digest: 32 hexadecimal digits, the same for every input. *)
Definition number_is_nonzero (lit : string) : bool :=
  negb (String.eqb lit "0" || String.eqb lit "0.0").

Definition str_demo (v : jval) : string :=
  match v with
  | JStr s => s
  | JNum lit => lit
  | JNull => "None"
  | JBool b => if b then "True" else "False"
  | JList _ => "[]"
  | JDict _ => "{}"
  end.

Definition digest_demo (s : string) : string :=
  "0123456789abcdef0123456789abcdef".

(** The words of "Hola. Va a llover. Bien", a word with the order of its
    keys, and the identifiers of one digest for the hash lengths 5 to 32. *)
Definition context_words : list word :=
  [word_of_text "Hola."; word_of_text "Va"; word_of_text "a";
   word_of_text "llover."; word_of_text "Bien"].

Definition ordered_word : list (string * jval) :=
  [("text", JStr "Va"); ("start", JNum "1.5"); ("end", JNum "1.9")].

Definition identified_word : list (string * jval) :=
  [("text", JStr "Va"); ("start", JNum "1.5"); ("token_id", JStr "ES01234")].

Definition taken_ids : gset string :=
  list_to_set ((λ n, "ES" +:+ String.substring 0 n (digest_demo "")) <$> seq 5 28).

(** Segments with the name their speaker resolves to. *)
Definition counted_segments : list (jval * list word) :=
  [(JStr "lib-pm", [word_va; word_a; word_llover]);
   (JStr "lec-pf", [word_habia; word_comido])].

(* ===================================================================== *)
(** ** annotation_grabaciones.py                                            *)
(* ===================================================================== *)

Section Pipeline.

(** [str.lower()], [str.strip()] and the loaded spaCy model [nlp]. *)
Variable lower : string → string.
Variable strip : string → string.
Variable nlp : string → list token.

(* ------------------------------------------------------------------- *)
(** *** Sentence segmentation                                            *)
(* ------------------------------------------------------------------- *)

Definition sentence_ends : list string := ["."; "?"; "!"].

(** The word objects of a segment are shared between the segment's list,
    the sentences and the context windows, and they are updated in place.
    A word object is therefore identified by its position in the segment's
    list, which acts as the store; a sentence is a list of such references. *)
Fixpoint split_loop (ws : list (nat * word))
    (sentences : list (list nat)) (current_sentence : list nat)
    : result (list (list nat)) :=
  match ws with
  | [] =>
      Ok (match current_sentence with
          | [] => sentences
          | _ => sentences ++ [current_sentence]
          end)
  | (r, w) :: rest =>
      let current_sentence := current_sentence ++ [r] in
      raw ← as_str (dict_get w "text" (JStr ""));
      let txt := lower (strip raw) in
      if negb (String.eqb txt "") && existsb (endswith txt) sentence_ends
      then split_loop rest (sentences ++ [current_sentence]) []
      else split_loop rest sentences current_sentence
  end.

Definition split_into_sentences (words_list : list word)
    : result (list (list nat)) :=
  split_loop (enumerate words_list) [] [].

(* ------------------------------------------------------------------- *)
(** *** Writing an annotation                                            *)
(* ------------------------------------------------------------------- *)

(** [spacy_token.morph.to_dict()] *)
Definition morph_to_dict (t : token) : jval := JDict (JStr <$> t_morph t).

(** [t.head.text if t.head else ""] *)
Definition head_text_of (t : token) : jval := JStr (default "" (t_head t)).

Definition annotate_fallback (word_text : string) : dict :=
  match nlp word_text with
  | t :: _ =>
      <["morph" := morph_to_dict t]> (<["head_text" := head_text_of t]>
      (<["dep" := JStr (t_dep t)]> (<["lemma" := JStr (t_lemma t)]>
      (<["pos" := JStr (t_pos t)]> ∅))))
  | [] =>
      <["morph" := JDict ∅]> (<["head_text" := JStr ""]>
      (<["dep" := JStr ""]> (<["lemma" := JStr word_text]>
      (<["pos" := JStr ""]> ∅))))
  end.

Definition fill_word_annotation (w_obj : word) (spacy_token : token) : word :=
  <["morph" := morph_to_dict spacy_token]>
  (<["head_text" := head_text_of spacy_token]>
  (<["dep" := JStr (t_dep spacy_token)]>
  (<["lemma" := JStr (t_lemma spacy_token)]>
  (<["pos" := JStr (t_pos spacy_token)]> w_obj)))).

Definition already_annotated_word (w : word) : bool :=
  bool_decide (is_Some (w !! "pos")) || bool_decide (is_Some (w !! "morph")).

Definition already_annotated (segs : list segment) : bool :=
  existsb (λ seg, existsb already_annotated_word (words seg)) segs.

(* ------------------------------------------------------------------- *)
(** *** Alignment of the tagger's tokens with the words of a sentence    *)
(* ------------------------------------------------------------------- *)

(** [while tok<len(doc) and (doc[tok].is_punct or doc[tok].is_space): tok += 1];
    [rest] is [doc[tok:]]. *)
Fixpoint skip_punct_space (rest : list token) (tok : nat) : nat :=
  match rest with
  | t :: rest' =>
      if t_is_punct t || t_is_space t then skip_punct_space rest' (S tok)
      else tok
  | [] => tok
  end.

(** The token matches the normalised word text [key]. *)
Definition token_matches (t : token) (key : string) : bool :=
  String.eqb (strip_punct (lower (t_text t))) key.

(** The forward search [while td < len(doc): ...]; [rest] is [doc[td:]].
    Returns the final [td] and the token found, if any. *)
Fixpoint forward_search (rest : list token) (td : nat) (key : string)
    : nat * option token :=
  match rest with
  | [] => (td, None)
  | t :: rest' =>
      if negb (t_is_punct t || t_is_space t) && token_matches t key
      then (S td, Some t)
      else forward_search rest' (S td) key
  end.

(** The [else] branch of the alignment: forward search from the cursor,
    then the single-word fallback.  Returns the new cursor and the word. *)
Definition search_or_fallback (doc : list token) (tok : nat) (key : string)
    (w : word) : nat * word :=
  match forward_search (drop tok doc) tok key with
  | (td, Some t) => (td, fill_word_annotation w t)
  | (td, None) =>
      let fb := annotate_fallback key in
      (td, <["morph" := fb !!! "morph"]>
           (<["head_text" := fb !!! "head_text"]>
           (<["dep" := fb !!! "dep"]>
           (<["lemma" := fb !!! "lemma"]>
           (<["pos" := fb !!! "pos"]> w)))))
  end.

(** [tok<len(doc) and strip_punct(doc[tok].text.lower()) == key] *)
Definition direct_match (doc : list token) (tok : nat) (key : string)
    : option token :=
  match doc !! tok with
  | Some t => if token_matches t key then Some t else None
  | None => None
  end.

(** The alignment proper, for a word that is not a special case. *)
Definition align_word (doc : list token) (tok : nat) (txt : string)
    (w : word) : nat * word :=
  let tok := skip_punct_space (drop tok doc) tok in
  let key := strip_punct (lower txt) in
  match direct_match doc tok key with
  | Some t => (S tok, fill_word_annotation w t)
  | None => search_or_fallback doc tok key w
  end.

(** The body of [for w in sent] in [annotate_file]: the new cursor and the
    updated word.  (The progress counter only feeds console messages and is
    left out.) *)
Definition annotate_word (doc : list token) (tok : nat) (w : word)
    : result (nat * word) :=
  let txt := dict_get w "text" (JStr "") in
  if eq_str (w !! "foreign") "1" then Ok (tok, w)
  else
    txt ← as_str txt;
    if endswith txt "-" then Ok (tok, <["pos" := JStr "self-correction"]> w)
    else if String.eqb (lower txt) "eeh" then
      Ok (tok, <["morph" := JDict ∅]> (<["head_text" := JStr ""]>
               (<["dep" := JStr ""]> (<["lemma" := JStr txt]>
               (<["pos" := JStr "INTJ"]> w)))))
    else Ok (align_word doc tok txt w).

(** [for w in sent]: [sent] holds references into the store [wl]. *)
Fixpoint annotate_sentence (doc : list token) (sent : list nat) (tok : nat)
    (wl : list word) : result (list word) :=
  match sent with
  | [] => Ok wl
  | r :: rest =>
      match wl !! r with
      | Some w =>
          '(tok', w') ← annotate_word doc tok w;
          annotate_sentence doc rest tok' (<[r := w']> wl)
      | None => annotate_sentence doc rest tok wl
      end
  end.

(** [w.get("text", "").lower() for w in ctx] *)
Fixpoint context_texts (wl : list word) (ctx : list nat)
    : result (list string) :=
  match ctx with
  | [] => Ok []
  | r :: rest =>
      txt ← as_str (dict_get (default ∅ (wl !! r)) "text" (JStr ""));
      texts ← context_texts wl rest;
      Ok (lower txt :: texts)
  end.

(** [(sl[i-1] if i>0 else []) + sent + (sl[i+1] if i<len(sl)-1 else [])] *)
Definition context_window (sl : list (list nat)) (i : nat)
    (sent : list nat) : list nat :=
  (if bool_decide (0 < i) then default [] (sl !! (i - 1)) else []) ++
  sent ++
  (if bool_decide (i < length sl - 1) then default [] (sl !! (i + 1)) else []).

(** [for i, sent in enumerate(sl)] *)
Fixpoint annotate_sentences (sl : list (list nat))
    (todo : list (nat * list nat)) (wl : list word) : result (list word) :=
  match todo with
  | [] => Ok wl
  | (i, sent) :: rest =>
      let ctx := context_window sl i sent in
      texts ← context_texts wl ctx;
      let doc := nlp (join " " texts) in
      wl' ← annotate_sentence doc sent 0 wl;
      annotate_sentences sl rest wl'
  end.

(** The body of the annotation loop [for s in segs], on the words of [s]. *)
Definition annotate_segment (wl : list word) : result (list word) :=
  match wl with
  | [] => Ok wl
  | _ =>
      sl ← split_into_sentences wl;
      annotate_sentences sl (enumerate sl) wl
  end.

(* ------------------------------------------------------------------- *)
(** *** Post-processing: past tense forms                                *)
(* ------------------------------------------------------------------- *)

Definition PRESENT_FORMS : list string :=
  ["he"; "has"; "ha"; "hemos"; "habéis"; "han"; "habés"; "habís"; "habemos"].
Definition IMPERFECT_FORMS : list string :=
  ["había"; "habías"; "habíamos"; "habíais"; "habían"].
Definition FUTURE_FORMS : list string :=
  ["habré"; "habrás"; "habrá"; "habremos"; "habréis"; "habrán"].
Definition COND_FORMS : list string :=
  ["habría"; "habrías"; "habríamos"; "habríais"; "habrían"].

(** [x in FORMS] for a set of strings. *)
Definition in_forms (x : string) (forms : list string) : bool :=
  existsb (String.eqb x) forms.

Definition set_past_tense_type (w_obj : word) (label : string) : word :=
  let morph := match w_obj !! "morph" with
               | Some (JDict m) => m
               | _ => ∅
               end in
  <["morph" := JDict (<["Past_Tense_Type" := JStr label]> morph)]> w_obj.

(** [for sibling in seg_words] of [detect_compound_any_fallback];
    [sibling is part_word] compares the references. *)
Fixpoint detect_loop (part_text_lower : string) (part : nat)
    (siblings : list (nat * word)) : result bool :=
  match siblings with
  | [] => Ok false
  | (r, sibling) :: rest =>
      if Nat.eqb r part then detect_loop part_text_lower part rest
      else if eq_str (sibling !! "pos") "AUX" then
        let morph := dict_get sibling "morph" (JDict ∅) in
        tense ← py_get morph "Tense" (JList []);
        pres ← py_in "Pres" tense;
        if pres : bool then
          head ← as_str (dict_get sibling "head_text" (JStr ""));
          if String.eqb (lower head) part_text_lower then Ok true
          else detect_loop part_text_lower part rest
        else detect_loop part_text_lower part rest
      else detect_loop part_text_lower part rest
  end.

(** [detect_compound_any_fallback(part_word, seg_words)] where [part_word]
    is the object at position [part] of [seg_words]; returns the boolean
    and the (possibly labelled) participle. *)
Definition detect_compound_any_fallback (part : nat) (part_word : word)
    (seg_words : list word) : result (bool * word) :=
  txt ← py_item (JDict part_word) "text";
  txt ← as_str txt;
  let part_text_lower := lower txt in
  found ← detect_loop part_text_lower part (enumerate seg_words);
  if found : bool
  then Ok (true, set_past_tense_type part_word "PerfectoCompuesto")
  else Ok (false, part_word).

(** [classify_past_tense_form(w_obj, seg_words)] where [w_obj] is the
    object at position [i] of [seg_words]; returns the updated word. *)
Definition classify_past_tense_form (i : nat) (w_obj : word)
    (seg_words : list word) : result word :=
  match dict_get w_obj "morph" (JDict ∅) with
  | JDict morph =>
      let tense_vals := dict_get morph "Tense" (JList []) in
      let verbform_vals := dict_get morph "VerbForm" (JList []) in
      past ← py_in "Past" tense_vals;
      if negb past then Ok w_obj
      else
        fin ← py_in "Fin" verbform_vals;
        if fin : bool then Ok (set_past_tense_type w_obj "PerfectoSimple")
        else
          part ← py_in "Part" verbform_vals;
          if part : bool then
            aux_raw ← as_str (dict_get w_obj "head_text" (JStr ""));
            let aux_raw := lower aux_raw in
            if in_forms aux_raw PRESENT_FORMS
            then Ok (set_past_tense_type w_obj "PerfectoCompuesto")
            else if in_forms aux_raw IMPERFECT_FORMS
            then Ok (set_past_tense_type w_obj "Pluscuamperfecto")
            else if in_forms aux_raw FUTURE_FORMS
            then Ok (set_past_tense_type w_obj "FuturoPerfecto")
            else if in_forms aux_raw COND_FORMS
            then Ok (set_past_tense_type w_obj "CondicionalPerfecto")
            else
              '(found, w_obj') ← detect_compound_any_fallback i w_obj seg_words;
              if found : bool then Ok w_obj'
              else Ok (set_past_tense_type w_obj' "OtroCompuesto")
          else Ok (set_past_tense_type w_obj "PastOther")
  | _ => Ok w_obj
  end.

(** [for w_obj in seg_words] of [post_process_compound_tenses]: the list
    is not resized, so the iteration visits the positions in order. *)
Fixpoint tenses_loop (todo : list nat) (seg_words : list word)
    : result (list word) :=
  match todo with
  | [] => Ok seg_words
  | i :: rest =>
      match seg_words !! i with
      | Some w_obj =>
          match dict_get w_obj "morph" (JDict ∅) with
          | JDict morph =>
              past ← py_in "Past" (dict_get morph "Tense" (JList []));
              if past : bool then
                w_obj' ← classify_past_tense_form i w_obj seg_words;
                tenses_loop rest (<[i := w_obj']> seg_words)
              else tenses_loop rest seg_words
          | _ => tenses_loop rest seg_words
          end
      | None => tenses_loop rest seg_words
      end
  end.

(** The body of [for seg in data.get("segments", [])]. *)
Definition post_process_tenses_segment (seg_words : list word)
    : result (list word) :=
  tenses_loop (seq 0 (length seg_words)) seg_words.

(* ------------------------------------------------------------------- *)
(** *** Post-processing: analytic future                                 *)
(* ------------------------------------------------------------------- *)

(** [set_future_type(w_obj, label)] (defined in the source next to
    [set_past_tense_type]; the detector below writes the entry itself). *)
Definition set_future_type (w_obj : word) (label : string) : word :=
  let morph := match w_obj !! "morph" with
               | Some (JDict m) => m
               | _ => ∅
               end in
  <["morph" := JDict (<["Future_Type" := JStr label]> morph)]> w_obj.

(** Python's short-circuit [a and b]: [b] is evaluated (and can raise)
    only when [a] is true. *)
Definition and_then (a b : result bool) : result bool :=
  x ← a; if x : bool then b else Ok false.

(** The condition of the [if] in [post_process_compound_futures]. *)
Definition future_condition (w1 w2 w3 : word) : result bool :=
  let pos1 := w1 !! "pos" in
  let morph1 := dict_get w1 "morph" (JDict ∅) in
  let pos2 := w2 !! "pos" in
  txt2 ← as_str (dict_get w2 "text" (JStr ""));
  let txt2 := lower txt2 in
  let pos3 := w3 !! "pos" in
  let morph3 := dict_get w3 "morph" (JDict ∅) in
  and_then (Ok (eq_str pos1 "AUX"))
 (and_then (py_in "Tense" morph1)
 (and_then (Ok (String.eqb txt2 "a"))
 (and_then (Ok (eq_str pos2 "ADP"))
 (and_then (Ok (eq_str pos3 "VERB"))
           (vf ← py_get morph3 "VerbForm" (JList []); py_in "Inf" vf))))).

(** The label chosen from [tense1 = morph1["Tense"]]; [None] is Python's
    [None]. *)
Definition future_label (w1 : word) : result (option string) :=
  tense1 ← py_item (dict_get w1 "morph" (JDict ∅)) "Tense";
  pres ← py_in "Pres" tense1;
  if pres : bool then Ok (Some "analyticalFuture")
  else
    imp ← py_in "Imp" tense1;
    if imp : bool then Ok (Some "analyticalFuture_past") else Ok None.

(** [w3.setdefault("morph", {}); w3["morph"]["Future_Type"] = label] *)
Definition write_future_type (w3 : word) (label : string) : result word :=
  let morph := dict_get w3 "morph" (JDict ∅) in
  morph' ← py_setitem morph "Future_Type" (JStr label);
  Ok (<["morph" := morph']> w3).

(** The body of [for i in range(len(words) - 2)]: the updated [w3]. *)
Definition future_window (w1 w2 w3 : word) : result word :=
  c ← future_condition w1 w2 w3;
  if c : bool then
    label ← future_label w1;
    match label with
    | Some label => write_future_type w3 label
    | None => Ok w3
    end
  else Ok w3.

Fixpoint futures_loop (todo : list nat) (words : list word)
    : result (list word) :=
  match todo with
  | [] => Ok words
  | i :: rest =>
      match words !! i, words !! (i + 1), words !! (i + 2) with
      | Some w1, Some w2, Some w3 =>
          w3' ← future_window w1 w2 w3;
          futures_loop rest (<[i + 2 := w3']> words)
      | _, _, _ => futures_loop rest words
      end
  end.

(** The body of [for seg in data.get("segments", [])]. *)
Definition post_process_futures_segment (words : list word)
    : result (list word) :=
  futures_loop (seq 0 (length words - 2)) words.

(* ------------------------------------------------------------------- *)
(** *** The main routine                                                 *)
(* ------------------------------------------------------------------- *)

(** [for s in segs: body(s.get("words", []))], in order; the first
    exception ends the run. *)
Fixpoint for_each_segment (body : list word → result (list word))
    (segs : list segment) : result (list segment) :=
  match segs with
  | [] => Ok []
  | s :: rest =>
      wl ← body (words s);
      rest' ← for_each_segment body rest;
      Ok (Segment (seg_fields s) wl :: rest')
  end.

Definition post_process_compound_tenses (segs : list segment)
    : result (list segment) :=
  for_each_segment post_process_tenses_segment segs.

Definition post_process_compound_futures (segs : list segment)
    : result (list segment) :=
  for_each_segment post_process_futures_segment segs.

Definition annotation_keys : list string :=
  ["pos"; "lemma"; "dep"; "head_text"; "morph"].

(** [for k in ("pos", "lemma", "dep", "head_text", "morph"): w.pop(k, None)] *)
Definition clear_word (w : word) : word :=
  foldl (λ w k, delete k w) w annotation_keys.

Definition clear_annotations (segs : list segment) : list segment :=
  (λ s, Segment (seg_fields s) (clear_word <$> words s)) <$> segs.

(** The part of [annotate_file] that follows the clearing of the old
    annotation: the annotation loop, the two post-processing passes, and the
    record that is saved. *)
Definition annotate_cleared (fields : dict) (segs : list segment)
    : result transcript :=
  segs ← for_each_segment annotate_segment segs;
  segs ← post_process_compound_tenses segs;
  segs ← post_process_compound_futures segs;
  Ok (Transcript fields segs).

(** [annotate_file(path, progress)], from the record read from [path] to
    the record written back to it. *)
Definition annotate_file (data : transcript) : result transcript :=
  annotate_cleared (data_fields data) (clear_annotations (segments data)).

(** [file_finished_message(progress_data)]: the percentage
    [100.0 * annotated / total] is a division by the number of words that
    were to annotate; the message itself only goes to the console. *)
Definition file_finished_message (total : nat) : result unit :=
  if Nat.eqb total 0 then Raise ZeroDivisionError else Ok tt.

(** [sum(len(seg.get("words", [])) for seg in segments)] *)
Definition words_in_file (data : transcript) : nat :=
  sum_list (length ∘ words <$> segments data).

(** The first loop of [main]: a file goes into [filtered_files] unless it is
    already annotated and overwriting was not requested, and the words of
    the files that go in are counted. *)
Definition is_filtered (overwrite_existing : bool) (data : transcript) : bool :=
  negb (negb overwrite_existing && already_annotated (segments data)).

Fixpoint total_words_to_annotate (overwrite_existing : bool)
    (files : list transcript) : nat :=
  match files with
  | [] => 0
  | data :: rest =>
      if is_filtered overwrite_existing data
      then words_in_file data + total_words_to_annotate overwrite_existing rest
      else total_words_to_annotate overwrite_existing rest
  end.

(** The second loop of [main], [for fname in filtered_files], over the
    records of the files to process, in their order.  It returns the records
    as they are stored when [main] ends, and the exception [main] ends with,
    if any: [annotate_file] stores its result as its last step, so a record
    whose annotation raised is stored as it was, like the records [main] had
    not reached yet. *)
Fixpoint process_files (overwrite_existing : bool) (total : nat)
    (files : list transcript) : list transcript * option exn :=
  match files with
  | [] => ([], None)
  | data :: rest =>
      if is_filtered overwrite_existing data then
        match annotate_file data with
        | Raise e => (data :: rest, Some e)
        | Ok data' =>
            match file_finished_message total with
            | Raise e => (data' :: rest, Some e)
            | Ok _ =>
                let '(rest', e) := process_files overwrite_existing total rest in
                (data' :: rest', e)
            end
        end
      else
        let '(rest', e) := process_files overwrite_existing total rest in
        (data :: rest', e)
  end.

(** [main], from the answer to the overwrite question on; [files] are the
    records of [files_to_process].  When no file is filtered in, nothing is
    processed. *)
Definition main (overwrite_existing : bool) (files : list transcript)
    : list transcript * option exn :=
  process_files overwrite_existing
    (total_words_to_annotate overwrite_existing files) files.

(* --------------------------------------------------------------------- *)
(** *** The properties of words and segments the statements are about       *)
(* --------------------------------------------------------------------- *)

(** The text and the head-word text of a word (empty when missing). *)
Definition text_of (w : word) : string :=
  match w !! "text" with
  | Some (JStr s) => s
  | _ => ""
  end.

Definition head_of (w : word) : string :=
  match w !! "head_text" with
  | Some (JStr s) => s
  | _ => ""
  end.

(** The values of a morphological feature of a word, and whether they
    contain a given value. *)
Definition feature_values (w : word) (feature : string) : jval :=
  match w !! "morph" with
  | Some (JDict m) => dict_get m feature (JList [])
  | _ => JList []
  end.

Definition has_value (x : string) (v : jval) : bool :=
  match py_in x v with
  | Ok b => b
  | Raise _ => false
  end.

Definition feature_has (w : word) (feature x : string) : bool :=
  has_value x (feature_values w feature).

(** The word has a morphology bag with an entry for the feature. *)
Definition has_feature (w : word) (feature : string) : bool :=
  match w !! "morph" with
  | Some (JDict m) => bool_decide (is_Some (m !! feature))
  | _ => false
  end.

(** The fields of a word have the JSON types of the data model: the text
    is a string, the head-word text is a string when present, the morphology
    bag is a mapping when present, and its Tense and VerbForm entries are a
    string or a list. *)
Definition is_feature (v : option jval) : bool :=
  match v with
  | None | Some (JStr _) | Some (JList _) => true
  | _ => false
  end.

Definition has_text (w : word) : bool :=
  match w !! "text" with
  | Some (JStr _) => true
  | _ => false
  end.

Definition well_typed (w : word) : bool :=
  has_text w &&
  match w !! "head_text" with
  | None | Some (JStr _) => true
  | _ => false
  end &&
  match w !! "morph" with
  | None => true
  | Some (JDict m) => is_feature (m !! "Tense") && is_feature (m !! "VerbForm")
  | _ => false
  end.

(** The states of annotation of a word. *)
Definition fully_annotated (w : word) : Prop :=
  ∀ k, k ∈ annotation_keys → is_Some (w !! k).

Definition unannotated (w : word) : Prop :=
  ∀ k, k ∈ annotation_keys → w !! k = None.

Definition only_self_correction (w : word) : Prop :=
  w !! "pos" = Some (JStr "self-correction") ∧
  ∀ k, k ∈ annotation_keys → k ≠ "pos" → w !! k = None.

Definition is_foreign (w : word) : bool := eq_str (w !! "foreign") "1".

(** The state of a word after the pipeline, as the specification words it:
    fully annotated, or foreign-flagged and untouched. *)
Definition full_or_foreign (w_in w_out : word) : Prop :=
  fully_annotated w_out ∨ (is_foreign w_in = true ∧ unannotated w_out).

(** The state of a word after the pipeline, with the self-interruption
    marker as a third case. *)
Definition annotation_outcome (w_in w_out : word) : Prop :=
  if is_foreign w_in then unannotated w_out
  else if endswith (text_of w_in) "-" then only_self_correction w_out
  else fully_annotated w_out.

(** Two words are the same word when they agree outside the annotation. *)
Definition same_word (w w' : word) : Prop := clear_word w' = clear_word w.

(** The past tense label.  [target] is the text the head-word text of an
    auxiliary is compared with in the same-segment scan. *)
Definition haber_label (head : string) : option string :=
  if in_forms head PRESENT_FORMS then Some "PerfectoCompuesto"
  else if in_forms head IMPERFECT_FORMS then Some "Pluscuamperfecto"
  else if in_forms head FUTURE_FORMS then Some "FuturoPerfecto"
  else if in_forms head COND_FORMS then Some "CondicionalPerfecto"
  else None.

Definition governing_aux (target : string) (sibling : word) : bool :=
  eq_str (sibling !! "pos") "AUX" && feature_has sibling "Tense" "Pres" &&
  String.eqb (lower (head_of sibling)) target.

Definition other_aux_governs (i : nat) (target : string)
    (seg_words : list word) : bool :=
  existsb (λ p, negb (Nat.eqb (fst p) i) && governing_aux target (snd p))
          (enumerate seg_words).

Definition past_label_for (target : string) (i : nat) (w : word)
    (seg_words : list word) : string :=
  if feature_has w "VerbForm" "Fin" then "PerfectoSimple"
  else if feature_has w "VerbForm" "Part" then
    match haber_label (lower (head_of w)) with
    | Some label => label
    | None =>
        if other_aux_governs i target seg_words then "PerfectoCompuesto"
        else "OtroCompuesto"
    end
  else "PastOther".

(** The decision order with the scan comparing against the participle's
    text as it stands, and against its case-folded text. *)
Definition past_label_verbatim (i : nat) (w : word) (seg_words : list word)
    : string :=
  past_label_for (text_of w) i w seg_words.

Definition past_label (i : nat) (w : word) (seg_words : list word) : string :=
  past_label_for (lower (text_of w)) i w seg_words.

(** The word at position [i] of a segment after the tense classifier. *)
Definition tense_expected (seg_words : list word) (i : nat) (w : word) : word :=
  if feature_has w "Tense" "Past"
  then set_past_tense_type w (past_label i w seg_words)
  else w.

(** The analytic future: the label of the window (w1, w2, w3), if any. *)
Definition analytic_future_label (w1 w2 w3 : word) : option string :=
  if eq_str (w1 !! "pos") "AUX" && has_feature w1 "Tense" &&
     String.eqb (lower (text_of w2)) "a" && eq_str (w2 !! "pos") "ADP" &&
     eq_str (w3 !! "pos") "VERB" && feature_has w3 "VerbForm" "Inf"
  then
    if feature_has w1 "Tense" "Pres" then Some "analyticalFuture"
    else if feature_has w1 "Tense" "Imp" then Some "analyticalFuture_past"
    else None
  else None.

(** The word at position [j] of a segment after the future detector: it is
    the third word of the window that starts at [j - 2], when there is one. *)
Definition future_expected (words : list word) (j : nat) (w3 : word) : word :=
  match j with
  | S (S i) =>
      match words !! i, words !! (S i) with
      | Some w1, Some w2 =>
          match analytic_future_label w1 w2 w3 with
          | Some label => set_future_type w3 label
          | None => w3
          end
      | _, _ => w3
      end
  | _ => w3
  end.

(** The alignment of one word, as the specification words it.  [cursor] is
    the cursor after the punctuation and white space tokens were skipped,
    [key] the normalised text of the word. *)
Definition normalise (text : string) : string := strip_punct (lower text).

Definition significant (t : token) : bool :=
  negb (t_is_punct t || t_is_space t).

Definition skipped (doc : list token) (tok cursor : nat) : Prop :=
  tok ≤ cursor ≤ length doc ∧
  (∀ k t, tok ≤ k < cursor → doc !! k = Some t → significant t = false) ∧
  (∀ t, doc !! cursor = Some t → significant t = true).

Definition candidate (t : token) (key : string) : bool :=
  significant t && String.eqb (normalise (t_text t)) key.

Inductive alignment (doc : list token) (key : string) (cursor : nat)
    : nat → option token → Prop :=
| align_direct t :
    doc !! cursor = Some t →
    normalise (t_text t) = key →
    alignment doc key cursor (S cursor) (Some t)
| align_search td t :
    (∀ t0, doc !! cursor = Some t0 → normalise (t_text t0) ≠ key) →
    cursor ≤ td →
    doc !! td = Some t →
    candidate t key = true →
    (∀ k t', cursor ≤ k < td → doc !! k = Some t' → candidate t' key = false) →
    alignment doc key cursor (S td) (Some t)
| align_miss :
    (∀ t0, doc !! cursor = Some t0 → normalise (t_text t0) ≠ key) →
    (∀ k t', cursor ≤ k → doc !! k = Some t' → candidate t' key = false) →
    alignment doc key cursor (length doc) None.

(** The empty annotation of the fallback, with a given lemma. *)
Definition empty_annotation (w : word) (lemma : string) : word :=
  <["morph" := JDict ∅]> (<["head_text" := JStr ""]>
  (<["dep" := JStr ""]> (<["lemma" := JStr lemma]>
  (<["pos" := JStr ""]> w)))).

(** The annotation of a word that no token of the tagged unit matches. *)
Definition fallback_annotation (w : word) (lemma : string) : word :=
  match nlp (normalise (text_of w)) with
  | t :: _ => fill_word_annotation w t
  | [] => empty_annotation w lemma
  end.

(** The text is made of characters of [PUNCT_CHARS] only. *)
Inductive punctuation_only : string → Prop :=
| punctuation_only_nil : punctuation_only ""
| punctuation_only_cons c s :
    c ∈ PUNCT_CHARS → punctuation_only s → punctuation_only (c +:+ s).

Definition starts_with (s c : string) : Prop := ∃ rest, s = c +:+ rest.
Definition ends_with (s c : string) : Prop := ∃ init, s = init +:+ c.

(** The text [r] is the text [s] with the punctuation stripped from both
    ends: what was cut off at either end is punctuation only, and what is
    left neither starts nor ends with a punctuation character. *)
Definition punctuation_stripped (s r : string) : Prop :=
  (∃ before after,
     s = before +:+ r +:+ after ∧
     punctuation_only before ∧ punctuation_only after) ∧
  ∀ c, c ∈ PUNCT_CHARS → ¬ starts_with r c ∧ ¬ ends_with r c.

(** The normalised text of a word or of a token: its text in lower case,
    with the punctuation stripped from both ends. *)
Definition normalised (text key : string) : Prop :=
  punctuation_stripped (lower text) key.

(** The word [w'] is the word [w] with the four annotation fields and the
    morphology bag set to the given values, and nothing else changed. *)
Definition annotated_with (w w' : word) (pos lemma dep head : string)
    (morph : gmap string string) : Prop :=
  w' !! "pos" = Some (JStr pos) ∧
  w' !! "lemma" = Some (JStr lemma) ∧
  w' !! "dep" = Some (JStr dep) ∧
  w' !! "head_text" = Some (JStr head) ∧
  w' !! "morph" = Some (JDict (JStr <$> morph)) ∧
  ∀ k, k ≠ "pos" → k ≠ "lemma" → k ≠ "dep" → k ≠ "head_text" →
       k ≠ "morph" → w' !! k = w !! k.

(** The word got the fields of the token: its part of speech, lemma and
    dependency label, the text of its head (empty without a head) and its
    morphology. *)
Definition has_token_fields (w w' : word) (t : token) : Prop :=
  annotated_with w w' (t_pos t) (t_lemma t) (t_dep t)
    (match t_head t with Some h => h | None => "" end) (t_morph t).

(** The annotation of a word that no token of the tagged unit matches: the
    fields of the first token of the tagger run on the key alone, or the
    empty annotation with the key for a lemma when that run gives no token. *)
Definition fallback_fields (key : string) (w w' : word) : Prop :=
  match nlp key with
  | t :: _ => has_token_fields w w' t
  | [] => annotated_with w w' "" key "" "" ∅
  end.

(** One step of the aligner on a word with normalised text [key], from the
    cursor behind the skipped tokens: the new cursor and the word. *)
Inductive aligner_step (doc : list token) (key : string) (cursor : nat)
    (w : word) : nat → word → Prop :=
| step_direct t w' :
    doc !! cursor = Some t →
    normalised (t_text t) key →
    has_token_fields w w' t →
    aligner_step doc key cursor w (S cursor) w'
| step_search td t w' :
    (∀ t0, doc !! cursor = Some t0 → ¬ normalised (t_text t0) key) →
    cursor ≤ td →
    doc !! td = Some t →
    significant t = true →
    normalised (t_text t) key →
    (∀ k t', cursor ≤ k < td → doc !! k = Some t' →
             ¬ (significant t' = true ∧ normalised (t_text t') key)) →
    has_token_fields w w' t →
    aligner_step doc key cursor w (S td) w'
| step_miss w' :
    (∀ t0, doc !! cursor = Some t0 → ¬ normalised (t_text t0) key) →
    (∀ k t', cursor ≤ k → doc !! k = Some t' →
             ¬ (significant t' = true ∧ normalised (t_text t') key)) →
    fallback_fields key w w' →
    aligner_step doc key cursor w (length doc) w'.





(* --------------------------------------------------------------------- *)
(** *** Relations between the stores of a segment                           *)
(* --------------------------------------------------------------------- *)

(** The five item assignments every annotation path performs. *)
Definition set_annotation (w : word) (pos lemma dep head morph : jval) : word :=
  <["morph" := morph]> (<["head_text" := head]> (<["dep" := dep]>
  (<["lemma" := lemma]> (<["pos" := pos]> w)))).

(** One run of the loop body on a word. *)
Definition annotated_step (w w' : word) : Prop :=
  ∃ doc tok tok', annotate_word doc tok w = Ok (tok', w').

(** [w'] is [w] with, at most, synthetic entries written into a morphology
    bag that was already there. *)
Definition refines (w w' : word) : Prop :=
  (∀ k, k ≠ "morph" → w' !! k = w !! k) ∧
  match w !! "morph" with
  | Some (JDict m) =>
      ∃ m', w' !! "morph" = Some (JDict m') ∧
            ∀ k, k ≠ "Past_Tense_Type" → k ≠ "Future_Type" → m' !! k = m !! k
  | o => w' !! "morph" = o
  end.

(** The store [wl'] is the store [wl] with the objects at the positions [S]
    updated according to [R], and the others left alone. *)
Definition updated_at (R : nat → word → word → Prop) (S : list nat)
    (wl wl' : list word) : Prop :=
  length wl' = length wl ∧
  ∀ r w, wl !! r = Some w →
    ∃ w', wl' !! r = Some w' ∧ (r ∈ S → R r w w') ∧ (r ∉ S → w' = w).

(** The word [w_out] is what the pipeline makes of the word [w_in]: the
    loop body ran once on the cleared word, and the post-processing wrote at
    most synthetic entries into its morphology. *)
Definition processed (w_in w_out : word) : Prop :=
  ∃ w1, annotated_step (clear_word w_in) w1 ∧ well_typed w1 = true ∧
        refines w1 w_out.

(** Every word of every segment satisfies the boolean predicate [P]. *)
Definition all_words (P : word → bool) (segs : list segment) : Prop :=
  Forall (λ s, Forall (λ w, P w = true) (words s)) segs.

(** The segment [ws'] is the segment [ws] after the tense classifier, and
    after the future detector. *)
Definition tenses_result (ws ws' : list word) : Prop :=
  length ws' = length ws ∧
  ∀ i w, ws !! i = Some w → ws' !! i = Some (tense_expected ws i w).

Definition futures_result (ws ws' : list word) : Prop :=
  length ws' = length ws ∧
  ∀ j w, ws !! j = Some w → ws' !! j = Some (future_expected ws j w).

(** What an annotation path writes as head-word text and morphology: a
    string, and a mapping whose Tense and VerbForm entries are features. *)
Definition annotation_ok (head morph : jval) : Prop :=
  (∃ s, head = JStr s) ∧
  ∃ m, morph = JDict m ∧
       is_feature (m !! "Tense") = true ∧ is_feature (m !! "VerbForm") = true.

(* --------------------------------------------------------------------- *)
(** *** Further properties of the pipeline                                  *)
(* --------------------------------------------------------------------- *)

(** The text of the word, when present, is a string: what
    [w.get("text", "")] needs for its [str] methods. *)
Definition text_is_string (w : word) : bool :=
  match w !! "text" with
  | None | Some (JStr _) => true
  | _ => false
  end.

(** The word closes the sentence it stands in: the condition of the [if] in
    [split_into_sentences], on a word whose text is a string. *)
Definition closes_sentence (w : word) : bool :=
  let txt := lower (strip (text_of w)) in
  negb (String.eqb txt "") && existsb (endswith txt) sentence_ends.

(** The sentences [sl] of the store [wl]: every sentence is a run of words
    that do not close a sentence followed by one last word, and the last
    word of every sentence but the final one closes it. *)
Definition well_cut (wl : list word) (sl : list (list nat)) : Prop :=
  ∀ k s, sl !! k = Some s →
    ∃ init r,
      s = init ++ [r] ∧
      Forall (λ j, ∀ w, wl !! j = Some w → closes_sentence w = false) init ∧
      (k + 1 < length sl → ∀ w, wl !! r = Some w → closes_sentence w = true).

(** The label the future detector finds for the word [w3] at position [j]
    of a segment: that of the window that starts at [j - 2]. *)
Definition future_label_at (words : list word) (j : nat) (w3 : word)
    : option string :=
  match j with
  | S (S i) =>
      match words !! i, words !! (S i) with
      | Some w1, Some w2 => analytic_future_label w1 w2 w3
      | _, _ => None
      end
  | _ => None
  end.

(* ===================================================================== *)
(** ** Proofs                                                               *)
(* ===================================================================== *)

(** *** The normalisation of texts *)

Lemma string_app_cons c (a b : string) : String c a +:+ b = String c (a +:+ b).
Proof. reflexivity. Qed.

Lemma string_app_nil_r (s : string) : s +:+ "" = s.
Proof. induction s as [|c s IH]; [done|]. by rewrite string_app_cons, IH. Qed.

Lemma string_app_assoc (a b c : string) : (a +:+ b) +:+ c = a +:+ (b +:+ c).
Proof. induction a as [|x a IH]; [done|]. by rewrite !string_app_cons, IH. Qed.

Lemma string_rev_app_spec (s t : string) :
  String.rev_app s t = String.rev s +:+ t.
Proof.
  unfold String.rev. revert t. induction s as [|c s IH]; intros t; simpl; [done|].
  rewrite (IH (String c t)), (IH (String c "")).
  by rewrite string_app_assoc.
Qed.

Lemma string_rev_cons c (s : string) :
  String.rev (String c s) = String.rev s +:+ String c "".
Proof. unfold String.rev at 1. simpl. apply string_rev_app_spec. Qed.

Lemma string_rev_app (a b : string) :
  String.rev (a +:+ b) = String.rev b +:+ String.rev a.
Proof.
  induction a as [|c a IH].
  - symmetry. apply (string_app_nil_r (String.rev b)).
  - rewrite string_app_cons.
    by rewrite !string_rev_cons, IH, string_app_assoc.
Qed.

Lemma string_rev_involutive (s : string) : String.rev (String.rev s) = s.
Proof.
  induction s as [|c s IH]; [done|].
  by rewrite string_rev_cons, string_rev_app, IH.
Qed.

(** Induction that follows the two-byte look-ahead of the strip functions. *)
Lemma string_two_step_ind (P : string → Prop) :
  P "" →
  (∀ c, P (String c "")) →
  (∀ c c' s, P s → P (String c' s) → P (String c (String c' s))) →
  ∀ s, P s.
Proof.
  intros H0 H1 H2 s.
  assert (P s ∧ ∀ c, P (String c s)) as [? _]; [|done].
  induction s as [|c' s [IH1 IH2]]; [by split|].
  split; [apply IH2|]. intros c. apply H2; [done|apply IH2].
Qed.

(** The three ways a strip step can go. *)
Lemma lstrip_punct_ascii c s :
  is_ascii_punctuation c = true → lstrip_punct (String c s) = lstrip_punct s.
Proof. intros Hc. simpl. by rewrite Hc. Qed.

Lemma lstrip_punct_inverted c c' s :
  is_ascii_punctuation c = false → is_inverted_mark c c' = true →
  lstrip_punct (String c (String c' s)) = lstrip_punct s.
Proof. intros Hc Hm. simpl. by rewrite Hc, Hm. Qed.

Lemma lstrip_punct_stop c c' s :
  is_ascii_punctuation c = false → is_inverted_mark c c' = false →
  lstrip_punct (String c (String c' s)) = String c (String c' s).
Proof. intros Hc Hm. simpl. by rewrite Hc, Hm. Qed.

Lemma rstrip_punct_rev_ascii c r :
  is_ascii_punctuation c = true →
  rstrip_punct_rev (String c r) = rstrip_punct_rev r.
Proof. intros Hc. simpl. by rewrite Hc. Qed.

Lemma rstrip_punct_rev_inverted c c' r :
  is_ascii_punctuation c = false → is_inverted_mark c' c = true →
  rstrip_punct_rev (String c (String c' r)) = rstrip_punct_rev r.
Proof. intros Hc Hm. simpl. by rewrite Hc, Hm. Qed.

Lemma rstrip_punct_rev_stop c c' r :
  is_ascii_punctuation c = false → is_inverted_mark c' c = false →
  rstrip_punct_rev (String c (String c' r)) = String c (String c' r).
Proof. intros Hc Hm. simpl. by rewrite Hc, Hm. Qed.

(** Stripping on one side returns a suffix of its argument, and it changes
    nothing when it is applied again. *)
Lemma lstrip_punct_suffix s : ∃ q, s = q +:+ lstrip_punct s.
Proof.
  induction s as [| c | c c' s [q Hq] [q' Hq']] using string_two_step_ind.
  - by exists "".
  - simpl. destruct (is_ascii_punctuation c); [by exists (String c "")|by exists ""].
  - destruct (is_ascii_punctuation c) eqn:Hc.
    + rewrite (lstrip_punct_ascii c) by done.
      exists (String c q'). rewrite string_app_cons. by rewrite <- Hq'.
    + destruct (is_inverted_mark c c') eqn:Hm.
      * rewrite lstrip_punct_inverted by done.
        exists (String c (String c' q)). rewrite !string_app_cons. by rewrite <- Hq.
      * rewrite lstrip_punct_stop by done. by exists "".
Qed.

Lemma rstrip_punct_rev_suffix r : ∃ q, r = q +:+ rstrip_punct_rev r.
Proof.
  induction r as [| c | c c' r [q Hq] [q' Hq']] using string_two_step_ind.
  - by exists "".
  - simpl. destruct (is_ascii_punctuation c); [by exists (String c "")|by exists ""].
  - destruct (is_ascii_punctuation c) eqn:Hc.
    + rewrite (rstrip_punct_rev_ascii c) by done.
      exists (String c q'). rewrite string_app_cons. by rewrite <- Hq'.
    + destruct (is_inverted_mark c' c) eqn:Hm.
      * rewrite rstrip_punct_rev_inverted by done.
        exists (String c (String c' q)). rewrite !string_app_cons. by rewrite <- Hq.
      * rewrite rstrip_punct_rev_stop by done. by exists "".
Qed.

Lemma lstrip_punct_idempotent s : lstrip_punct (lstrip_punct s) = lstrip_punct s.
Proof.
  induction s as [| c | c c' s IH IH'] using string_two_step_ind.
  - done.
  - simpl. destruct (is_ascii_punctuation c) eqn:Hc; [done|]. simpl. by rewrite Hc.
  - destruct (is_ascii_punctuation c) eqn:Hc.
    + by rewrite (lstrip_punct_ascii c).
    + destruct (is_inverted_mark c c') eqn:Hm.
      * by rewrite lstrip_punct_inverted.
      * by rewrite !lstrip_punct_stop.
Qed.

Lemma rstrip_punct_rev_idempotent r :
  rstrip_punct_rev (rstrip_punct_rev r) = rstrip_punct_rev r.
Proof.
  induction r as [| c | c c' r IH IH'] using string_two_step_ind.
  - done.
  - simpl. destruct (is_ascii_punctuation c) eqn:Hc; [done|]. simpl. by rewrite Hc.
  - destruct (is_ascii_punctuation c) eqn:Hc.
    + by rewrite (rstrip_punct_rev_ascii c).
    + destruct (is_inverted_mark c' c) eqn:Hm.
      * by rewrite rstrip_punct_rev_inverted.
      * by rewrite !rstrip_punct_rev_stop.
Qed.

(** A string on which the left strip stops at once: it is empty, or it starts
    with neither an ASCII punctuation byte nor an inverted mark. *)
Lemma lstrip_punct_stops_on_result s :
  match lstrip_punct s with
  | "" => True
  | String c s' =>
      is_ascii_punctuation c = false ∧
      match s' with String c' _ => is_inverted_mark c c' = false | "" => True end
  end.
Proof.
  induction s as [| c | c c' s IH IH'] using string_two_step_ind.
  - done.
  - simpl. by destruct (is_ascii_punctuation c) eqn:Hc.
  - destruct (is_ascii_punctuation c) eqn:Hc.
    + by rewrite (lstrip_punct_ascii c).
    + destruct (is_inverted_mark c c') eqn:Hm.
      * by rewrite lstrip_punct_inverted.
      * by rewrite lstrip_punct_stop.
Qed.

Lemma lstrip_punct_prefix_fixed (a b : string) :
  lstrip_punct (a +:+ b) = a +:+ b → lstrip_punct a = a.
Proof.
  intros Hfix. pose proof (lstrip_punct_stops_on_result (a +:+ b)) as Hstop.
  rewrite Hfix in Hstop.
  destruct a as [|c [|c' a]]; [done| |].
  - rewrite string_app_cons in Hstop. destruct Hstop as [Hc _].
    simpl. by rewrite Hc.
  - rewrite !string_app_cons in Hstop. destruct Hstop as [Hc Hm].
    by rewrite lstrip_punct_stop.
Qed.

(** X9. Stripping the punctuation of a text only removes characters at its
    two ends, and a text that has been stripped is not changed by stripping it
    again. *)
Theorem strip_punct_cuts_both_ends_once (token_text : string) :
  (∃ before after,
     token_text = before +:+ strip_punct token_text +:+ after) ∧
  strip_punct (strip_punct token_text) = strip_punct token_text.
Proof.
  unfold strip_punct.
  destruct (lstrip_punct_suffix token_text) as [before Hbefore].
  destruct (rstrip_punct_rev_suffix (String.rev (lstrip_punct token_text)))
    as [q Hq].
  set (r := rstrip_punct_rev (String.rev (lstrip_punct token_text))) in *.
  assert (lstrip_punct token_text = String.rev r +:+ String.rev q) as Hmid.
  { rewrite <- string_rev_app, <- Hq. by rewrite string_rev_involutive. }
  split.
  - exists before, (String.rev q). by rewrite <- Hmid.
  - assert (lstrip_punct (String.rev r) = String.rev r) as ->.
    { apply (lstrip_punct_prefix_fixed _ (String.rev q)).
      rewrite <- Hmid. apply lstrip_punct_idempotent. }
    rewrite string_rev_involutive. unfold r.
    by rewrite rstrip_punct_rev_idempotent.
Qed.

(** The strip functions against the characters of [PUNCT_CHARS]. *)
Lemma ascii_punctuation_char c :
  is_ascii_punctuation c = bool_decide (String c "" ∈ PUNCT_CHARS).
Proof. destruct c as [[] [] [] [] [] [] [] []]; vm_compute; reflexivity. Qed.

Lemma inverted_mark_char c1 c2 :
  is_inverted_mark c1 c2 = true →
  String c1 (String c2 "") ∈ PUNCT_CHARS ∧
  is_ascii_punctuation c1 = false ∧ is_ascii_punctuation c2 = false.
Proof.
  unfold is_inverted_mark. intros [H1 H2]%andb_prop.
  apply Nat.eqb_eq in H1.
  assert (c1 = ascii_of_nat 194) as ->.
  { by rewrite <- (ascii_nat_embedding c1), H1. }
  apply orb_prop in H2 as [H2|H2]; apply Nat.eqb_eq in H2.
  - assert (c2 = ascii_of_nat 191) as ->.
    { by rewrite <- (ascii_nat_embedding c2), H2. }
    split; [|done]. apply (bool_decide_unpack _). by vm_compute.
  - assert (c2 = ascii_of_nat 161) as ->.
    { by rewrite <- (ascii_nat_embedding c2), H2. }
    split; [|done]. apply (bool_decide_unpack _). by vm_compute.
Qed.

Lemma PUNCT_CHARS_cases u :
  u ∈ PUNCT_CHARS →
  (∃ c, u = String c "" ∧ is_ascii_punctuation c = true) ∨
  (∃ c1 c2, u = String c1 (String c2 "") ∧ is_inverted_mark c1 c2 = true ∧
            is_ascii_punctuation c1 = false ∧ is_ascii_punctuation c2 = false).
Proof.
  unfold PUNCT_CHARS. rewrite !elem_of_cons, elem_of_nil.
  intros H.
  repeat (destruct H as [->|H];
          [first [ left; eexists; split; [reflexivity|by vm_compute]
                 | right; do 2 eexists; split; [reflexivity|by vm_compute] ]|]).
  done.
Qed.

Lemma string_length_app (a b : string) :
  String.length (a +:+ b) = String.length a + String.length b.
Proof. induction a as [|c a IH]; [done|]. rewrite string_app_cons. simpl. by rewrite IH. Qed.

(** A punctuation character at the front is stripped from the left, and one
    at the end from the right. *)
Lemma lstrip_punct_char u t :
  u ∈ PUNCT_CHARS → lstrip_punct (u +:+ t) = lstrip_punct t.
Proof.
  intros [(c & -> & Hc)|(c1 & c2 & -> & Hm & Hc1 & _)]%PUNCT_CHARS_cases.
  - rewrite string_app_cons. by apply lstrip_punct_ascii.
  - rewrite !string_app_cons. by apply lstrip_punct_inverted.
Qed.

Lemma rstrip_punct_rev_char u t :
  u ∈ PUNCT_CHARS → rstrip_punct_rev (String.rev u +:+ t) = rstrip_punct_rev t.
Proof.
  intros [(c & -> & Hc)|(c1 & c2 & -> & Hm & _ & Hc2)]%PUNCT_CHARS_cases.
  - change (String.rev (String c "")) with (String c "").
    rewrite string_app_cons. by apply rstrip_punct_rev_ascii.
  - change (String.rev (String c1 (String c2 ""))) with (String c2 (String c1 "")).
    rewrite !string_app_cons. by apply rstrip_punct_rev_inverted.
Qed.

Lemma lstrip_punct_only b t :
  punctuation_only b → lstrip_punct (b +:+ t) = lstrip_punct t.
Proof.
  induction 1 as [|c s Hc _ IH]; [done|].
  by rewrite string_app_assoc, lstrip_punct_char.
Qed.

Lemma rstrip_punct_rev_only a t :
  punctuation_only a → rstrip_punct_rev (String.rev a +:+ t) = rstrip_punct_rev t.
Proof.
  intros Ha. revert t. induction Ha as [|c s Hc _ IH]; intros t; [done|].
  rewrite string_rev_app, string_app_assoc, IH. by apply rstrip_punct_rev_char.
Qed.

Lemma punctuation_only_app a b :
  punctuation_only a → punctuation_only b → punctuation_only (a +:+ b).
Proof.
  induction 1 as [|c s Hc _ IH]; intros Hb; [done|].
  rewrite string_app_assoc. constructor; auto.
Qed.

Lemma punctuation_only_char c : c ∈ PUNCT_CHARS → punctuation_only c.
Proof.
  intros Hc. rewrite <- (string_app_nil_r c). constructor; [done|constructor].
Qed.

Lemma PUNCT_CHARS_length u : u ∈ PUNCT_CHARS → 0 < String.length u.
Proof.
  intros [(c & -> & _)|(c1 & c2 & -> & _)]%PUNCT_CHARS_cases; simpl; lia.
Qed.

Lemma string_rev_length (s : string) : String.length (String.rev s) = String.length s.
Proof.
  induction s as [|c s IH]; [done|].
  rewrite string_rev_cons, string_length_app, IH. simpl. lia.
Qed.

(** What the strip of one side cuts off is punctuation only. *)
Lemma lstrip_punct_cut s :
  ∃ q, s = q +:+ lstrip_punct s ∧ punctuation_only q.
Proof.
  induction s as [| c | c c' s (q & Hq & Hpq) (q' & Hq' & Hpq')]
    using string_two_step_ind.
  - exists "". split; [done|constructor].
  - simpl. destruct (is_ascii_punctuation c) eqn:Hc.
    + exists (String c ""). split; [done|]. apply punctuation_only_char.
      rewrite ascii_punctuation_char in Hc. by apply bool_decide_eq_true in Hc.
    + exists "". split; [done|constructor].
  - destruct (is_ascii_punctuation c) eqn:Hc.
    + rewrite (lstrip_punct_ascii c) by done.
      exists (String c q'). split.
      * rewrite string_app_cons. by rewrite <- Hq'.
      * apply (punctuation_only_cons (String c "")); [|done].
        rewrite ascii_punctuation_char in Hc. by apply bool_decide_eq_true in Hc.
    + destruct (is_inverted_mark c c') eqn:Hm.
      * rewrite lstrip_punct_inverted by done.
        exists (String c (String c' q)). split.
        -- rewrite !string_app_cons. by rewrite <- Hq.
        -- apply (punctuation_only_cons (String c (String c' ""))); [|done].
           by apply inverted_mark_char.
      * rewrite lstrip_punct_stop by done. exists "". split; [done|constructor].
Qed.

Lemma rstrip_punct_rev_cut r :
  ∃ q, r = String.rev q +:+ rstrip_punct_rev r ∧ punctuation_only q.
Proof.
  induction r as [| c | c c' r (q & Hq & Hpq) (q' & Hq' & Hpq')]
    using string_two_step_ind.
  - exists "". split; [done|constructor].
  - simpl. destruct (is_ascii_punctuation c) eqn:Hc.
    + exists (String c ""). split; [done|]. apply punctuation_only_char.
      rewrite ascii_punctuation_char in Hc. by apply bool_decide_eq_true in Hc.
    + exists "". split; [done|constructor].
  - destruct (is_ascii_punctuation c) eqn:Hc.
    + rewrite (rstrip_punct_rev_ascii c) by done.
      exists (q' +:+ String c ""). split.
      * rewrite string_rev_app, string_app_assoc.
        change (String.rev (String c "")) with (String c "").
        rewrite string_app_cons. by rewrite <- Hq'.
      * apply punctuation_only_app; [done|]. apply punctuation_only_char.
        rewrite ascii_punctuation_char in Hc. by apply bool_decide_eq_true in Hc.
    + destruct (is_inverted_mark c' c) eqn:Hm.
      * rewrite rstrip_punct_rev_inverted by done.
        exists (q +:+ String c' (String c "")). split.
        -- rewrite string_rev_app, string_app_assoc.
           change (String.rev (String c' (String c ""))) with (String c (String c' "")).
           rewrite !string_app_cons. by rewrite <- Hq.
        -- apply punctuation_only_app; [done|]. apply punctuation_only_char.
           by apply inverted_mark_char.
      * rewrite rstrip_punct_rev_stop by done. exists "". split; [done|constructor].
Qed.

(** [strip_punct] strips the punctuation from both ends. *)
Lemma strip_punct_stripped s : punctuation_stripped s (strip_punct s).
Proof.
  unfold strip_punct.
  destruct (lstrip_punct_cut s) as (b & Hb & Hpb).
  destruct (rstrip_punct_rev_cut (String.rev (lstrip_punct s))) as (q & Hq & Hpq).
  set (L := lstrip_punct s) in *.
  set (R := rstrip_punct_rev (String.rev L)) in *.
  assert (L = String.rev R +:+ q) as HL.
  { rewrite <- (string_rev_involutive L), Hq, string_rev_app.
    by rewrite !string_rev_involutive. }
  split.
  { exists b, q. by rewrite <- HL. }
  intros u Hu. pose proof (PUNCT_CHARS_length u Hu) as Hlen. split.
  - intros [rest Hrest].
    assert (lstrip_punct L = lstrip_punct (rest +:+ q)) as Hstrip.
    { rewrite HL, Hrest, string_app_assoc. by apply lstrip_punct_char. }
    unfold L at 1 in Hstrip. rewrite lstrip_punct_idempotent in Hstrip.
    fold L in Hstrip.
    destruct (lstrip_punct_suffix (rest +:+ q)) as [q2 Hq2].
    rewrite <- Hstrip in Hq2. apply (f_equal String.length) in Hq2.
    rewrite HL, Hrest in Hq2. rewrite !string_length_app in Hq2. lia.
  - intros [init Hinit].
    assert (R = String.rev u +:+ String.rev init) as HR.
    { rewrite <- (string_rev_involutive R), Hinit. apply string_rev_app. }
    assert (rstrip_punct_rev R = rstrip_punct_rev (String.rev init)) as Hstrip.
    { rewrite HR. by apply rstrip_punct_rev_char. }
    unfold R at 1 in Hstrip. rewrite rstrip_punct_rev_idempotent in Hstrip.
    fold R in Hstrip.
    destruct (rstrip_punct_rev_suffix (String.rev init)) as [q3 Hq3].
    rewrite <- Hstrip in Hq3. apply (f_equal String.length) in Hq3.
    rewrite HR in Hq3. rewrite !string_length_app, !string_rev_length in Hq3. lia.
Qed.

Lemma inverted_mark_no_lead c1 c2 c3 :
  is_inverted_mark c1 c2 = true → is_inverted_mark c2 c3 = false.
Proof.
  unfold is_inverted_mark. intros [_ H]%andb_prop.
  apply orb_prop in H as [H|H]; apply Nat.eqb_eq in H; by rewrite H.
Qed.

(** A text that starts with no punctuation character, when what follows it
    is punctuation only, is left alone by the strip from the left. *)
Lemma lstrip_punct_stops r after :
  r ≠ "" → (∀ u, u ∈ PUNCT_CHARS → ¬ starts_with r u) →
  punctuation_only after →
  lstrip_punct (r +:+ after) = r +:+ after.
Proof.
  intros Hne Hstart Hafter. destruct r as [|c r']; [done|].
  assert (is_ascii_punctuation c = false) as Hc.
  { destruct (is_ascii_punctuation c) eqn:Hc; [|done].
    rewrite ascii_punctuation_char in Hc. apply bool_decide_eq_true in Hc.
    destruct (Hstart _ Hc). by exists r'. }
  rewrite string_app_cons. destruct (r' +:+ after) as [|c' t] eqn:Hrest.
  { simpl. by rewrite Hc. }
  destruct (is_inverted_mark c c') eqn:Hm; [|by apply lstrip_punct_stop].
  exfalso. destruct r' as [|c'' r''].
  - change (after = String c' t) in Hrest. subst after. inversion Hafter as [|u s' Hu Hs' Heq].
    apply PUNCT_CHARS_cases in Hu
      as [(x & -> & Hx)|(c1 & c2 & -> & Hm2 & _)];
      rewrite !string_app_cons in Heq; simplify_eq.
    + apply inverted_mark_char in Hm as (_ & _ & Hc'). congruence.
    + rewrite (inverted_mark_no_lead _ _ c2 Hm) in Hm2. done.
  - rewrite string_app_cons in Hrest. simplify_eq.
    apply inverted_mark_char in Hm as (Hu & _).
    destruct (Hstart _ Hu). by exists r''.
Qed.

Lemma rstrip_punct_rev_stops r :
  (∀ u, u ∈ PUNCT_CHARS → ¬ ends_with r u) →
  rstrip_punct_rev (String.rev r) = String.rev r.
Proof.
  intros Hend. rewrite <- (string_rev_involutive r) in Hend.
  destruct (String.rev r) as [|d [|d' rho]]; [done| |].
  - simpl. destruct (is_ascii_punctuation d) eqn:Hd; [|done].
    rewrite ascii_punctuation_char in Hd. apply bool_decide_eq_true in Hd.
    destruct (Hend _ Hd). by exists "".
  - assert (is_ascii_punctuation d = false) as Hd.
    { destruct (is_ascii_punctuation d) eqn:Hd; [|done].
      rewrite ascii_punctuation_char in Hd. apply bool_decide_eq_true in Hd.
      destruct (Hend _ Hd). exists (String.rev (String d' rho)).
      apply string_rev_cons. }
    destruct (is_inverted_mark d' d) eqn:Hm; [|by apply rstrip_punct_rev_stop].
    apply inverted_mark_char in Hm as (Hu & _).
    destruct (Hend _ Hu). exists (String.rev rho).
    rewrite !string_rev_cons, string_app_assoc. done.
Qed.

(** The stripped text is determined by the text: it is what [strip_punct]
    returns. *)
Lemma punctuation_stripped_unique s r :
  punctuation_stripped s r → r = strip_punct s.
Proof.
  intros [(before & after & -> & Hb & Ha) Hends]. unfold strip_punct.
  rewrite lstrip_punct_only by done.
  destruct (decide (r = "")) as [->|Hne].
  { change ("" +:+ after) with after.
    rewrite <- (string_app_nil_r after), lstrip_punct_only by done. done. }
  rewrite lstrip_punct_stops; [|done|intros u Hu; apply (Hends u Hu)|done].
  rewrite string_rev_app, rstrip_punct_rev_only by done.
  rewrite rstrip_punct_rev_stops; [|intros u Hu; apply (Hends u Hu)].
  by rewrite string_rev_involutive.
Qed.

Lemma punctuation_stripped_iff s r :
  punctuation_stripped s r ↔ r = strip_punct s.
Proof.
  split; [apply punctuation_stripped_unique|]. intros ->. apply strip_punct_stripped.
Qed.

(** *** Lists with positions *)

Lemma enumerate_from_fst {A : Type} (l : list A) (k : nat) :
  (enumerate_from k l).*1 = seq k (length l).
Proof. revert k. induction l as [|x l IH]; intros k; simpl; [done|]. by rewrite IH. Qed.

Lemma enumerate_from_snd {A : Type} (l : list A) (k : nat) :
  (enumerate_from k l).*2 = l.
Proof. revert k. induction l as [|x l IH]; intros k; simpl; [done|]. by rewrite IH. Qed.

(** *** Stores *)

Lemma updated_at_nil R wl : updated_at R [] wl wl.
Proof.
  split; [done|]. intros r w Hw. exists w. split; [done|].
  split; [by intros ?%elem_of_nil | done].
Qed.

Lemma updated_at_cons R r w w1 S wl wl' :
  wl !! r = Some w → R r w w1 → r ∉ S →
  updated_at R S (<[r := w1]> wl) wl' →
  updated_at R (r :: S) wl wl'.
Proof.
  intros Hr HR Hnot [Hlen Hupd]. split.
  { by rewrite Hlen, length_insert. }
  intros r' w' Hw'. destruct (decide (r' = r)) as [->|Hne].
  - destruct (Hupd r w1) as (w2 & Hw2 & _ & Hsame).
    { apply list_lookup_insert_eq. by eapply lookup_lt_Some. }
    rewrite (Hsame Hnot) in Hw2. simplify_eq. exists w1.
    split; [done|]. split; [done|]. intros []. by left.
  - destruct (Hupd r' w') as (w2 & Hw2 & Hin & Hout).
    { by rewrite list_lookup_insert_ne. }
    exists w2. split; [done|]. split.
    + intros [?|?]%elem_of_cons; [done | auto].
    + intros Hn. apply Hout. intros ?. apply Hn. by right.
Qed.

Lemma updated_at_skip R r S wl wl' :
  wl !! r = None → updated_at R S wl wl' → updated_at R (r :: S) wl wl'.
Proof.
  intros Hr [Hlen Hupd]. split; [done|].
  intros r' w' Hw'. destruct (Hupd r' w' Hw') as (w2 & Hw2 & Hin & Hout).
  exists w2. split; [done|]. split.
  - intros [->|?]%elem_of_cons; [congruence | auto].
  - intros Hn. apply Hout. intros ?. apply Hn. by right.
Qed.

Lemma updated_at_app R S1 S2 wl wl1 wl2 :
  (∀ r, r ∈ S1 → r ∉ S2) →
  updated_at R S1 wl wl1 → updated_at R S2 wl1 wl2 →
  updated_at R (S1 ++ S2) wl wl2.
Proof.
  intros Hdisj [Hlen1 Hupd1] [Hlen2 Hupd2]. split; [congruence|].
  intros r w Hw. destruct (Hupd1 r w Hw) as (w1 & Hw1 & Hin1 & Hout1).
  destruct (Hupd2 r w1 Hw1) as (w2 & Hw2 & Hin2 & Hout2).
  exists w2. split; [done|]. split.
  - intros [H1|H2]%elem_of_app.
    + rewrite (Hout2 (Hdisj r H1)). auto.
    + destruct (decide (r ∈ S1)) as [H1|H1]; [by destruct (Hdisj r H1)|].
      rewrite <- (Hout1 H1). auto.
  - intros Hn. rewrite Hout2, Hout1; [done| |];
      intros ?; apply Hn; apply elem_of_app; auto.
Qed.

(** *** Words and their annotation fields *)

Lemma elem_annotation_keys k :
  k ∈ annotation_keys ↔
  k = "pos" ∨ k = "lemma" ∨ k = "dep" ∨ k = "head_text" ∨ k = "morph".
Proof. unfold annotation_keys. rewrite !elem_of_cons, elem_of_nil. tauto. Qed.

Lemma set_annotation_in w p l d h m k :
  k ∈ annotation_keys → is_Some (set_annotation w p l d h m !! k).
Proof.
  rewrite elem_annotation_keys. unfold set_annotation.
  intros [->|[->|[->|[->| ->]]]]; simplify_map_eq; eauto.
Qed.

Lemma set_annotation_out w p l d h m k :
  k ∉ annotation_keys → set_annotation w p l d h m !! k = w !! k.
Proof.
  rewrite elem_annotation_keys. intros Hk. unfold set_annotation.
  rewrite !lookup_insert_ne; [done|..]; intros <-; apply Hk; auto.
Qed.

Lemma clear_word_in w k : k ∈ annotation_keys → clear_word w !! k = None.
Proof.
  rewrite elem_annotation_keys. unfold clear_word. simpl.
  intros [->|[->|[->|[->| ->]]]]; by simplify_map_eq.
Qed.

Lemma clear_word_out w k : k ∉ annotation_keys → clear_word w !! k = w !! k.
Proof.
  rewrite elem_annotation_keys. intros Hk. unfold clear_word. simpl.
  rewrite !lookup_delete_ne; [done|..]; intros <-; apply Hk; auto.
Qed.

Lemma clear_word_unannotated w : unannotated (clear_word w).
Proof. intros k Hk. by apply clear_word_in. Qed.

Lemma same_word_intro w w' :
  (∀ k, k ∉ annotation_keys → w' !! k = w !! k) → same_word w w'.
Proof.
  intros H. apply map_eq. intros k.
  destruct (decide (k ∈ annotation_keys)) as [Hk|Hk].
  - by rewrite !clear_word_in.
  - rewrite !clear_word_out; auto.
Qed.

Lemma text_not_annotation : "text" ∉ annotation_keys.
Proof. rewrite elem_annotation_keys. intros [?|[?|[?|[?|?]]]]; discriminate. Qed.

Lemma foreign_not_annotation : "foreign" ∉ annotation_keys.
Proof. rewrite elem_annotation_keys. intros [?|[?|[?|[?|?]]]]; discriminate. Qed.

Lemma has_text_as_str w :
  has_text w = true → as_str (dict_get w "text" (JStr "")) = Ok (text_of w).
Proof.
  unfold has_text, dict_get, text_of.
  destruct (w !! "text") as [[]|]; simpl; congruence.
Qed.

Lemma has_text_frame w w' :
  w' !! "text" = w !! "text" → has_text w' = has_text w.
Proof. unfold has_text. by intros ->. Qed.

Lemma unannotated_well_typed w :
  has_text w = true → unannotated w → well_typed w = true.
Proof.
  intros Ht Hun. unfold well_typed. rewrite Ht.
  rewrite (Hun "head_text"), (Hun "morph"); [done|..];
    apply elem_annotation_keys; auto.
Qed.

Lemma set_annotation_well_typed w p l d h m :
  has_text w = true → annotation_ok h m →
  well_typed (set_annotation w p l d h m) = true.
Proof.
  intros Ht [[s ->] (mm & -> & HT & HV)]. unfold well_typed.
  rewrite (has_text_frame w).
  2:{ apply set_annotation_out, text_not_annotation. }
  rewrite Ht. unfold set_annotation. simplify_map_eq. by rewrite HT, HV.
Qed.

Lemma token_annotation_ok t : annotation_ok (head_text_of t) (morph_to_dict t).
Proof.
  split; [by eexists|]. eexists. split; [done|].
  rewrite !lookup_fmap. by destruct (t_morph t !! "Tense"), (t_morph t !! "VerbForm").
Qed.

Lemma empty_annotation_ok : annotation_ok (JStr "") (JDict ∅).
Proof. split; [by eexists|]. eexists. split; [done|]. by rewrite !lookup_empty. Qed.

Lemma fill_word_annotation_eq w t :
  fill_word_annotation w t =
  set_annotation w (JStr (t_pos t)) (JStr (t_lemma t)) (JStr (t_dep t))
                 (head_text_of t) (morph_to_dict t).
Proof. done. Qed.

Lemma empty_annotation_eq w lemma :
  empty_annotation w lemma =
  set_annotation w (JStr "") (JStr lemma) (JStr "") (JStr "") (JDict ∅).
Proof. done. Qed.

(** The update of a word from the dictionary [annotate_fallback] returns. *)
Lemma fallback_update w key :
  let fb := annotate_fallback key in
  <["morph" := fb !!! "morph"]> (<["head_text" := fb !!! "head_text"]>
  (<["dep" := fb !!! "dep"]> (<["lemma" := fb !!! "lemma"]>
  (<["pos" := fb !!! "pos"]> w)))) =
  match nlp key with
  | t :: _ => fill_word_annotation w t
  | [] => empty_annotation w key
  end.
Proof.
  unfold annotate_fallback. simpl.
  destruct (nlp key) as [|t ?]; rewrite !lookup_total_alt; by simplify_map_eq.
Qed.

(** *** The loop body of the annotation *)

Lemma search_or_fallback_eq doc tok key w :
  search_or_fallback doc tok key w =
  match forward_search (drop tok doc) tok key with
  | (td, Some t) => (td, fill_word_annotation w t)
  | (td, None) =>
      (td, match nlp key with
           | t :: _ => fill_word_annotation w t
           | [] => empty_annotation w key
           end)
  end.
Proof.
  unfold search_or_fallback.
  destruct (forward_search (drop tok doc) tok key) as [td [t|]]; [done|].
  f_equal. apply fallback_update.
Qed.

Lemma align_word_shape doc tok txt w :
  ∃ p l d h m,
    (align_word doc tok txt w).2 = set_annotation w p l d h m ∧
    annotation_ok h m.
Proof.
  unfold align_word. simpl.
  destruct (direct_match _ _ _) as [t|].
  { simpl. do 5 eexists. split; [apply fill_word_annotation_eq|].
    apply token_annotation_ok. }
  rewrite search_or_fallback_eq.
  destruct (forward_search _ _ _) as [td [t|]]; simpl.
  { do 5 eexists. split; [apply fill_word_annotation_eq|].
    apply token_annotation_ok. }
  destruct (nlp _) as [|t ?].
  - do 5 eexists. split; [apply empty_annotation_eq|]. apply empty_annotation_ok.
  - do 5 eexists. split; [apply fill_word_annotation_eq|].
    apply token_annotation_ok.
Qed.

Lemma annotate_word_foreign doc tok w :
  is_foreign w = true → annotate_word doc tok w = Ok (tok, w).
Proof. unfold annotate_word, is_foreign. by intros ->. Qed.

Lemma annotate_word_text doc tok w :
  is_foreign w = false → has_text w = true →
  annotate_word doc tok w =
  let txt := text_of w in
  if endswith txt "-" then Ok (tok, <["pos" := JStr "self-correction"]> w)
  else if String.eqb (lower txt) "eeh" then
    Ok (tok, set_annotation w (JStr "INTJ") (JStr txt) (JStr "") (JStr "")
                            (JDict ∅))
  else Ok (align_word doc tok txt w).
Proof.
  unfold annotate_word, is_foreign. intros -> Ht.
  by rewrite (has_text_as_str w Ht).
Qed.

Lemma annotate_word_total doc tok w :
  has_text w = true → ∃ r, annotate_word doc tok w = Ok r.
Proof.
  intros Ht. destruct (is_foreign w) eqn:Hf.
  - rewrite annotate_word_foreign by done. eauto.
  - rewrite annotate_word_text by done. simpl.
    destruct (endswith _ _); [eauto|]. destruct (String.eqb _ _); eauto.
Qed.

Lemma annotate_word_inv doc tok w tok' w' :
  has_text w = true →
  annotate_word doc tok w = Ok (tok', w') →
  (is_foreign w = true ∧ tok' = tok ∧ w' = w) ∨
  (is_foreign w = false ∧ endswith (text_of w) "-" = true ∧ tok' = tok ∧
   w' = <["pos" := JStr "self-correction"]> w) ∨
  (is_foreign w = false ∧ endswith (text_of w) "-" = false ∧
   ∃ p l d h m, w' = set_annotation w p l d h m ∧ annotation_ok h m).
Proof.
  intros Ht. destruct (is_foreign w) eqn:Hf.
  { rewrite annotate_word_foreign by done. intros [= <- <-]. auto. }
  rewrite annotate_word_text by done. simpl.
  destruct (endswith _ _) eqn:Hd.
  { intros [= <- <-]. right; left. auto. }
  intros Hstep. right. right. split; [done|]. split; [done|].
  destruct (String.eqb _ _).
  { injection Hstep as <- <-. do 5 eexists. split; [done|].
    apply empty_annotation_ok. }
  injection Hstep as Heq. destruct (align_word_shape doc tok (text_of w) w)
    as (p & l & d & h & m & Hw & Hok).
  rewrite Heq in Hw. simpl in Hw. subst w'. eauto 10.
Qed.

(** The loop body only writes annotation fields. *)
Lemma annotated_step_frame w w' k :
  has_text w = true → annotated_step w w' → k ∉ annotation_keys →
  w' !! k = w !! k.
Proof.
  intros Ht (doc & tok & tok' & Hstep) Hk.
  destruct (annotate_word_inv _ _ _ _ _ Ht Hstep)
    as [(_ & _ & ->)|[(_ & _ & _ & ->)|(_ & _ & p & l & d & h & m & -> & _)]].
  - done.
  - apply lookup_insert_ne. intros <-. apply Hk, elem_annotation_keys. auto.
  - by apply set_annotation_out.
Qed.

Lemma annotated_step_has_text w w' :
  has_text w = true → annotated_step w w' → has_text w' = true.
Proof.
  intros Ht Hstep. rewrite (has_text_frame w); [done|].
  eapply annotated_step_frame; eauto using text_not_annotation.
Qed.

Lemma annotated_step_outcome w w' :
  has_text w = true → unannotated w → annotated_step w w' →
  annotation_outcome w w'.
Proof.
  intros Ht Hun (doc & tok & tok' & Hstep). unfold annotation_outcome.
  destruct (annotate_word_inv _ _ _ _ _ Ht Hstep)
    as [(-> & _ & ->)|[(-> & -> & _ & ->)|(-> & -> & p & l & d & h & m & -> & _)]].
  - done.
  - split; [by simplify_map_eq|]. intros k Hk Hne.
    rewrite lookup_insert_ne by done. by apply Hun.
  - intros k Hk. by apply set_annotation_in.
Qed.

Lemma annotated_step_well_typed w w' :
  has_text w = true → unannotated w → annotated_step w w' →
  well_typed w' = true.
Proof.
  intros Ht Hun (doc & tok & tok' & Hstep).
  destruct (annotate_word_inv _ _ _ _ _ Ht Hstep)
    as [(_ & _ & ->)|[(_ & _ & _ & ->)|(_ & _ & p & l & d & h & m & -> & Hok)]].
  - by apply unannotated_well_typed.
  - pose proof (unannotated_well_typed w Ht Hun) as Hwt.
    unfold well_typed, has_text in *. by simplify_map_eq.
  - by apply set_annotation_well_typed.
Qed.

Lemma updated_at_all R (P : word → word → Prop) S wl wl' :
  updated_at R S wl wl' →
  (∀ r, r < length wl → r ∈ S) →
  (∀ r w w', wl !! r = Some w → R r w w' → P w w') →
  Forall2 P wl wl'.
Proof.
  intros [Hlen Hupd] Hall HR. apply Forall2_same_length_lookup_2; [done|].
  intros r w w' Hw Hw'. destruct (Hupd r w Hw) as (w2 & Hw2 & Hin & _).
  simplify_eq. eapply HR; [done|]. apply Hin, Hall. by eapply lookup_lt_Some.
Qed.

Lemma updated_at_Forall R (P : word → Prop) S wl wl' :
  updated_at R S wl wl' →
  (∀ r w w', wl !! r = Some w → P w → R r w w' → P w') →
  Forall P wl → Forall P wl'.
Proof.
  intros [Hlen Hupd] HR HP. apply Forall_lookup. intros r w' Hw'.
  destruct (lookup_lt_is_Some_2 wl r) as [w Hw].
  { rewrite <- Hlen. by eapply lookup_lt_Some. }
  destruct (Hupd r w Hw) as (w2 & Hw2 & Hin & Hout). simplify_eq.
  pose proof (proj1 (Forall_lookup _ _) HP r w Hw) as HPw.
  destruct (decide (r ∈ S)) as [HS|HS].
  - eapply HR; eauto.
  - by rewrite (Hout HS).
Qed.

(** *** The annotation of a segment *)

Lemma Forall_lookup_bool (f : word → bool) (wl : list word) r w :
  Forall (λ w, f w = true) wl → wl !! r = Some w → f w = true.
Proof. intros H Hw. by apply (proj1 (Forall_lookup _ _) H r w Hw). Qed.

Lemma annotate_sentence_spec doc sent tok wl :
  Forall (λ w, has_text w = true) wl → NoDup sent →
  ∃ wl', annotate_sentence doc sent tok wl = Ok wl' ∧
         updated_at (λ _, annotated_step) sent wl wl'.
Proof.
  revert tok wl. induction sent as [|r sent IH]; intros tok wl Hwl Hnd; simpl.
  { eexists. split; [done|]. apply updated_at_nil. }
  apply NoDup_cons in Hnd as [Hr Hnd]. destruct (wl !! r) as [w|] eqn:Hw.
  - pose proof (Forall_lookup_bool _ _ _ _ Hwl Hw) as Ht.
    destruct (annotate_word_total doc tok w Ht) as [[tok' w'] Hstep].
    rewrite Hstep. simpl.
    destruct (IH tok' (<[r := w']> wl)) as (wl' & Hrun & Hupd); [|done|].
    { apply Forall_insert; [done|].
      eapply annotated_step_has_text; [done|]. by exists doc, tok, tok'. }
    exists wl'. split; [done|].
    eapply updated_at_cons; [done| |done|done]. by exists doc, tok, tok'.
  - destruct (IH tok wl Hwl Hnd) as (wl' & Hrun & Hupd).
    exists wl'. split; [done|]. by apply updated_at_skip.
Qed.

Lemma context_texts_total wl ctx :
  Forall (λ w, has_text w = true) wl → ∃ texts, context_texts wl ctx = Ok texts.
Proof.
  intros Hwl. induction ctx as [|r ctx [texts IH]]; simpl; [eauto|].
  assert (∃ txt, as_str (dict_get (default ∅ (wl !! r)) "text" (JStr "")) = Ok txt)
    as [txt ->].
  { destruct (wl !! r) as [w|] eqn:Hw; simpl.
    - eexists. apply has_text_as_str.
      by eapply Forall_lookup_bool.
    - by eexists. }
  simpl. rewrite IH. simpl. eauto.
Qed.

Lemma annotated_steps_have_text S wl wl' :
  updated_at (λ _, annotated_step) S wl wl' →
  Forall (λ w, has_text w = true) wl → Forall (λ w, has_text w = true) wl'.
Proof.
  intros Hupd. eapply updated_at_Forall; [done|]. simpl.
  intros r w w' _ Ht Hstep. by eapply annotated_step_has_text.
Qed.

Lemma annotate_sentences_spec sl todo wl :
  Forall (λ w, has_text w = true) wl → NoDup (concat todo.*2) →
  ∃ wl', annotate_sentences sl todo wl = Ok wl' ∧
         updated_at (λ _, annotated_step) (concat todo.*2) wl wl'.
Proof.
  revert wl. induction todo as [|[i sent] todo IH]; intros wl Hwl Hnd; simpl.
  { eexists. split; [done|]. apply updated_at_nil. }
  simpl in Hnd. apply NoDup_app in Hnd as (Hsent & Hdisj & Hrest).
  destruct (context_texts_total wl (context_window sl i sent) Hwl) as [texts ->].
  simpl.
  destruct (annotate_sentence_spec (nlp (join " " texts)) sent 0 wl Hwl Hsent)
    as (wl1 & -> & Hupd1).
  simpl. destruct (IH wl1) as (wl' & Hrun & Hupd2); [|done|].
  { by eapply annotated_steps_have_text. }
  exists wl'. split; [done|]. by eapply updated_at_app.
Qed.

Lemma split_loop_spec ws sentences current_sentence :
  Forall (λ w, has_text w = true) ws.*2 →
  ∃ sl, split_loop ws sentences current_sentence = Ok sl ∧
        concat sl = concat sentences ++ current_sentence ++ ws.*1.
Proof.
  revert sentences current_sentence.
  induction ws as [|[r w] ws IH]; intros sentences cur Hws; simpl.
  { eexists. split; [done|]. destruct cur as [|c cur].
    - by rewrite !app_nil_r.
    - by rewrite concat_app, app_nil_r; simpl; rewrite app_nil_r. }
  simpl in Hws. apply Forall_cons in Hws as [Ht Hws].
  rewrite (has_text_as_str w Ht). simpl.
  destruct (negb _ && _).
  - destruct (IH (sentences ++ [cur ++ [r]]) [] Hws) as (sl & -> & Hsl).
    exists sl. split; [done|]. rewrite Hsl, concat_app. simpl.
    by rewrite app_nil_r, <- !app_assoc.
  - destruct (IH sentences (cur ++ [r]) Hws) as (sl & -> & Hsl).
    exists sl. split; [done|]. rewrite Hsl. by rewrite <- !app_assoc.
Qed.

(** The sentences cover every word of the segment exactly once, in order. *)
Lemma split_into_sentences_spec words_list :
  Forall (λ w, has_text w = true) words_list →
  ∃ sl, split_into_sentences words_list = Ok sl ∧
        concat sl = seq 0 (length words_list).
Proof.
  intros Hwl. unfold split_into_sentences, enumerate.
  destruct (split_loop_spec (enumerate_from 0 words_list) [] []) as (sl & -> & Hsl).
  { by rewrite enumerate_from_snd. }
  exists sl. split; [done|]. by rewrite Hsl, enumerate_from_fst.
Qed.

Lemma annotate_segment_spec wl :
  Forall (λ w, has_text w = true) wl →
  ∃ wl', annotate_segment wl = Ok wl' ∧ Forall2 annotated_step wl wl'.
Proof.
  intros Hwl. destruct wl as [|w0 wl0] eqn:Heq.
  { exists []. split; [done|]. constructor. }
  rewrite <- Heq in *. assert (annotate_segment wl =
    sl ← split_into_sentences wl; annotate_sentences sl (enumerate sl) wl) as ->.
  { by rewrite Heq. }
  destruct (split_into_sentences_spec wl Hwl) as (sl & -> & Hsl). simpl.
  destruct (annotate_sentences_spec sl (enumerate sl) wl Hwl) as (wl' & -> & Hupd).
  { unfold enumerate. rewrite enumerate_from_snd, Hsl. apply NoDup_seq. }
  exists wl'. split; [done|]. eapply updated_at_all; [done| |].
  - intros r Hr. unfold enumerate. rewrite enumerate_from_snd, Hsl.
    apply elem_of_seq. lia.
  - by intros r w w' _ Hstep.
Qed.

(** *** Reading the fields of a well-typed word *)

Lemma py_in_feature x (m : dict) f :
  is_feature (m !! f) = true →
  py_in x (dict_get m f (JList [])) = Ok (has_value x (dict_get m f (JList []))).
Proof.
  unfold dict_get, has_value. by destruct (m !! f) as [[]|].
Qed.

Lemma well_typed_has_text w : well_typed w = true → has_text w = true.
Proof. unfold well_typed. by intros [[? _]%andb_prop _]%andb_prop. Qed.

Lemma well_typed_head w :
  well_typed w = true →
  as_str (dict_get w "head_text" (JStr "")) = Ok (head_of w).
Proof.
  unfold well_typed, dict_get, head_of.
  intros [[_ Hh]%andb_prop _]%andb_prop.
  by destruct (w !! "head_text") as [[]|].
Qed.

Lemma well_typed_morph w :
  well_typed w = true →
  ∃ m, dict_get w "morph" (JDict ∅) = JDict m ∧
       (∀ f, dict_get m f (JList []) = feature_values w f) ∧
       (∀ f, bool_decide (is_Some (m !! f)) = has_feature w f) ∧
       is_feature (m !! "Tense") = true ∧ is_feature (m !! "VerbForm") = true.
Proof.
  unfold well_typed, dict_get, feature_values, has_feature.
  intros [_ Hm]%andb_prop.
  destruct (w !! "morph") as [[| | | | |m]|]; try discriminate; simpl.
  - apply andb_prop in Hm as [??]. by exists m.
  - exists ∅. rewrite !lookup_empty. repeat split; done.
Qed.

Lemma well_typed_text_item w :
  well_typed w = true → py_item (JDict w) "text" = Ok (JStr (text_of w)).
Proof.
  intros Ht%well_typed_has_text. unfold has_text, text_of in *. simpl.
  by destruct (w !! "text") as [[]|].
Qed.

(** *** The tense classifier on one word *)

#[local] Arguments in_forms : simpl never.

Lemma detect_loop_spec key part siblings :
  Forall (λ w, well_typed w = true) siblings.*2 →
  detect_loop key part siblings =
  Ok (existsb (λ p, negb (Nat.eqb p.1 part) && governing_aux key p.2) siblings).
Proof.
  induction siblings as [|[r s] siblings IH]; intros Hwt; simpl; [done|].
  apply Forall_cons in Hwt as [Hs Hwt]. specialize (IH Hwt).
  destruct (Nat.eqb r part); simpl; [done|].
  unfold governing_aux at 1. destruct (eq_str (s !! "pos") "AUX"); simpl; [|done].
  destruct (well_typed_morph s Hs) as (m & -> & Hval & _ & HT & _). simpl.
  rewrite (py_in_feature "Pres" m "Tense" HT). simpl.
  unfold feature_has. rewrite <- Hval.
  destruct (has_value "Pres" _); simpl; [|done].
  rewrite (well_typed_head s Hs). simpl.
  by destruct (String.eqb _ _).
Qed.

Lemma detect_compound_any_fallback_spec i w seg_words :
  well_typed w = true → Forall (λ w, well_typed w = true) seg_words →
  detect_compound_any_fallback i w seg_words =
  if other_aux_governs i (lower (text_of w)) seg_words
  then Ok (true, set_past_tense_type w "PerfectoCompuesto")
  else Ok (false, w).
Proof.
  intros Hw Hwt. unfold detect_compound_any_fallback.
  rewrite (well_typed_text_item w Hw). simpl.
  rewrite detect_loop_spec.
  2:{ unfold enumerate. by rewrite enumerate_from_snd. }
  done.
Qed.

Lemma classify_past_tense_form_spec i w seg_words :
  well_typed w = true → Forall (λ w, well_typed w = true) seg_words →
  classify_past_tense_form i w seg_words = Ok (tense_expected seg_words i w).
Proof.
  intros Hw Hwt. unfold classify_past_tense_form, tense_expected.
  destruct (well_typed_morph w Hw) as (m & -> & Hval & _ & HT & HV).
  rewrite (py_in_feature "Past" m "Tense" HT). simpl.
  unfold feature_has. rewrite <- !Hval.
  destruct (has_value "Past" _); simpl; [|done].
  unfold past_label, past_label_for, feature_has. rewrite <- !Hval.
  rewrite (py_in_feature "Fin" m "VerbForm" HV). simpl.
  destruct (has_value "Fin" _); simpl; [done|].
  rewrite (py_in_feature "Part" m "VerbForm" HV). simpl.
  destruct (has_value "Part" _); simpl; [|done].
  rewrite (well_typed_head w Hw). simpl.
  unfold haber_label.
  destruct (in_forms _ PRESENT_FORMS); [done|].
  destruct (in_forms _ IMPERFECT_FORMS); [done|].
  destruct (in_forms _ FUTURE_FORMS); [done|].
  destruct (in_forms _ COND_FORMS); [done|].
  rewrite (detect_compound_any_fallback_spec i w seg_words Hw Hwt).
  by destruct (other_aux_governs _ _ _).
Qed.

(** *** Words that differ in synthetic morphology entries only *)

Lemma refines_refl w : refines w w.
Proof.
  split; [done|]. destruct (w !! "morph") as [[| | | | |m]|]; try done.
  by exists m.
Qed.

Lemma refines_trans w1 w2 w3 : refines w1 w2 → refines w2 w3 → refines w1 w3.
Proof.
  intros [H12 M12] [H23 M23]. split.
  { intros k Hk. by rewrite H23, H12. }
  destruct (w1 !! "morph") as [[| | | | |m]|];
    try (by rewrite M12 in M23).
  destruct M12 as (m2 & Hm2 & Heq2). rewrite Hm2 in M23.
  destruct M23 as (m3 & Hm3 & Heq3). exists m3. split; [done|].
  intros k ??. by rewrite Heq3, Heq2.
Qed.

Lemma refines_write w m key label :
  w !! "morph" = Some (JDict m) →
  key = "Past_Tense_Type" ∨ key = "Future_Type" →
  refines w (<["morph" := JDict (<[key := JStr label]> m)]> w).
Proof.
  intros Hm Hkey. split.
  { intros k Hk. by rewrite lookup_insert_ne. }
  rewrite Hm. eexists. split; [by rewrite lookup_insert_eq|].
  intros k ??. rewrite lookup_insert_ne; [done|]. by destruct Hkey as [->| ->].
Qed.

Lemma refines_set_past_tense_type w m label :
  w !! "morph" = Some (JDict m) → refines w (set_past_tense_type w label).
Proof.
  intros Hm. unfold set_past_tense_type. rewrite Hm.
  apply refines_write; auto.
Qed.

Lemma refines_set_future_type w m label :
  w !! "morph" = Some (JDict m) → refines w (set_future_type w label).
Proof.
  intros Hm. unfold set_future_type. rewrite Hm.
  apply refines_write; auto.
Qed.

Lemma refines_lookup w w' k : refines w w' → k ≠ "morph" → w' !! k = w !! k.
Proof. intros [H _]. apply H. Qed.

Lemma refines_is_Some w w' k : refines w w' → is_Some (w' !! k) ↔ is_Some (w !! k).
Proof.
  intros [H M]. destruct (decide (k = "morph")) as [->|Hk].
  - destruct (w !! "morph") as [[| | | | |m]|]; try (by rewrite M).
    destruct M as (m' & -> & _). split; eauto.
  - by rewrite H.
Qed.

Lemma refines_text w w' : refines w w' → text_of w' = text_of w.
Proof. intros [H _]. unfold text_of. by rewrite H. Qed.

Lemma refines_head w w' : refines w w' → head_of w' = head_of w.
Proof. intros [H _]. unfold head_of. by rewrite H. Qed.

Lemma refines_feature_values w w' f :
  refines w w' → f ≠ "Past_Tense_Type" → f ≠ "Future_Type" →
  feature_values w' f = feature_values w f.
Proof.
  intros [_ M] ??. unfold feature_values, dict_get.
  destruct (w !! "morph") as [[| | | | |m]|]; try (by rewrite M).
  destruct M as (m' & -> & Heq). by rewrite Heq.
Qed.

Lemma refines_feature_has w w' f x :
  refines w w' → f ≠ "Past_Tense_Type" → f ≠ "Future_Type" →
  feature_has w' f x = feature_has w f x.
Proof. intros. unfold feature_has. by rewrite (refines_feature_values w w'). Qed.

Lemma refines_has_feature w w' f :
  refines w w' → f ≠ "Past_Tense_Type" → f ≠ "Future_Type" →
  has_feature w' f = has_feature w f.
Proof.
  intros [_ M] ??. unfold has_feature.
  destruct (w !! "morph") as [[| | | | |m]|]; try (by rewrite M).
  destruct M as (m' & -> & Heq). by rewrite Heq.
Qed.

Lemma refines_well_typed w w' : refines w w' → well_typed w' = well_typed w.
Proof.
  intros [H M]. unfold well_typed, has_text. rewrite !H by done.
  destruct (w !! "morph") as [[| | | | |m]|]; try (by rewrite M).
  destruct M as (m' & -> & Heq). by rewrite !Heq.
Qed.

Lemma refines_governing_aux key w w' :
  refines w w' → governing_aux key w' = governing_aux key w.
Proof.
  intros Hr. unfold governing_aux.
  rewrite (refines_lookup w w'), (refines_feature_has w w'), (refines_head w w');
    done.
Qed.

Lemma refines_Forall_well_typed ws ws' :
  Forall2 refines ws ws' →
  Forall (λ w, well_typed w = true) ws → Forall (λ w, well_typed w = true) ws'.
Proof.
  induction 1 as [|w w' ws ws' Hr _ IH]; [done|].
  intros [Hw Hws]%Forall_cons. constructor; [|by apply IH].
  by rewrite (refines_well_typed w w').
Qed.

Lemma refines_other_aux_governs i key ws ws' :
  Forall2 refines ws ws' →
  other_aux_governs i key ws' = other_aux_governs i key ws.
Proof.
  intros H. unfold other_aux_governs, enumerate. generalize 0.
  induction H as [|w w' ws ws' Hr _ IH]; intros k; simpl; [done|].
  by rewrite IH, (refines_governing_aux key w w').
Qed.

Lemma refines_past_label i w ws ws' :
  Forall2 refines ws ws' → past_label i w ws' = past_label i w ws.
Proof.
  intros Hr. unfold past_label, past_label_for.
  by rewrite (refines_other_aux_governs _ _ ws ws').
Qed.

Lemma refines_tense_expected ws i w :
  refines w (tense_expected ws i w).
Proof.
  unfold tense_expected, feature_has, feature_values.
  destruct (w !! "morph") as [[| | | | |m]|] eqn:Hm;
    try (simpl; apply refines_refl).
  destruct (has_value _ _); [|apply refines_refl].
  by eapply refines_set_past_tense_type.
Qed.

(** *** The tense classifier on a segment *)

Lemma tenses_loop_spec orig todo cur :
  NoDup todo →
  Forall (λ w, well_typed w = true) orig →
  Forall2 refines orig cur →
  (∀ i, i ∈ todo → cur !! i = orig !! i) →
  ∃ ws', tenses_loop todo cur = Ok ws' ∧
         updated_at (λ i w w', w' = tense_expected orig i w) todo cur ws'.
Proof.
  revert cur. induction todo as [|i todo IH]; intros cur Hnd Hwt Href Hsame; simpl.
  { eexists. split; [done|]. apply updated_at_nil. }
  apply NoDup_cons in Hnd as [Hi Hnd].
  pose proof (refines_Forall_well_typed _ _ Href Hwt) as Hcwt.
  assert (∀ j, j ∈ todo → cur !! j = orig !! j) as Hsame'.
  { intros j Hj. apply Hsame. by right. }
  destruct (cur !! i) as [w|] eqn:Hw.
  2:{ destruct (IH cur) as (ws' & Hrun & Hupd); [done..|].
      exists ws'. split; [done|]. by apply updated_at_skip. }
  pose proof (Forall_lookup_bool _ _ _ _ Hcwt Hw) as Hwwt.
  destruct (well_typed_morph w Hwwt) as (m & Hm & Hval & _ & HT & _).
  rewrite Hm, (py_in_feature "Past" m "Tense" HT), Hval. simpl.
  fold (feature_has w "Tense" "Past").
  destruct (feature_has w "Tense" "Past") eqn:Hpast.
  - rewrite (classify_past_tense_form_spec i w cur Hwwt Hcwt). simpl.
    destruct (IH (<[i := tense_expected cur i w]> cur)) as (ws' & Hrun & Hupd).
    + done.
    + done.
    + rewrite <- (list_insert_id orig i w).
      2:{ rewrite <- Hsame; [done|by left]. }
      apply Forall2_insert; [done|]. apply refines_tense_expected.
    + intros j Hj. rewrite list_lookup_insert_ne; [by apply Hsame'|].
      by intros ->.
    + exists ws'. split; [done|]. eapply updated_at_cons; [done| |done|done].
      simpl. unfold tense_expected. by rewrite (refines_past_label _ _ orig cur).
  - destruct (IH cur) as (ws' & Hrun & Hupd); [done..|].
    exists ws'. split; [done|].
    eapply (updated_at_cons _ i w w); [done| |done|].
    + unfold tense_expected. by rewrite Hpast.
    + by rewrite list_insert_id.
Qed.

Lemma Forall2_refines_refl ws : Forall2 refines ws ws.
Proof. induction ws; constructor; auto using refines_refl. Qed.

(** The tense classifier on a segment: it returns, and every word is
    relabelled from the segment as it stood before. *)
Lemma post_process_tenses_segment_spec ws :
  Forall (λ w, well_typed w = true) ws →
  ∃ ws', post_process_tenses_segment ws = Ok ws' ∧
         length ws' = length ws ∧
         ∀ i w, ws !! i = Some w → ws' !! i = Some (tense_expected ws i w).
Proof.
  intros Hwt. unfold post_process_tenses_segment.
  destruct (tenses_loop_spec ws (seq 0 (length ws)) ws)
    as (ws' & Hrun & Hlen & Hupd);
    [apply NoDup_seq | done | apply Forall2_refines_refl | done |].
  exists ws'. split; [done|]. split; [done|].
  intros i w Hw. destruct (Hupd i w Hw) as (w' & Hw' & Hin & _).
  rewrite Hw', Hin; [done|]. apply elem_of_seq.
  apply lookup_lt_Some in Hw. lia.
Qed.

(** *** The future detector on one window *)

Lemma set_future_type_eq w m label :
  dict_get w "morph" (JDict ∅) = JDict m →
  set_future_type w label =
  <["morph" := JDict (<["Future_Type" := JStr label]> m)]> w.
Proof.
  unfold dict_get, set_future_type.
  destruct (w !! "morph") as [[| | | | |m']|]; simpl; congruence.
Qed.

Lemma future_window_spec w1 w2 w3 :
  well_typed w1 = true → well_typed w2 = true → well_typed w3 = true →
  future_window w1 w2 w3 =
  Ok (match analytic_future_label w1 w2 w3 with
      | Some label => set_future_type w3 label
      | None => w3
      end).
Proof.
  intros H1 H2 H3. unfold future_window, future_condition, analytic_future_label.
  rewrite (has_text_as_str w2 (well_typed_has_text w2 H2)). simpl.
  destruct (eq_str (w1 !! "pos") "AUX"); simpl; [|done].
  destruct (well_typed_morph w1 H1) as (m1 & Hm1 & Hval1 & Hkey1 & HT1 & _).
  rewrite Hm1. simpl. rewrite Hkey1.
  destruct (has_feature w1 "Tense") eqn:Hhas; simpl; [|done].
  destruct (String.eqb _ "a"); simpl; [|done].
  destruct (eq_str (w2 !! "pos") "ADP"); simpl; [|done].
  destruct (eq_str (w3 !! "pos") "VERB"); simpl; [|done].
  destruct (well_typed_morph w3 H3) as (m3 & Hm3 & Hval3 & _ & _ & HV3).
  rewrite Hm3. simpl. rewrite (py_in_feature "Inf" m3 "VerbForm" HV3), Hval3.
  simpl. fold (feature_has w3 "VerbForm" "Inf").
  destruct (feature_has w3 "VerbForm" "Inf"); simpl; [|done].
  unfold future_label. rewrite Hm1. simpl.
  rewrite <- Hkey1 in Hhas. apply bool_decide_eq_true in Hhas as [v Hv].
  rewrite Hv. simpl.
  assert (feature_values w1 "Tense" = v) as Hfv.
  { rewrite <- Hval1. unfold dict_get. by rewrite Hv. }
  pose proof (py_in_feature "Pres" m1 "Tense" HT1) as HPres.
  pose proof (py_in_feature "Imp" m1 "Tense" HT1) as HImp.
  rewrite Hval1, Hfv in HPres, HImp. rewrite HPres. simpl.
  unfold feature_has. rewrite Hfv.
  destruct (has_value "Pres" v); simpl.
  { unfold write_future_type. rewrite Hm3. simpl.
    by rewrite (set_future_type_eq w3 m3). }
  rewrite HImp. simpl. destruct (has_value "Imp" v); simpl; [|done].
  unfold write_future_type. rewrite Hm3. simpl.
  by rewrite (set_future_type_eq w3 m3).
Qed.

Lemma refines_analytic_future_label w1 w1' w2 w2' w3 :
  refines w1 w1' → refines w2 w2' →
  analytic_future_label w1' w2' w3 = analytic_future_label w1 w2 w3.
Proof.
  intros Hr1 Hr2. unfold analytic_future_label.
  rewrite (refines_lookup w1 w1'), (refines_has_feature w1 w1'),
    (refines_text w2 w2'), (refines_lookup w2 w2'),
    !(refines_feature_has w1 w1'); done.
Qed.

Lemma refines_future_expected ws j w : refines w (future_expected ws j w).
Proof.
  unfold future_expected.
  destruct j as [|[|i]]; try apply refines_refl.
  destruct (ws !! i) as [w1|]; [|apply refines_refl].
  destruct (ws !! S i) as [w2|]; [|apply refines_refl].
  unfold analytic_future_label.
  destruct (_ && feature_has w "VerbForm" "Inf") eqn:Hc; [|apply refines_refl].
  apply andb_prop in Hc as [_ Hinf].
  unfold feature_has, feature_values in Hinf.
  destruct (w !! "morph") as [[| | | | |m]|] eqn:Hm; try discriminate.
  destruct (feature_has w1 "Tense" "Pres").
  { by eapply refines_set_future_type. }
  destruct (feature_has w1 "Tense" "Imp"); [|apply refines_refl].
  by eapply refines_set_future_type.
Qed.

(** *** The future detector on a segment *)

Lemma futures_loop_spec orig todo cur :
  NoDup todo →
  Forall (λ w, well_typed w = true) orig →
  Forall2 refines orig cur →
  (∀ i, i ∈ todo → cur !! (i + 2) = orig !! (i + 2)) →
  ∃ ws', futures_loop todo cur = Ok ws' ∧
         updated_at (λ j w w', w' = future_expected orig j w)
                    ((λ i, i + 2) <$> todo) cur ws'.
Proof.
  revert cur. induction todo as [|i todo IH]; intros cur Hnd Hwt Href Hsame; simpl.
  { eexists. split; [done|]. apply updated_at_nil. }
  apply NoDup_cons in Hnd as [Hi Hnd].
  pose proof (refines_Forall_well_typed _ _ Href Hwt) as Hcwt.
  assert (∀ j, j ∈ todo → cur !! (j + 2) = orig !! (j + 2)) as Hsame'.
  { intros j Hj. apply Hsame. by right. }
  assert (i + 2 ∉ (λ i, i + 2) <$> todo) as Hi2.
  { intros (j & Hj & Hin)%list_elem_of_fmap.
    assert (j = i) as -> by lia. done. }
  destruct (cur !! (i + 2)) as [w3|] eqn:Hw3.
  2:{ destruct (IH cur) as (ws' & Hrun & Hupd); [done..|].
      exists ws'. split.
      - by destruct (cur !! i), (cur !! (i + 1)).
      - by apply updated_at_skip. }
  pose proof (lookup_lt_Some _ _ _ Hw3) as Hlt.
  destruct (lookup_lt_is_Some_2 cur i) as [w1' Hw1']; [lia|].
  destruct (lookup_lt_is_Some_2 cur (i + 1)) as [w2' Hw2']; [lia|].
  rewrite Hw1', Hw2'.
  destruct (Forall2_lookup_r _ _ _ _ _ Href Hw1') as (w1 & Hw1 & Hr1).
  destruct (Forall2_lookup_r _ _ _ _ _ Href Hw2') as (w2 & Hw2 & Hr2).
  rewrite (future_window_spec w1' w2' w3); [|by eapply Forall_lookup_bool..].
  simpl. rewrite (refines_analytic_future_label w1 w1' w2 w2') by done.
  assert (orig !! (i + 2) = Some w3) as Ho3.
  { rewrite <- Hsame; [done|by left]. }
  assert (future_expected orig (i + 2) w3 =
          match analytic_future_label w1 w2 w3 with
          | Some label => set_future_type w3 label
          | None => w3
          end) as Hexp.
  { replace (i + 2) with (S (S i)) by lia. simpl.
    replace (i + 1) with (S i) in Hw2 by lia. by rewrite Hw1, Hw2. }
  rewrite <- Hexp.
  destruct (IH (<[i + 2 := future_expected orig (i + 2) w3]> cur))
    as (ws' & Hrun & Hupd).
  - done.
  - done.
  - rewrite <- (list_insert_id orig (i + 2) w3) by done.
    apply Forall2_insert; [done|]. apply refines_future_expected.
  - intros j Hj. rewrite list_lookup_insert_ne; [by apply Hsame'|].
    intros ?. assert (j = i) as -> by lia. done.
  - exists ws'. split; [done|].
    apply (updated_at_cons _ (i + 2) w3 (future_expected orig (i + 2) w3));
      [done|reflexivity|done|done].
Qed.

(** The future detector on a segment: it returns, and every word is
    relabelled from the segment as it stood before. *)
Lemma post_process_futures_segment_spec ws :
  Forall (λ w, well_typed w = true) ws →
  ∃ ws', post_process_futures_segment ws = Ok ws' ∧
         length ws' = length ws ∧
         ∀ j w, ws !! j = Some w → ws' !! j = Some (future_expected ws j w).
Proof.
  intros Hwt. unfold post_process_futures_segment.
  destruct (futures_loop_spec ws (seq 0 (length ws - 2)) ws)
    as (ws' & Hrun & Hlen & Hupd);
    [apply NoDup_seq | done | apply Forall2_refines_refl | done |].
  exists ws'. split; [done|]. split; [done|].
  intros j w Hw. destruct (Hupd j w Hw) as (w' & Hw' & Hin & Hout).
  rewrite Hw'. f_equal. apply lookup_lt_Some in Hw.
  destruct (decide (2 ≤ j)) as [Hj|Hj].
  - apply Hin. apply list_elem_of_fmap. exists (j - 2).
    split; [lia|]. apply elem_of_seq. lia.
  - rewrite Hout.
    + by destruct j as [|[|j]]; [..|lia].
    + intros (i & -> & _)%list_elem_of_fmap. lia.
Qed.

(** *** The three passes over the segments of a transcript *)

Lemma for_each_segment_spec (body : list word → result (list word))
    (P : list word → Prop) (Q : list word → list word → Prop) segs :
  (∀ wl, P wl → ∃ wl', body wl = Ok wl' ∧ Q wl wl') →
  Forall (λ s, P (words s)) segs →
  ∃ segs', for_each_segment body segs = Ok segs' ∧
           Forall2 (λ s s', seg_fields s' = seg_fields s ∧
                            Q (words s) (words s')) segs segs'.
Proof.
  intros Hbody. induction 1 as [|s segs Hs _ (segs' & IHrun & IH)]; simpl.
  { exists []. split; [done|]. constructor. }
  destruct (Hbody _ Hs) as (wl' & -> & HQ). simpl. rewrite IHrun. simpl.
  eexists. split; [done|]. by constructor.
Qed.

Lemma tenses_result_refines ws ws' :
  tenses_result ws ws' → Forall2 refines ws ws'.
Proof.
  intros [Hlen Hres]. apply Forall2_same_length_lookup_2; [done|].
  intros i w w' Hw Hw'. rewrite (Hres i w Hw) in Hw'. simplify_eq.
  apply refines_tense_expected.
Qed.

Lemma futures_result_refines ws ws' :
  futures_result ws ws' → Forall2 refines ws ws'.
Proof.
  intros [Hlen Hres]. apply Forall2_same_length_lookup_2; [done|].
  intros i w w' Hw Hw'. rewrite (Hres i w Hw) in Hw'. simplify_eq.
  apply refines_future_expected.
Qed.

Lemma post_process_compound_tenses_spec segs :
  all_words well_typed segs →
  ∃ segs', post_process_compound_tenses segs = Ok segs' ∧
           Forall2 (λ s s', seg_fields s' = seg_fields s ∧
                            tenses_result (words s) (words s')) segs segs'.
Proof.
  apply for_each_segment_spec. intros wl Hwl.
  destruct (post_process_tenses_segment_spec wl Hwl) as (wl' & ? & ? & ?).
  by exists wl'.
Qed.

Lemma post_process_compound_futures_spec segs :
  all_words well_typed segs →
  ∃ segs', post_process_compound_futures segs = Ok segs' ∧
           Forall2 (λ s s', seg_fields s' = seg_fields s ∧
                            futures_result (words s) (words s')) segs segs'.
Proof.
  apply for_each_segment_spec. intros wl Hwl.
  destruct (post_process_futures_segment_spec wl Hwl) as (wl' & ? & ? & ?).
  by exists wl'.
Qed.

Lemma all_words_refines segs segs' :
  Forall2 (λ s s', seg_fields s' = seg_fields s ∧
                   Forall2 refines (words s) (words s')) segs segs' →
  all_words well_typed segs → all_words well_typed segs'.
Proof.
  intros H Hwt. eapply Forall2_Forall_r; [exact H|].
  eapply Forall_impl; [exact Hwt|]. simpl.
  intros s Hs s' [_ Hr]. by eapply refines_Forall_well_typed.
Qed.

(** *** The main routine *)

Lemma segments_trans (R1 R2 R3 : word → word → Prop) :
  (∀ x y z, R1 x y → R2 y z → R3 x z) →
  ∀ a b c,
  Forall2 (λ s s', seg_fields s' = seg_fields s ∧
                   Forall2 R1 (words s) (words s')) a b →
  Forall2 (λ s s', seg_fields s' = seg_fields s ∧
                   Forall2 R2 (words s) (words s')) b c →
  Forall2 (λ s s', seg_fields s' = seg_fields s ∧
                   Forall2 R3 (words s) (words s')) a c.
Proof.
  intros HR a b c Hab Hbc.
  eapply Forall2_trans; [|exact Hab|exact Hbc]. simpl.
  intros s1 s2 s3 [Hf1 Hw1] [Hf2 Hw2]. split; [congruence|].
  eapply Forall2_trans; [|exact Hw1|exact Hw2]. exact HR.
Qed.

Lemma clear_word_has_text w : has_text (clear_word w) = has_text w.
Proof. apply has_text_frame, clear_word_out, text_not_annotation. Qed.

Lemma annotate_segment_cleared wl :
  Forall (λ w, has_text w = true) wl →
  ∃ wl', annotate_segment (clear_word <$> wl) = Ok wl' ∧
         Forall2 (λ w w1, annotated_step (clear_word w) w1 ∧
                          well_typed w1 = true) wl wl'.
Proof.
  intros Hwl.
  destruct (annotate_segment_spec (clear_word <$> wl)) as (wl' & Hrun & Hstep).
  { apply Forall_fmap. eapply Forall_impl; [done|]. simpl.
    intros w Hw. by rewrite clear_word_has_text. }
  exists wl'. split; [done|]. rewrite Forall2_fmap_l in Hstep.
  apply Forall2_same_length_lookup_2; [by eapply Forall2_length|].
  intros i w w1 Hw Hw1. pose proof (Forall2_lookup_lr _ _ _ _ _ _ Hstep Hw Hw1).
  split; [done|]. eapply annotated_step_well_typed; [| |done].
  - rewrite clear_word_has_text. by eapply Forall_lookup_bool.
  - apply clear_word_unannotated.
Qed.

(** On a transcript whose words all have a text, the pipeline returns, and
    every word of the result is the word in the same place of the input,
    processed. *)
Lemma annotate_file_spec data :
  all_words has_text (segments data) →
  ∃ data', annotate_file data = Ok data' ∧
           data_fields data' = data_fields data ∧
           Forall2 (λ s s', seg_fields s' = seg_fields s ∧
                            Forall2 processed (words s) (words s'))
                   (segments data) (segments data').
Proof.
  intros Htext. unfold annotate_file, annotate_cleared.
  destruct (for_each_segment_spec annotate_segment
              (λ wl, ∃ wl0, wl = clear_word <$> wl0 ∧
                            Forall (λ w, has_text w = true) wl0)
              (λ wl wl', ∀ wl0, wl = clear_word <$> wl0 →
                 Forall (λ w, has_text w = true) wl0 →
                 Forall2 (λ w w1, annotated_step (clear_word w) w1 ∧
                                  well_typed w1 = true) wl0 wl')
              (clear_annotations (segments data)))
    as (segs1 & -> & H1).
  { intros wl (wl0 & -> & Hwl0).
    destruct (annotate_segment_cleared wl0 Hwl0) as (wl' & Hrun & Hstep).
    exists wl'. split; [done|]. intros wl1 Heq Hwl1.
    destruct (annotate_segment_cleared wl1 Hwl1) as (wl'' & Hrun' & Hstep').
    rewrite <- Heq, Hrun in Hrun'. by simplify_eq. }
  { unfold clear_annotations. apply Forall_fmap.
    eapply Forall_impl; [exact Htext|]. simpl. intros s Hs. by exists (words s). }
  simpl. unfold clear_annotations in H1. rewrite Forall2_fmap_l in H1.
  assert (Forall2 (λ s s1, seg_fields s1 = seg_fields s ∧
            Forall2 (λ w w1, annotated_step (clear_word w) w1 ∧
                             well_typed w1 = true) (words s) (words s1))
            (segments data) segs1) as H1'.
  { apply Forall2_same_length_lookup_2; [by eapply Forall2_length|].
    intros i s s1 Hs Hs1.
    destruct (Forall2_lookup_lr _ _ _ _ _ _ H1 Hs Hs1) as [Hf HQ].
    split; [done|]. apply HQ; [done|].
    apply (proj1 (Forall_lookup _ _) Htext i s Hs). }
  clear H1.
  assert (all_words well_typed segs1) as Hwt1.
  { eapply Forall2_Forall_r; [exact H1'|]. apply Forall_forall.
    intros s _ s1 [_ Hw]. eapply Forall2_Forall_r; [exact Hw|].
    apply Forall_forall. by intros w _ w1 [_ ?]. }
  destruct (post_process_compound_tenses_spec segs1 Hwt1) as (segs2 & -> & H2).
  simpl.
  assert (Forall2 (λ s s', seg_fields s' = seg_fields s ∧
            Forall2 refines (words s) (words s')) segs1 segs2) as H2'.
  { eapply Forall2_impl; [exact H2|]. simpl.
    intros s s' [? ?]. split; [done|]. by apply tenses_result_refines. }
  pose proof (all_words_refines _ _ H2' Hwt1) as Hwt2.
  destruct (post_process_compound_futures_spec segs2 Hwt2) as (segs3 & -> & H3).
  simpl. eexists. split; [done|]. split; [done|]. simpl.
  assert (Forall2 (λ s s', seg_fields s' = seg_fields s ∧
            Forall2 refines (words s) (words s')) segs2 segs3) as H3'.
  { eapply Forall2_impl; [exact H3|]. simpl.
    intros s s' [? ?]. split; [done|]. by apply futures_result_refines. }
  pose proof (segments_trans refines refines refines refines_trans
                _ _ _ H2' H3') as H23.
  refine (segments_trans _ refines processed _ _ _ _ H1' H23).
  intros w w1 w3 [Hstep Hwt] Hr. by exists w1.
Qed.


Lemma already_annotated_iff segs :
  already_annotated segs = true ↔
  ∃ s w, s ∈ segs ∧ w ∈ words s ∧
         (is_Some (w !! "pos") ∨ is_Some (w !! "morph")).
Proof.
  unfold already_annotated. rewrite existsb_exists. split.
  - intros (s & Hs & Hw). apply existsb_exists in Hw as (w & Hw & Hany).
    exists s, w. split; [by apply list_elem_of_In|].
    split; [by apply list_elem_of_In|].
    unfold already_annotated_word in Hany. apply orb_true_iff in Hany.
    destruct Hany as [H|H]; apply bool_decide_eq_true in H; auto.
  - intros (s & w & Hs & Hw & Hany). exists s. split; [by apply list_elem_of_In|].
    apply existsb_exists. exists w. split; [by apply list_elem_of_In|].
    unfold already_annotated_word. apply orb_true_iff.
    destruct Hany; [left|right]; by apply bool_decide_eq_true.
Qed.









(** *** The cursor of the aligner *)

Lemma drop_cons_inv {A : Type} (l : list A) n x rest :
  drop n l = x :: rest → l !! n = Some x ∧ drop (S n) l = rest.
Proof.
  intros H. assert (l !! n = Some x) as Hx.
  { rewrite <- (Nat.add_0_r n), <- lookup_drop. by rewrite H. }
  split; [done|]. rewrite (drop_S l x n Hx) in H. by simplify_eq.
Qed.

Lemma drop_nil_inv {A : Type} (l : list A) n : drop n l = [] → length l ≤ n.
Proof.
  intros H. apply (f_equal length) in H. rewrite length_drop in H.
  simpl in H. lia.
Qed.

Lemma skip_punct_space_spec doc tok :
  tok ≤ length doc → skipped doc tok (skip_punct_space (drop tok doc) tok).
Proof.
  remember (drop tok doc) as rest eqn:Hrest. revert tok Hrest.
  induction rest as [|t rest IH]; intros tok Hrest Hle; simpl.
  { symmetry in Hrest. apply drop_nil_inv in Hrest.
    split; [lia|]. split; [intros; lia|].
    intros t Ht. apply lookup_lt_Some in Ht. lia. }
  symmetry in Hrest. apply drop_cons_inv in Hrest as [Ht Hrest].
  pose proof (lookup_lt_Some _ _ _ Ht) as Hlt.
  destruct (t_is_punct t || t_is_space t) eqn:Hp.
  - destruct (IH (S tok)) as (Hrange & Hskip & Hstop); [done|lia|].
    split; [lia|]. split; [|done].
    intros k t' Hk Ht'. destruct (decide (k = tok)) as [->|Hne].
    + simplify_eq. unfold significant. by rewrite Hp.
    + apply (Hskip k); [lia|done].
  - split; [lia|]. split; [intros; lia|].
    intros t' Ht'. simplify_eq. unfold significant. by rewrite Hp.
Qed.

Lemma forward_search_spec doc key td :
  td ≤ length doc →
  match forward_search (drop td doc) td key with
  | (td', Some t) =>
      ∃ k, td' = S k ∧ td ≤ k ∧ doc !! k = Some t ∧ candidate t key = true ∧
           ∀ j t', td ≤ j < k → doc !! j = Some t' → candidate t' key = false
  | (td', None) =>
      td' = length doc ∧
      ∀ j t', td ≤ j → doc !! j = Some t' → candidate t' key = false
  end.
Proof.
  remember (drop td doc) as rest eqn:Hrest. revert td Hrest.
  induction rest as [|t rest IH]; intros td Hrest Hle; simpl.
  { symmetry in Hrest. apply drop_nil_inv in Hrest. split; [lia|].
    intros j t' Hj Ht'. apply lookup_lt_Some in Ht'. lia. }
  symmetry in Hrest. apply drop_cons_inv in Hrest as [Ht Hrest].
  pose proof (lookup_lt_Some _ _ _ Ht) as Hlt.
  destruct (negb (t_is_punct t || t_is_space t) && token_matches t key) eqn:Hc.
  { exists td. repeat split; try done. intros; lia. }
  specialize (IH (S td) (eq_sym Hrest)).
  destruct (forward_search rest (S td) key) as [td' [t2|]].
  - destruct IH as (k & -> & Hk & Ht2 & Hc2 & Hnone); [lia|].
    exists k. repeat split; try done; [lia|].
    intros j t' Hj Ht'. destruct (decide (j = td)) as [->|Hne].
    + by simplify_eq.
    + apply (Hnone j); [lia|done].
  - destruct IH as (-> & Hnone); [lia|]. split; [done|].
    intros j t' Hj Ht'. destruct (decide (j = td)) as [->|Hne].
    + by simplify_eq.
    + apply (Hnone j); [lia|done].
Qed.

(** The alignment of a word that is not a special case. *)
Lemma align_word_spec doc tok w :
  tok ≤ length doc →
  ∃ cursor tok' found,
    skipped doc tok cursor ∧
    alignment doc (normalise (text_of w)) cursor tok' found ∧
    align_word doc tok (text_of w) w =
      (tok', match found with
             | Some t => fill_word_annotation w t
             | None => fallback_annotation w (normalise (text_of w))
             end).
Proof.
  intros Hle. pose proof (skip_punct_space_spec doc tok Hle) as Hskip.
  unfold align_word. simpl.
  set (cursor := skip_punct_space (drop tok doc) tok) in *.
  fold (normalise (text_of w)). set (key := normalise (text_of w)).
  exists cursor. unfold direct_match, token_matches.
  destruct (doc !! cursor) as [t0|] eqn:Ht0.
  - fold (normalise (t_text t0)).
    destruct (String.eqb_spec (normalise (t_text t0)) key) as [Heq|Hne].
    { exists (S cursor), (Some t0). split; [done|]. split; [|done].
      by apply align_direct. }
    rewrite search_or_fallback_eq.
    pose proof (forward_search_spec doc key cursor) as Hfs.
    destruct (forward_search (drop cursor doc) cursor key) as [td [t|]].
    + destruct Hfs as (k & -> & Hk & Ht & Hc & Hnone); [apply Hskip|].
      exists (S k), (Some t). split; [done|]. split; [|done].
      apply align_search; try done. intros t1 Ht1. by simplify_eq.
    + destruct Hfs as (-> & Hnone); [apply Hskip|].
      exists (length doc), None. split; [done|]. split; [|done].
      apply align_miss; [|done]. intros t1 Ht1. by simplify_eq.
  - rewrite search_or_fallback_eq.
    pose proof (forward_search_spec doc key cursor) as Hfs.
    destruct (forward_search (drop cursor doc) cursor key) as [td [t|]].
    + destruct Hfs as (k & -> & Hk & Ht & Hc & Hnone); [apply Hskip|].
      exists (S k), (Some t). split; [done|]. split; [|done].
      apply align_search; try done. intros t1 Ht1. congruence.
    + destruct Hfs as (-> & Hnone); [apply Hskip|].
      exists (length doc), None. split; [done|]. split; [|done].
      apply align_miss; [|done]. intros t1 Ht1. congruence.
Qed.

(** The cursor never moves back and never leaves the tagged unit. *)
Lemma annotate_word_cursor doc tok w tok' w' :
  has_text w = true → tok ≤ length doc →
  annotate_word doc tok w = Ok (tok', w') → tok ≤ tok' ≤ length doc.
Proof.
  intros Ht Hle. destruct (is_foreign w) eqn:Hf.
  { rewrite annotate_word_foreign by done. intros [= <- _]. lia. }
  rewrite annotate_word_text by done. simpl.
  destruct (endswith _ _); [intros [= <- _]; lia|].
  destruct (String.eqb _ _); [intros [= <- _]; lia|].
  destruct (align_word_spec doc tok w Hle)
    as (cursor & tok1 & found & (Hrange & _) & Halign & ->).
  intros [= <- _].
  destruct Halign as [t Ht0 _|td t _ Htd Ht0 _ _|_ _]; [| |lia];
    apply lookup_lt_Some in Ht0; lia.
Qed.

(** *** The aligner against the normalised texts *)

Lemma normalised_iff text key : normalised text key ↔ key = normalise text.
Proof. apply punctuation_stripped_iff. Qed.

Lemma candidate_iff t key :
  candidate t key = true ↔ significant t = true ∧ normalised (t_text t) key.
Proof.
  unfold candidate. rewrite andb_true_iff, String.eqb_eq, normalised_iff.
  split; intros [? ?]; split; congruence.
Qed.

Lemma candidate_false t key :
  candidate t key = false →
  ¬ (significant t = true ∧ normalised (t_text t) key).
Proof. intros Hc H%candidate_iff. congruence. Qed.

Lemma set_annotation_fields w pos lemma dep head (morph : gmap string string) :
  annotated_with w
    (set_annotation w (JStr pos) (JStr lemma) (JStr dep) (JStr head)
                    (JDict (JStr <$> morph)))
    pos lemma dep head morph.
Proof.
  unfold annotated_with, set_annotation.
  repeat split; try by simplify_map_eq.
  intros k ? ? ? ? ?. by rewrite !lookup_insert_ne.
Qed.

Lemma fill_word_annotation_fields w t :
  has_token_fields w (fill_word_annotation w t) t.
Proof.
  unfold has_token_fields. rewrite fill_word_annotation_eq.
  unfold head_text_of, morph_to_dict.
  destruct (t_head t); apply set_annotation_fields.
Qed.

Lemma empty_annotation_fields w lemma :
  annotated_with w (empty_annotation w lemma) "" lemma "" "" ∅.
Proof.
  rewrite empty_annotation_eq. rewrite <- (fmap_empty JStr) at 1.
  apply set_annotation_fields.
Qed.

Lemma fallback_annotation_fields w :
  fallback_fields (normalise (text_of w)) w
    (fallback_annotation w (normalise (text_of w))).
Proof.
  unfold fallback_fields, fallback_annotation.
  destruct (nlp _); [apply empty_annotation_fields|apply fill_word_annotation_fields].
Qed.

(** The step of the aligner on a word that is no special case. *)
Lemma align_word_step doc tok w :
  tok ≤ length doc →
  ∃ cursor tok' w',
    align_word doc tok (text_of w) w = (tok', w') ∧
    skipped doc tok cursor ∧
    aligner_step doc (normalise (text_of w)) cursor w tok' w' ∧
    tok' ≤ length doc.
Proof.
  intros Hle.
  destruct (align_word_spec doc tok w Hle)
    as (cursor & tok' & found & Hskip & Halign & Heq).
  exists cursor, tok'. eexists. split; [exact Heq|]. split; [done|].
  destruct Halign as [t Ht Hkey|td t Hdirect Htd Ht Hc Hnone|Hdirect Hnone].
  - split; [|apply lookup_lt_Some in Ht; lia].
    eapply step_direct; [done| |apply fill_word_annotation_fields].
    by apply normalised_iff.
  - split; [|apply lookup_lt_Some in Ht; lia].
    apply candidate_iff in Hc as [Hsig Hkey].
    eapply step_search; try done.
    + intros t0 Ht0 Hn%normalised_iff. by apply (Hdirect t0 Ht0).
    + intros k t' Hk Ht'. apply candidate_false. by apply (Hnone k).
    + apply fill_word_annotation_fields.
  - split; [|done]. apply step_miss.
    + intros t0 Ht0 Hn%normalised_iff. by apply (Hdirect t0 Ht0).
    + intros k t' Hk Ht'. apply candidate_false. by apply (Hnone k).
    + apply fallback_annotation_fields.
Qed.

(** *** Words without a morphology bag *)






(** *** From the processed word to its state *)

Lemma Forall2_with_left {A B : Type} (P : A → Prop) (R : A → B → Prop) l l' :
  Forall P l → Forall2 R l l' → Forall2 (λ x y, P x ∧ R x y) l l'.
Proof.
  intros HP HR. induction HR; [constructor|].
  apply Forall_cons in HP as [??]. constructor; auto.
Qed.

Lemma refines_None w w' k : refines w w' → w !! k = None → w' !! k = None.
Proof.
  intros Hr Hk. destruct (w' !! k) eqn:Hk'; [|done].
  assert (is_Some (w !! k)) as [? ?]; [|congruence].
  apply (refines_is_Some w w' k Hr). eauto.
Qed.

Lemma processed_outcome w_in w_out :
  has_text w_in = true → processed w_in w_out → annotation_outcome w_in w_out.
Proof.
  intros Ht (w1 & Hstep & _ & Hr).
  pose proof (annotated_step_outcome (clear_word w_in) w1) as Hout.
  rewrite clear_word_has_text in Hout.
  specialize (Hout Ht (clear_word_unannotated w_in) Hstep).
  unfold annotation_outcome, is_foreign, text_of in *.
  rewrite (clear_word_out w_in "foreign") in Hout by apply foreign_not_annotation.
  rewrite (clear_word_out w_in "text") in Hout by apply text_not_annotation.
  destruct (eq_str (w_in !! "foreign") "1").
  { intros k Hk. eapply refines_None; eauto. }
  destruct (endswith _ _).
  - destruct Hout as [Hpos Hnone]. split.
    + by rewrite (refines_lookup w1 w_out).
    + intros k Hk Hne. eapply refines_None; eauto.
  - intros k Hk. apply (refines_is_Some w1 w_out k Hr). by apply Hout.
Qed.

Lemma processed_same_word w_in w_out :
  has_text w_in = true → processed w_in w_out → same_word w_in w_out.
Proof.
  intros Ht (w1 & Hstep & _ & Hr). apply same_word_intro. intros k Hk.
  rewrite (refines_lookup w1 w_out) by (try done; intros ->;
    apply Hk, elem_annotation_keys; auto).
  rewrite (annotated_step_frame (clear_word w_in) w1 k); try done.
  - by apply clear_word_out.
  - by rewrite clear_word_has_text.
Qed.

Lemma processed_segments (P : word → word → Prop) segs segs' :
  (∀ w w', has_text w = true → processed w w' → P w w') →
  all_words has_text segs →
  Forall2 (λ s s', seg_fields s' = seg_fields s ∧
                   Forall2 processed (words s) (words s')) segs segs' →
  Forall2 (λ s s', seg_fields s' = seg_fields s ∧
                   Forall2 P (words s) (words s')) segs segs'.
Proof.
  intros HP Htext H.
  eapply Forall2_impl; [exact (Forall2_with_left _ _ _ _ Htext H)|]. simpl.
  intros s s' [Hs [Hf Hw]]. split; [done|].
  eapply Forall2_impl; [exact (Forall2_with_left _ _ _ _ Hs Hw)|]. simpl.
  intros w w' [? ?]. by apply HP.
Qed.

(* ===================================================================== *)
(** ** The claims about the annotation pipeline                             *)
(* ===================================================================== *)

(** C1 (amended).  On a transcript whose words all have a text, the pipeline
    returns, and every word of every segment ends in one of three states: a
    foreign-flagged word has none of the annotation fields; a word that is
    not foreign-flagged and whose text ends in "-" has the part-of-speech
    field, set to the self-correction marker, and none of lemma, dependency,
    head-word text and morphology; every other word has all four fields and
    the morphology bag. *)
Theorem annotation_outcome_of_every_word data :
  all_words has_text (segments data) →
  ∃ data', annotate_file data = Ok data' ∧
           Forall2 (λ s s', Forall2 annotation_outcome (words s) (words s'))
                   (segments data) (segments data').
Proof.
  intros Htext.
  destruct (annotate_file_spec data Htext) as (data' & Hrun & _ & Hproc).
  exists data'. split; [done|].
  eapply Forall2_impl.
  { exact (processed_segments annotation_outcome _ _ processed_outcome
             Htext Hproc). }
  simpl. by intros s s' [_ ?].
Qed.

(** C2.  On a transcript whose words all have a text, the pipeline returns a
    transcript with the same segments in the same order, and in every
    segment the same number of words, each at its position the input word
    up to the annotation fields: no word is added, removed, duplicated or
    reordered. *)
Theorem words_kept_in_order data :
  all_words has_text (segments data) →
  ∃ data', annotate_file data = Ok data' ∧
           data_fields data' = data_fields data ∧
           length (segments data') = length (segments data) ∧
           Forall2 (λ s s', seg_fields s' = seg_fields s ∧
                            length (words s') = length (words s) ∧
                            Forall2 same_word (words s) (words s'))
                   (segments data) (segments data').
Proof.
  intros Htext.
  destruct (annotate_file_spec data Htext) as (data' & Hrun & Hf & Hproc).
  exists data'. split; [done|]. split; [done|].
  pose proof (processed_segments same_word _ _ processed_same_word
                Htext Hproc) as Hsame.
  split; [symmetry; by eapply Forall2_length|].
  eapply Forall2_impl; [exact Hsame|]. simpl.
  intros s s' [? Hw]. split; [done|]. split; [|done].
  symmetry. by eapply Forall2_length.
Qed.

(** C3 (amended).  In a segment of well-typed words, a word whose Tense
    values contain "Past" is labelled by the tense classifier, called on the
    word or run over the segment, with [past_label]: PerfectoSimple when the
    VerbForm values contain "Fin"; else, when they contain "Part", the label
    of the haber lexicon that holds the case-folded head-word text, and when
    none holds it, PerfectoCompuesto if another word of the segment has pos
    AUX, "Pres" among its Tense values and a case-folded head-word text
    equal to the case-folded text of the participle, OtroCompuesto if not;
    else PastOther.  The label is written as the Past_Tense_Type entry of
    the word's morphology.  A participle with head-word text "había" is
    labelled Pluscuamperfecto, one with head-word text "ha"
    PerfectoCompuesto. *)
Theorem past_tense_label_assigned seg_words i w :
  Forall (λ w, well_typed w = true) seg_words →
  seg_words !! i = Some w →
  feature_has w "Tense" "Past" = true →
  classify_past_tense_form i w seg_words =
    Ok (set_past_tense_type w (past_label i w seg_words)) ∧
  (∃ seg_words',
      post_process_tenses_segment seg_words = Ok seg_words' ∧
      seg_words' !! i = Some (set_past_tense_type w (past_label i w seg_words))) ∧
  (∃ m, w !! "morph" = Some (JDict m) ∧
        ∀ label, set_past_tense_type w label =
                 <["morph" := JDict (<["Past_Tense_Type" := JStr label]> m)]> w) ∧
  (feature_has w "VerbForm" "Fin" = false →
   feature_has w "VerbForm" "Part" = true →
   (lower (head_of w) = "había" →
    past_label i w seg_words = "Pluscuamperfecto") ∧
   (lower (head_of w) = "ha" →
    past_label i w seg_words = "PerfectoCompuesto")).
Proof.
  intros Hwt Hw Hpast.
  pose proof (Forall_lookup_bool _ _ _ _ Hwt Hw) as Hwwt.
  assert (tense_expected seg_words i w =
          set_past_tense_type w (past_label i w seg_words)) as Hexp.
  { unfold tense_expected. by rewrite Hpast. }
  split.
  { by rewrite classify_past_tense_form_spec, Hexp. }
  split.
  { destruct (post_process_tenses_segment_spec seg_words Hwt)
      as (ws' & Hrun & _ & Hres).
    exists ws'. split; [done|]. by rewrite (Hres i w Hw), Hexp. }
  split.
  { unfold feature_has, feature_values in Hpast. unfold set_past_tense_type.
    destruct (w !! "morph") as [[| | | | |m]|]; try discriminate. by exists m. }
  intros Hfin Hpart. unfold past_label, past_label_for.
  rewrite Hfin, Hpart. split; by intros ->.
Qed.

(** The label of a window, spelled out. *)
Lemma analytic_future_label_Some w1 w2 w3 label :
  analytic_future_label w1 w2 w3 = Some label ↔
  eq_str (w1 !! "pos") "AUX" = true ∧ has_feature w1 "Tense" = true ∧
  lower (text_of w2) = "a" ∧ eq_str (w2 !! "pos") "ADP" = true ∧
  eq_str (w3 !! "pos") "VERB" = true ∧
  feature_has w3 "VerbForm" "Inf" = true ∧
  ((feature_has w1 "Tense" "Pres" = true ∧ label = "analyticalFuture") ∨
   (feature_has w1 "Tense" "Pres" = false ∧
    feature_has w1 "Tense" "Imp" = true ∧ label = "analyticalFuture_past")).
Proof.
  unfold analytic_future_label.
  destruct (eq_str (w1 !! "pos") "AUX"), (has_feature w1 "Tense"),
    (String.eqb_spec (lower (text_of w2)) "a"), (eq_str (w2 !! "pos") "ADP"),
    (eq_str (w3 !! "pos") "VERB"), (feature_has w3 "VerbForm" "Inf");
    simpl; try (split; [discriminate | intros (?&?&?&?&?&?&?); done]).
  destruct (feature_has w1 "Tense" "Pres"), (feature_has w1 "Tense" "Imp");
    split; try discriminate; try (intros [= <-]; tauto);
    intros (_&_&_&_&_&_&[[? ->]|[? [? ->]]]); done.
Qed.

(** C4.  On segments of well-typed words, the analytic-future detector
    returns, and in every segment: the first two words are left as they
    are; for every three consecutive words (w1, w2, w3) of the segment, w3
    receives the Future_Type entry with the label of the window when the
    window has one, and is left as it is when it has none.  The window has
    a label if and only if w1 has pos AUX and a Tense feature, the
    lower-cased text of w2 is "a" and its pos ADP, w3 has pos VERB and "Inf"
    among its VerbForm values, and the Tense values of w1 contain "Pres"
    (analyticalFuture) or else "Imp" (analyticalFuture_past).  Each segment
    is rewritten from its own words only. *)
Theorem analytic_future_detected segs :
  all_words well_typed segs →
  ∃ segs',
    post_process_compound_futures segs = Ok segs' ∧
    Forall2 (λ s s',
      seg_fields s' = seg_fields s ∧
      length (words s') = length (words s) ∧
      (∀ j w, j < 2 → words s !! j = Some w → words s' !! j = Some w) ∧
      (∀ i w1 w2 w3,
          words s !! i = Some w1 → words s !! (i + 1) = Some w2 →
          words s !! (i + 2) = Some w3 →
          words s' !! (i + 2) =
            Some (match analytic_future_label w1 w2 w3 with
                  | Some label => set_future_type w3 label
                  | None => w3
                  end) ∧
          ∀ label,
            analytic_future_label w1 w2 w3 = Some label ↔
            eq_str (w1 !! "pos") "AUX" = true ∧ has_feature w1 "Tense" = true ∧
            lower (text_of w2) = "a" ∧ eq_str (w2 !! "pos") "ADP" = true ∧
            eq_str (w3 !! "pos") "VERB" = true ∧
            feature_has w3 "VerbForm" "Inf" = true ∧
            ((feature_has w1 "Tense" "Pres" = true ∧
              label = "analyticalFuture") ∨
             (feature_has w1 "Tense" "Pres" = false ∧
              feature_has w1 "Tense" "Imp" = true ∧
              label = "analyticalFuture_past"))))
      segs segs'.
Proof.
  intros Hwt.
  destruct (post_process_compound_futures_spec segs Hwt) as (segs' & Hrun & H).
  exists segs'. split; [done|].
  eapply Forall2_impl; [exact H|]. simpl.
  intros s s' [Hf [Hlen Hres]]. split; [done|]. split; [done|]. split.
  - intros j w Hj Hw. rewrite (Hres j w Hw). by destruct j as [|[|j]]; [..|lia].
  - intros i w1 w2 w3 Hw1 Hw2 Hw3. split; [|apply analytic_future_label_Some].
    rewrite (Hres _ _ Hw3). replace (i + 2) with (S (S i)) by lia. simpl.
    replace (i + 1) with (S i) in Hw2 by lia. by rewrite Hw1, Hw2.
Qed.

(** C5.  For a word that is no special case (no foreign flag, no trailing
    hyphen, not the interjection), with the cursor inside the tagged unit, the
    loop body returns, and: the cursor first moves past the tokens flagged as
    punctuation or white space; then, for the normalised text of the word
    (lower case, the characters of PUNCT_CHARS cut off at both ends), either
    the token at the cursor has that normalised text, the word gets its part
    of speech, lemma, dependency label, head text and morphology, and the
    cursor advances by one; or the first token from the cursor on that is
    neither punctuation nor white space and has that normalised text gives
    its fields, and the cursor moves just past it; or there is no such token,
    the cursor ends at the end of the tagged unit, and the word gets the
    fallback annotation. *)
Theorem aligner_moves_cursor doc tok w :
  is_foreign w = false → has_text w = true →
  endswith (text_of w) "-" = false →
  String.eqb (lower (text_of w)) "eeh" = false →
  tok ≤ length doc →
  ∃ cursor key tok' w',
    annotate_word doc tok w = Ok (tok', w') ∧
    skipped doc tok cursor ∧
    normalised (text_of w) key ∧
    aligner_step doc key cursor w tok' w' ∧
    tok' ≤ length doc.
Proof.
  intros Hf Ht Hdash Heeh Hle.
  destruct (align_word_step doc tok w Hle)
    as (cursor & tok' & w' & Heq & Hskip & Hstep & Hin).
  exists cursor, (normalise (text_of w)), tok', w'.
  split; [|split; [done|split; [|by split]]].
  - rewrite annotate_word_text by done. simpl. by rewrite Hdash, Heeh, Heq.
  - by apply normalised_iff.
Qed.

(** C6 (amended).  For a word that is no special case, when no token of the
    tagged unit from the cursor on is neither punctuation nor white space and
    has the normalised text of the word (so that neither the direct match nor
    the forward search finds a token), the loop body returns without an
    exception, with the cursor at the end of the tagged unit; the word gets
    the fields of the first token of the tagger run on its normalised text
    alone, or, when that run gives no token, the empty annotation: part of
    speech empty, lemma equal to the normalised text of the word, and empty
    dependency label, head text and morphology. *)
Theorem fallback_always_annotates doc tok w key :
  is_foreign w = false → has_text w = true →
  endswith (text_of w) "-" = false →
  String.eqb (lower (text_of w)) "eeh" = false →
  tok ≤ length doc →
  normalised (text_of w) key →
  (∀ k t, tok ≤ k → doc !! k = Some t → significant t = true →
          ¬ normalised (t_text t) key) →
  ∃ w', annotate_word doc tok w = Ok (length doc, w') ∧
        match nlp key with
        | t :: _ => has_token_fields w w' t
        | [] => annotated_with w w' "" key "" "" ∅
        end.
Proof.
  intros Hf Ht Hdash Heeh Hle Hkey Hnone. apply normalised_iff in Hkey as ->.
  destruct (align_word_step doc tok w Hle)
    as (cursor & tok' & w' & Heq & (Hrange & _ & Hsig) & Hstep & _).
  rewrite annotate_word_text by done. simpl. rewrite Hdash, Heeh, Heq.
  destruct Hstep as [t w' Ht0 Hn _|td t w' _ Htd Ht0 Hs Hn _ _|w' _ _ Hfb].
  - destruct (Hnone cursor t); [lia|done|by apply Hsig|done].
  - destruct (Hnone td t); [lia|done|done|done].
  - by exists w'.
Qed.



(** C10.  The special cases are tested in a fixed order, and none of them
    moves the cursor: a foreign-flagged word is left as it is, whatever its
    text; a word that is not foreign-flagged and whose text ends in "-" gets
    the part-of-speech self-correction and nothing else, whatever the rest
    of its text; a word that is neither, and whose lower-cased text is
    "eeh", gets pos INTJ, its own text as lemma, and empty dependency,
    head-word text and morphology. *)
Theorem special_cases_in_order doc tok w txt :
  (is_foreign w = true → annotate_word doc tok w = Ok (tok, w)) ∧
  (is_foreign w = false →
   as_str (dict_get w "text" (JStr "")) = Ok txt →
   (endswith txt "-" = true →
    annotate_word doc tok w = Ok (tok, <["pos" := JStr "self-correction"]> w)) ∧
   (endswith txt "-" = false → lower txt = "eeh" →
    annotate_word doc tok w =
      Ok (tok, <["morph" := JDict ∅]> (<["head_text" := JStr ""]>
               (<["dep" := JStr ""]> (<["lemma" := JStr txt]>
               (<["pos" := JStr "INTJ"]> w))))))).
Proof.
  split; [apply annotate_word_foreign|].
  intros Hf Htxt. unfold annotate_word. unfold is_foreign in Hf.
  rewrite Hf, Htxt. simpl. split.
  - by intros ->.
  - intros -> ->. done.
Qed.

(* ===================================================================== *)
(** ** Further properties of the annotation pipeline                        *)
(* ===================================================================== *)

(** *** Sentence segmentation *)

Lemma text_is_string_as_str w :
  text_is_string w = true →
  as_str (dict_get w "text" (JStr "")) = Ok (text_of w).
Proof.
  unfold text_is_string, dict_get, text_of.
  by destruct (w !! "text") as [[]|].
Qed.

Lemma text_not_string_as_str w :
  text_is_string w = false →
  as_str (dict_get w "text" (JStr "")) = Raise AttributeError.
Proof.
  unfold text_is_string, dict_get.
  by destruct (w !! "text") as [[]|].
Qed.

Lemma split_loop_raises ws sentences cur :
  forallb text_is_string ws.*2 = false →
  split_loop ws sentences cur = Raise AttributeError.
Proof.
  revert sentences cur. induction ws as [|[r w] ws IH]; intros sentences cur;
    simpl; [done|].
  destruct (text_is_string w) eqn:Hw; simpl.
  - intros Hws. rewrite (text_is_string_as_str w Hw). simpl.
    destruct (negb _ && _); by apply IH.
  - intros _. by rewrite (text_not_string_as_str w Hw).
Qed.

Lemma split_loop_shape wl ws sentences cur :
  forallb text_is_string ws.*2 = true →
  Forall (λ p, wl !! p.1 = Some p.2) ws →
  Forall (λ j, ∀ w, wl !! j = Some w → closes_sentence w = false) cur →
  ∃ new,
    split_loop ws sentences cur = Ok (sentences ++ new) ∧
    concat new = cur ++ ws.*1 ∧
    well_cut wl new.
Proof.
  revert sentences cur. induction ws as [|[r w] ws IH];
    intros sentences cur Htext Hrefs Hcur; simpl.
  { destruct cur as [|c cur'].
    - exists []. rewrite app_nil_r. split; [done|]. split; [done|].
      intros k s Hs. by rewrite lookup_nil in Hs.
    - exists [c :: cur']. split; [done|].
      split; [simpl; by rewrite !app_nil_r|].
      intros k s Hs. destruct k as [|k]; [|by rewrite lookup_cons, lookup_nil in Hs].
      simpl in Hs. simplify_eq.
      destruct (exists_last (l := c :: cur')) as (init & r & Heq); [done|].
      exists init, r. split; [done|]. split.
      + rewrite Heq in Hcur. by apply Forall_app in Hcur as [? _].
      + simpl. lia. }
  simpl in Htext. apply andb_prop in Htext as [Hw Htext].
  apply Forall_cons in Hrefs as [Hr Hrefs]. simpl in Hr.
  rewrite (text_is_string_as_str w Hw). simpl.
  destruct (closes_sentence w) eqn:Hclose;
    pose proof Hclose as Hcond; unfold closes_sentence in Hcond;
    simpl in Hcond; rewrite Hcond.
  - destruct (IH (sentences ++ [cur ++ [r]]) [] Htext Hrefs) as (new & Hrun & Hcat & Hcut).
    { constructor. }
    exists ((cur ++ [r]) :: new). split.
    { rewrite Hrun. by rewrite <- app_assoc. }
    split; [simpl; rewrite Hcat; by rewrite <- app_assoc|].
    intros k s Hs. destruct k as [|k]; simpl in Hs.
    + simplify_eq. exists cur, r. split; [done|]. split; [done|].
      intros _ w' Hw'. by simplify_eq.
    + destruct (Hcut k s Hs) as (init & r' & Heq & Hinit & Hlast).
      exists init, r'. split; [done|]. split; [done|].
      simpl. intros Hk. apply Hlast. lia.
  - destruct (IH sentences (cur ++ [r]) Htext Hrefs) as (new & Hrun & Hcat & Hcut).
    { apply Forall_app. split; [done|]. constructor; [|constructor].
      intros w' Hw'. by simplify_eq. }
    exists new. split; [done|]. split; [|done].
    rewrite Hcat. by rewrite <- app_assoc.
Qed.

Lemma enumerate_from_refs {A : Type} (pre l : list A) :
  Forall (λ p, (pre ++ l) !! p.1 = Some p.2) (enumerate_from (length pre) l).
Proof.
  revert pre. induction l as [|x l IH]; intros pre; simpl; [constructor|].
  constructor.
  - simpl. by rewrite list_lookup_middle.
  - specialize (IH (pre ++ [x])). rewrite length_app in IH. simpl in IH.
    rewrite <- app_assoc in IH. simpl in IH.
    by replace (length pre + 1) with (S (length pre)) in IH by lia.
Qed.

(** X1.  On a segment whose words have a string for a text (or no text),
    the sentence segmenter returns; its sentences, read one after the other,
    are the words of the segment, each exactly once and in order; no
    sentence is empty; inside a sentence only the last word can close it,
    and the last word of every sentence but the final one does close it. *)
Theorem sentences_partition_segment words_list :
  forallb text_is_string words_list = true →
  ∃ sl, split_into_sentences words_list = Ok sl ∧
        concat sl = seq 0 (length words_list) ∧
        Forall (λ s, s ≠ []) sl ∧
        well_cut words_list sl.
Proof.
  intros Htext. unfold split_into_sentences, enumerate.
  destruct (split_loop_shape words_list (enumerate_from 0 words_list) [] [])
    as (sl & Hrun & Hcat & Hcut).
  { by rewrite enumerate_from_snd. }
  { apply (enumerate_from_refs [] words_list). }
  { constructor. }
  exists sl. split; [done|]. split.
  { by rewrite Hcat, enumerate_from_fst. }
  split; [|done].
  apply Forall_lookup. intros k s Hs.
  destruct (Hcut k s Hs) as (init & r & -> & _). by destruct init.
Qed.

Lemma forallb_false_elem {A : Type} (f : A → bool) (l : list A) :
  forallb f l = false → ∃ x, x ∈ l ∧ f x = false.
Proof.
  induction l as [|x l IH]; simpl; [done|].
  destruct (f x) eqn:Hx; simpl.
  - intros (y & Hy & Hfy)%IH. exists y. split; [by right|done].
  - intros _. exists x. split; [by left|done].
Qed.

(** X2.  The sentence segmenter raises AttributeError exactly when some
    word of the segment has a text that is not a string; a missing text
    reads as the empty string and raises nothing. *)
Theorem segmenter_raises_on_text_that_is_no_string words_list :
  split_into_sentences words_list = Raise AttributeError ↔
  ∃ w, w ∈ words_list ∧ ∃ v, w !! "text" = Some v ∧ ∀ s, v ≠ JStr s.
Proof.
  assert (∀ w, text_is_string w = false ↔
               ∃ v, w !! "text" = Some v ∧ ∀ s, v ≠ JStr s) as Hchar.
  { intros w. unfold text_is_string. split.
    - destruct (w !! "text") as [[]|]; try discriminate; eauto.
    - intros (v & -> & Hv). destruct v; try done. by destruct (Hv s). }
  destruct (forallb text_is_string words_list) eqn:Hall.
  - destruct (split_loop_shape words_list (enumerate_from 0 words_list) [] [])
      as (sl & Hrun & _).
    { by rewrite enumerate_from_snd. }
    { apply (enumerate_from_refs [] words_list). }
    { constructor. }
    unfold split_into_sentences, enumerate. rewrite Hrun. split; [done|].
    intros (w & Hw & Hbad). apply Hchar in Hbad.
    rewrite forallb_forall in Hall. rewrite Hall in Hbad; [done|].
    by apply list_elem_of_In.
  - split; [|intros _].
    + intros _. destruct (forallb_false_elem _ _ Hall) as (w & Hw & Hbad).
      exists w. split; [done|]. by apply Hchar.
    + unfold split_into_sentences, enumerate. apply split_loop_raises.
      by rewrite enumerate_from_snd.
Qed.

(** *** Running the pipeline again *)

Lemma same_words_clear ws ws' :
  Forall2 same_word ws ws' → clear_word <$> ws' = clear_word <$> ws.
Proof.
  induction 1 as [|w w' ws ws' Hw _ IH]; [done|].
  rewrite !fmap_cons, IH. f_equal. exact Hw.
Qed.

Lemma same_segments_clear segs segs' :
  Forall2 (λ s s', seg_fields s' = seg_fields s ∧
                   Forall2 same_word (words s) (words s')) segs segs' →
  clear_annotations segs' = clear_annotations segs.
Proof.
  unfold clear_annotations.
  induction 1 as [|s s' segs segs' [Hf Hw] _ IH]; [done|].
  rewrite !fmap_cons, IH, Hf. do 2 f_equal. by apply same_words_clear.
Qed.

Lemma already_annotated_has_words segs :
  already_annotated segs = true → 0 < sum_list (length ∘ words <$> segs).
Proof.
  intros (s & w & Hs & Hw & _)%already_annotated_iff.
  induction Hs as [|? ? ? ? IH]; rewrite fmap_cons; simpl.
  - destruct (words _); [by apply elem_of_nil in Hw|simpl; lia].
  - specialize (IH Hw). lia.
Qed.

Lemma processed_words_in_file segs segs' :
  Forall2 (λ s s', seg_fields s' = seg_fields s ∧
                   Forall2 processed (words s) (words s')) segs segs' →
  sum_list (length ∘ words <$> segs') = sum_list (length ∘ words <$> segs).
Proof.
  induction 1 as [|s s' segs segs' [_ Hw] _ IH]; [done|].
  rewrite !fmap_cons. simpl. by rewrite IH, (Forall2_length _ _ _ Hw).
Qed.

(** X3.  On a transcript whose words all have a text, the pipeline returns
    a record that a second run of [main] on this record alone leaves stored
    as it is, with or without overwriting: the record is skipped, or it is
    cleared and annotated again into the very same record.  The second run
    ends with ZeroDivisionError when the transcript has no word, and without
    an exception otherwise. *)
Theorem second_run_changes_nothing data :
  all_words has_text (segments data) →
  ∃ data', annotate_file data = Ok data' ∧
           ∀ overwrite_existing,
             main overwrite_existing [data'] =
               ([data'], if Nat.eqb (words_in_file data) 0
                         then Some ZeroDivisionError else None).
Proof.
  intros Htext.
  destruct (annotate_file_spec data Htext) as (data' & Hrun & Hf & Hproc).
  exists data'. split; [done|].
  assert (annotate_file data' = Ok data') as Hagain.
  { rewrite <- Hrun. unfold annotate_file. rewrite Hf. f_equal.
    apply same_segments_clear.
    exact (processed_segments same_word _ _ processed_same_word Htext Hproc). }
  assert (words_in_file data' = words_in_file data) as Hwords.
  { by apply processed_words_in_file. }
  intros b. unfold main. cbn [total_words_to_annotate process_files].
  destruct (is_filtered b data') eqn:Hfilt.
  - rewrite Hagain, Nat.add_0_r, Hwords. unfold file_finished_message.
    by destruct (Nat.eqb (words_in_file data) 0).
  - unfold is_filtered in Hfilt. apply negb_false_iff, andb_prop in Hfilt as [_ Hann].
    apply already_annotated_has_words in Hann. fold (words_in_file data') in Hann.
    rewrite Hwords in Hann.
    destruct (Nat.eqb_spec (words_in_file data) 0); [lia|done].
Qed.

(** X4.  On a transcript whose words all have a text, the record the
    pipeline returns counts as already annotated exactly when the transcript
    has a word that is not foreign-flagged: a transcript of foreign-flagged
    words only (or without words) is annotated again by every later run. *)
Theorem result_is_annotated_iff_some_word_not_foreign data :
  all_words has_text (segments data) →
  ∃ data', annotate_file data = Ok data' ∧
           (already_annotated (segments data') = true ↔
            ∃ s w, s ∈ segments data ∧ w ∈ words s ∧ is_foreign w = false).
Proof.
  intros Htext.
  destruct (annotate_file_spec data Htext) as (data' & Hrun & _ & Hproc).
  exists data'. split; [done|].
  pose proof (processed_segments annotation_outcome _ _ processed_outcome
                Htext Hproc) as Hout.
  assert ("pos" ∈ annotation_keys) as Hpos by (apply elem_annotation_keys; auto).
  assert ("morph" ∈ annotation_keys) as Hmorph
    by (apply elem_annotation_keys; auto 10).
  rewrite already_annotated_iff. split.
  - intros (s' & w' & Hs' & Hw' & Hany).
    apply list_elem_of_lookup in Hs' as [i Hs'].
    apply list_elem_of_lookup in Hw' as [j Hw'].
    destruct (Forall2_lookup_r _ _ _ _ _ Hout Hs') as (s & Hs & _ & Hws).
    destruct (Forall2_lookup_r _ _ _ _ _ Hws Hw') as (w & Hw & Hw_out).
    exists s, w. split; [by eapply list_elem_of_lookup_2|].
    split; [by eapply list_elem_of_lookup_2|].
    unfold annotation_outcome in Hw_out.
    destruct (is_foreign w); [|done].
    destruct Hany as [[v Hv]|[v Hv]].
    + by rewrite (Hw_out "pos" Hpos) in Hv.
    + by rewrite (Hw_out "morph" Hmorph) in Hv.
  - intros (s & w & Hs & Hw & Hforeign).
    apply list_elem_of_lookup in Hs as [i Hs].
    apply list_elem_of_lookup in Hw as [j Hw].
    destruct (Forall2_lookup_l _ _ _ _ _ Hout Hs) as (s' & Hs' & _ & Hws).
    destruct (Forall2_lookup_l _ _ _ _ _ Hws Hw) as (w' & Hw' & Hw_out).
    exists s', w'. split; [by eapply list_elem_of_lookup_2|].
    split; [by eapply list_elem_of_lookup_2|]. left.
    unfold annotation_outcome in Hw_out. rewrite Hforeign in Hw_out.
    destruct (endswith _ _).
    + destruct Hw_out as [-> _]. eauto.
    + by apply Hw_out.
Qed.

(** *** What the post-processing keeps *)

(** X5.  On a segment of well-typed words, the tense classifier followed by
    the future detector returns a segment of the same length in which every
    word keeps all its fields but the morphology bag, and the morphology bag
    keeps all its entries but Past_Tense_Type and Future_Type; a word
    without a morphology bag stays without one. *)
Theorem post_processing_only_adds_synthetic_entries ws :
  Forall (λ w, well_typed w = true) ws →
  ∃ ws1 ws2,
    post_process_tenses_segment ws = Ok ws1 ∧
    post_process_futures_segment ws1 = Ok ws2 ∧
    length ws2 = length ws ∧
    ∀ i w w', ws !! i = Some w → ws2 !! i = Some w' →
      (∀ k, k ≠ "morph" → w' !! k = w !! k) ∧
      match w !! "morph" with
      | Some (JDict m) =>
          ∃ m', w' !! "morph" = Some (JDict m') ∧
                ∀ k, k ≠ "Past_Tense_Type" → k ≠ "Future_Type" →
                     m' !! k = m !! k
      | o => w' !! "morph" = o
      end.
Proof.
  intros Hwt.
  destruct (post_process_tenses_segment_spec ws Hwt) as (ws1 & Hrun1 & Hlen1 & H1).
  pose proof (tenses_result_refines ws ws1 (conj Hlen1 H1)) as Hr1.
  pose proof (refines_Forall_well_typed _ _ Hr1 Hwt) as Hwt1.
  destruct (post_process_futures_segment_spec ws1 Hwt1) as (ws2 & Hrun2 & Hlen2 & H2).
  pose proof (futures_result_refines ws1 ws2 (conj Hlen2 H2)) as Hr2.
  exists ws1, ws2. split; [done|]. split; [done|]. split; [congruence|].
  intros i w w' Hw Hw'.
  destruct (Forall2_lookup_l _ _ _ _ _ Hr1 Hw) as (w1 & Hw1 & Hrw1).
  pose proof (Forall2_lookup_lr _ _ _ _ _ _ Hr2 Hw1 Hw') as Hrw2.
  exact (refines_trans _ _ _ Hrw1 Hrw2).
Qed.

(** *** Running a post-processing pass again *)

Lemma refines_past_label_word i w w' ws :
  refines w w' → past_label i w' ws = past_label i w ws.
Proof.
  intros Hr. unfold past_label, past_label_for.
  by rewrite !(refines_feature_has w w'), (refines_head w w'),
    (refines_text w w').
Qed.

Lemma set_past_tense_type_twice w label :
  set_past_tense_type (set_past_tense_type w label) label =
  set_past_tense_type w label.
Proof.
  unfold set_past_tense_type at 1. unfold set_past_tense_type at 1.
  rewrite lookup_insert_eq. unfold set_past_tense_type.
  by rewrite !insert_insert_eq.
Qed.

Lemma set_future_type_twice w label :
  set_future_type (set_future_type w label) label = set_future_type w label.
Proof.
  unfold set_future_type at 1. unfold set_future_type at 1.
  rewrite lookup_insert_eq. unfold set_future_type.
  by rewrite !insert_insert_eq.
Qed.

Lemma tense_expected_twice ws ws' i w :
  Forall2 refines ws ws' →
  tense_expected ws' i (tense_expected ws i w) = tense_expected ws i w.
Proof.
  intros Hr. pose proof (refines_tense_expected ws i w) as Hw.
  unfold tense_expected at 1.
  rewrite (refines_feature_has w _ "Tense" "Past" Hw) by done.
  rewrite (refines_past_label_word i w _ ws' Hw), (refines_past_label i w ws ws' Hr).
  unfold tense_expected. destruct (feature_has w "Tense" "Past"); [|done].
  apply set_past_tense_type_twice.
Qed.

(** X6.  On a segment of well-typed words the tense classifier returns a
    segment on which it changes nothing when it is run again. *)
Theorem tense_classifier_idempotent ws :
  Forall (λ w, well_typed w = true) ws →
  ∃ ws', post_process_tenses_segment ws = Ok ws' ∧
         post_process_tenses_segment ws' = Ok ws'.
Proof.
  intros Hwt.
  destruct (post_process_tenses_segment_spec ws Hwt) as (ws1 & Hrun1 & Hlen1 & H1).
  pose proof (tenses_result_refines ws ws1 (conj Hlen1 H1)) as Hr1.
  pose proof (refines_Forall_well_typed _ _ Hr1 Hwt) as Hwt1.
  destruct (post_process_tenses_segment_spec ws1 Hwt1) as (ws2 & Hrun2 & Hlen2 & H2).
  exists ws1. split; [done|]. rewrite Hrun2. f_equal.
  apply list_eq_same_length with (length ws1); [done..|].
  intros i w2 w1 _ Hw2 Hw1.
  destruct (lookup_lt_is_Some_2 ws i) as [w Hw].
  { rewrite <- Hlen1. by eapply lookup_lt_Some. }
  rewrite (H1 i w Hw) in Hw1. simplify_eq.
  rewrite (H2 i _ (H1 i w Hw)) in Hw2. simplify_eq.
  by apply tense_expected_twice.
Qed.

Lemma refines_analytic_future_label_third w1 w2 w3 w3' :
  refines w3 w3' →
  analytic_future_label w1 w2 w3' = analytic_future_label w1 w2 w3.
Proof.
  intros Hr. unfold analytic_future_label.
  by rewrite (refines_lookup w3 w3'), (refines_feature_has w3 w3').
Qed.

Lemma future_expected_twice ws ws' j w :
  Forall2 refines ws ws' →
  future_expected ws' j (future_expected ws j w) = future_expected ws j w.
Proof.
  intros Hr. pose proof (refines_future_expected ws j w) as Hw.
  destruct j as [|[|i]]; try done. simpl in *.
  destruct (ws !! i) as [w1|] eqn:Hw1.
  2:{ apply (Forall2_length) in Hr as Hlen.
      apply lookup_ge_None in Hw1.
      assert (ws' !! i = None) as -> by (apply lookup_ge_None; lia). done. }
  destruct (Forall2_lookup_l _ _ _ _ _ Hr Hw1) as (w1' & -> & Hr1).
  destruct (ws !! S i) as [w2|] eqn:Hw2.
  2:{ apply (Forall2_length) in Hr as Hlen.
      apply lookup_ge_None in Hw2.
      assert (ws' !! S i = None) as -> by (apply lookup_ge_None; lia). done. }
  destruct (Forall2_lookup_l _ _ _ _ _ Hr Hw2) as (w2' & -> & Hr2).
  rewrite (refines_analytic_future_label_third w1' w2' w _ Hw),
    (refines_analytic_future_label w1 w1' w2 w2') by done.
  destruct (analytic_future_label w1 w2 w); [|done].
  apply set_future_type_twice.
Qed.

(** X7.  On a segment of well-typed words the future detector returns a
    segment on which it changes nothing when it is run again. *)
Theorem future_detector_idempotent ws :
  Forall (λ w, well_typed w = true) ws →
  ∃ ws', post_process_futures_segment ws = Ok ws' ∧
         post_process_futures_segment ws' = Ok ws'.
Proof.
  intros Hwt.
  destruct (post_process_futures_segment_spec ws Hwt) as (ws1 & Hrun1 & Hlen1 & H1).
  pose proof (futures_result_refines ws ws1 (conj Hlen1 H1)) as Hr1.
  pose proof (refines_Forall_well_typed _ _ Hr1 Hwt) as Hwt1.
  destruct (post_process_futures_segment_spec ws1 Hwt1) as (ws2 & Hrun2 & Hlen2 & H2).
  exists ws1. split; [done|]. rewrite Hrun2. f_equal.
  apply list_eq_same_length with (length ws1); [done..|].
  intros i w2 w1 _ Hw2 Hw1.
  destruct (lookup_lt_is_Some_2 ws i) as [w Hw].
  { rewrite <- Hlen1. by eapply lookup_lt_Some. }
  rewrite (H1 i w Hw) in Hw1. simplify_eq.
  rewrite (H2 i _ (H1 i w Hw)) in Hw2. simplify_eq.
  by apply future_expected_twice.
Qed.

(** *** The cursor *)

(** X8.  On a word with a text and a cursor inside the tagged unit, the
    loop body returns, and the new cursor is not before the old one and
    still inside the tagged unit, whichever branch the word takes. *)
Theorem cursor_moves_forward_inside_doc doc tok w :
  has_text w = true → tok ≤ length doc →
  ∃ tok' w', annotate_word doc tok w = Ok (tok', w') ∧ tok ≤ tok' ≤ length doc.
Proof.
  intros Ht Hle. destruct (annotate_word_total doc tok w Ht) as [[tok' w'] Hrun].
  exists tok', w'. split; [done|]. by eapply annotate_word_cursor.
Qed.

End Pipeline.

(* ===================================================================== *)
(** ** The pipeline at concrete inputs                                      *)
(* ===================================================================== *)

(** C1, as the specification words it, fails on a self-interrupted word:
    the pipeline sets its part-of-speech and nothing else, and the word is
    not foreign-flagged. *)
Lemma self_interrupted_word_partially_annotated :
  annotate_file lower_latin strip_spaces nlp_silent interrupted_transcript =
    Ok interrupted_result ∧
  ¬ full_or_foreign (word_of_text "tu-")
      (<["pos" := JStr "self-correction"]> (word_of_text "tu-")).
Proof.
  split; [by vm_compute|].
  intros [Hfull|[Hforeign _]]; [|by vm_compute in Hforeign].
  assert ("lemma" ∈ annotation_keys) as Hk
    by (unfold annotation_keys; rewrite !elem_of_cons; auto).
  destruct (Hfull "lemma" Hk) as [v Hv]. by vm_compute in Hv.
Qed.

Lemma annotation_outcome_of_every_word_witness :
  all_words has_text (segments interrupted_transcript) ∧
  ∃ data',
    annotate_file lower_latin strip_spaces nlp_silent interrupted_transcript =
      Ok data' ∧
    Forall2 (λ s s', Forall2 annotation_outcome (words s) (words s'))
            (segments interrupted_transcript) (segments data').
Proof.
  assert (all_words has_text (segments interrupted_transcript)) as H
    by (repeat constructor).
  split; [exact H|].
  exact (annotation_outcome_of_every_word lower_latin strip_spaces nlp_silent
           interrupted_transcript H).
Defined.

Lemma words_kept_in_order_witness :
  all_words has_text (segments demo_transcript) ∧
  ∃ data',
    annotate_file lower_latin strip_spaces nlp_demo demo_transcript = Ok data' ∧
    data_fields data' = data_fields demo_transcript ∧
    length (segments data') = length (segments demo_transcript) ∧
    Forall2 (λ s s', seg_fields s' = seg_fields s ∧
                     length (words s') = length (words s) ∧
                     Forall2 same_word (words s) (words s'))
            (segments demo_transcript) (segments data').
Proof.
  assert (all_words has_text (segments demo_transcript)) as H
    by (repeat constructor).
  split; [exact H|].
  exact (words_kept_in_order lower_latin strip_spaces nlp_demo
           demo_transcript H).
Defined.

(** C3, as the specification words it, fails on a participle written with a
    capital: the auxiliary's head-word text "comido" is not the participle's
    text "Comido", so the decision order as worded ends in OtroCompuesto,
    while the classifier, which case-folds both, labels PerfectoCompuesto. *)
Lemma capitalised_participle_label :
  classify_past_tense_form lower_latin 1 word_Comido [word_ha; word_Comido] =
    Ok (set_past_tense_type word_Comido "PerfectoCompuesto") ∧
  past_label_verbatim lower_latin 1 word_Comido [word_ha; word_Comido] =
    "OtroCompuesto".
Proof. split; by vm_compute. Qed.

Lemma past_tense_label_assigned_witness :
  Forall (λ w, well_typed w = true) [word_habia; word_comido] ∧
  [word_habia; word_comido] !! 1 = Some word_comido ∧
  feature_has word_comido "Tense" "Past" = true ∧
  classify_past_tense_form lower_latin 1 word_comido [word_habia; word_comido] =
    Ok (set_past_tense_type word_comido
          (past_label lower_latin 1 word_comido [word_habia; word_comido])) ∧
  past_label lower_latin 1 word_comido [word_habia; word_comido] =
    "Pluscuamperfecto".
Proof.
  assert (Forall (λ w, well_typed w = true) [word_habia; word_comido]) as H1
    by (repeat constructor).
  assert ([word_habia; word_comido] !! 1 = Some word_comido) as H2
    by reflexivity.
  assert (feature_has word_comido "Tense" "Past" = true) as H3 by reflexivity.
  split; [exact H1|]. split; [exact H2|]. split; [exact H3|].
  split; [|reflexivity].
  exact (proj1 (past_tense_label_assigned lower_latin
                  [word_habia; word_comido] 1 word_comido H1 H2 H3)).
Defined.

Lemma analytic_future_detected_witness :
  all_words well_typed future_segments ∧
  (∃ segs', post_process_compound_futures lower_latin future_segments = Ok segs') ∧
  analytic_future_label lower_latin word_va word_a word_llover =
    Some "analyticalFuture".
Proof.
  assert (all_words well_typed future_segments) as H by (repeat constructor).
  split; [exact H|]. split; [|reflexivity].
  destruct (analytic_future_detected lower_latin future_segments H)
    as (segs' & Hrun & _).
  exists segs'. exact Hrun.
Defined.

Lemma aligner_moves_cursor_witness :
  is_foreign (word_of_text "a") = false ∧
  has_text (word_of_text "a") = true ∧
  endswith (text_of (word_of_text "a")) "-" = false ∧
  String.eqb (lower_latin (text_of (word_of_text "a"))) "eeh" = false ∧
  1 ≤ length demo_doc ∧
  ∃ cursor key tok' w',
    annotate_word lower_latin nlp_demo demo_doc 1 (word_of_text "a") =
      Ok (tok', w') ∧
    skipped demo_doc 1 cursor ∧
    normalised lower_latin (text_of (word_of_text "a")) key ∧
    aligner_step lower_latin nlp_demo demo_doc key cursor (word_of_text "a")
      tok' w' ∧
    tok' ≤ length demo_doc.
Proof.
  assert (1 ≤ length demo_doc) as Hle by (vm_compute; lia).
  repeat (split; [first [reflexivity | exact Hle]|]).
  exact (aligner_moves_cursor lower_latin nlp_demo demo_doc 1 (word_of_text "a")
           eq_refl eq_refl eq_refl eq_refl Hle).
Defined.

(** C6, as the specification words it, fails on the empty annotation.  The
    word is a comma; its normalised text is empty, the tagged unit holds the
    comma as a punctuation token only, and the tagger gives no token for the
    empty text: the lemma of the word is the empty text, not the original
    text. *)
Lemma punctuation_word_gets_empty_lemma :
  nlp_words "," = [Token "," true false "PUNCT" "," "ROOT" (Some ",") ∅] ∧
  strip_punct (lower_latin ",") = "" ∧
  nlp_words "" = [] ∧
  annotate_word lower_latin nlp_words (nlp_words ",") 0 (word_of_text ",") =
    Ok (1, <["morph" := JDict ∅]> (<["head_text" := JStr ""]>
           (<["dep" := JStr ""]> (<["lemma" := JStr ""]>
           (<["pos" := JStr ""]> (word_of_text ",")))))) ∧
  annotate_file lower_latin strip_spaces nlp_words comma_transcript =
    Ok comma_result ∧
  text_of (word_of_text ",") = "," ∧
  "" ≠ ",".
Proof. repeat split; by vm_compute. Qed.

Lemma fallback_always_annotates_witness :
  (is_foreign (word_of_text "Hola,") = false ∧
   has_text (word_of_text "Hola,") = true ∧
   endswith (text_of (word_of_text "Hola,")) "-" = false ∧
   String.eqb (lower_latin (text_of (word_of_text "Hola,"))) "eeh" = false ∧
   0 ≤ length demo_doc ∧
   normalised lower_latin (text_of (word_of_text "Hola,")) "hola" ∧
   (∀ k t, 0 ≤ k → demo_doc !! k = Some t → significant t = true →
           ¬ normalised lower_latin (t_text t) "hola") ∧
   ∃ w', annotate_word lower_latin nlp_words demo_doc 0 (word_of_text "Hola,") =
           Ok (length demo_doc, w') ∧
         has_token_fields (word_of_text "Hola,") w'
           (Token "hola" false false "NOUN" "hola" "ROOT" (Some "hola") ∅)) ∧
  (is_foreign (word_of_text "¿?") = false ∧
   has_text (word_of_text "¿?") = true ∧
   endswith (text_of (word_of_text "¿?")) "-" = false ∧
   String.eqb (lower_latin (text_of (word_of_text "¿?"))) "eeh" = false ∧
   0 ≤ length demo_doc ∧
   normalised lower_latin (text_of (word_of_text "¿?")) "" ∧
   (∀ k t, 0 ≤ k → demo_doc !! k = Some t → significant t = true →
           ¬ normalised lower_latin (t_text t) "") ∧
   ∃ w', annotate_word lower_latin nlp_words demo_doc 0 (word_of_text "¿?") =
           Ok (length demo_doc, w') ∧
         annotated_with (word_of_text "¿?") w' "" "" "" "" ∅).
Proof.
  assert (∀ key, key = "hola" ∨ key = "" →
            ∀ k t, 0 ≤ k → demo_doc !! k = Some t → significant t = true →
                   ¬ normalised lower_latin (t_text t) key) as Hnone.
  { intros key Hkey k t _ Ht Hs Hn. apply normalised_iff in Hn.
    subst key.
    destruct k as [|[|[|[|k]]]]; vm_compute in Ht; try discriminate Ht;
      injection Ht as <-; try discriminate Hs;
      destruct Hkey as [Hkey|Hkey]; vm_compute in Hkey; discriminate Hkey. }
  assert (normalised lower_latin (text_of (word_of_text "Hola,")) "hola") as H1.
  { apply (strip_punct_stripped (lower_latin "Hola,")). }
  assert (normalised lower_latin (text_of (word_of_text "¿?")) "") as H2.
  { apply (strip_punct_stripped (lower_latin "¿?")). }
  split.
  - repeat (split; [first [reflexivity | exact (Nat.le_0_l _) | exact H1
                          | exact (Hnone "hola" (or_introl eq_refl))]|]).
    exact (fallback_always_annotates lower_latin nlp_words demo_doc 0
             (word_of_text "Hola,") "hola" eq_refl eq_refl eq_refl eq_refl
             (Nat.le_0_l _) H1 (Hnone "hola" (or_introl eq_refl))).
  - repeat (split; [first [reflexivity | exact (Nat.le_0_l _) | exact H2
                          | exact (Hnone "" (or_intror eq_refl))]|]).
    exact (fallback_always_annotates lower_latin nlp_words demo_doc 0
             (word_of_text "¿?") "" eq_refl eq_refl eq_refl eq_refl
             (Nat.le_0_l _) H2 (Hnone "" (or_intror eq_refl))).
Defined.



Lemma special_cases_in_order_witness :
  annotate_word lower_latin nlp_silent [] 0 foreign_word = Ok (0, foreign_word) ∧
  annotate_word lower_latin nlp_silent [] 0 (word_of_text "eeh-") =
    Ok (0, <["pos" := JStr "self-correction"]> (word_of_text "eeh-")).
Proof.
  split.
  - exact (proj1 (special_cases_in_order lower_latin nlp_silent [] 0
                    foreign_word "ok-") eq_refl).
  - exact (proj1 (proj2 (special_cases_in_order lower_latin nlp_silent [] 0
                           (word_of_text "eeh-") "eeh-") eq_refl eq_refl)
             eq_refl).
Defined.

(** The examples of the specification: sentence segmentation, the two
    analytic futures, the whole pipeline on "Va a llover". *)
Example segmentation_example :
  split_into_sentences lower_latin strip_spaces
    (word_of_text <$> ["Hoy"; "llueve"; "."; "Mañana"; "no"]) =
  Ok [[0; 1; 2]; [3; 4]].
Proof. by vm_compute. Qed.

Example analytic_future_example :
  post_process_compound_futures lower_latin future_segments =
  Ok [Segment ∅ [word_va; word_a; set_future_type word_llover "analyticalFuture"]].
Proof. by vm_compute. Qed.

Example analytic_future_past_example :
  post_process_futures_segment lower_latin
    [annotated_word "iba" "AUX" "llover" {[ "Tense" := JStr "Imp" ]};
     word_a; word_llover] =
  Ok [annotated_word "iba" "AUX" "llover" {[ "Tense" := JStr "Imp" ]};
      word_a; set_future_type word_llover "analyticalFuture_past"].
Proof. by vm_compute. Qed.

Example perfecto_compuesto_example :
  post_process_tenses_segment lower_latin
    [word_ha; annotated_word "comido" "VERB" "ha"
                (<["Tense" := JStr "Past"]> {[ "VerbForm" := JStr "Part" ]})] =
  Ok [word_ha;
      set_past_tense_type
        (annotated_word "comido" "VERB" "ha"
           (<["Tense" := JStr "Past"]> {[ "VerbForm" := JStr "Part" ]}))
        "PerfectoCompuesto"].
Proof. by vm_compute. Qed.

(** Called on their own on words whose morphology bag is JSON null or a
    string, the two passes raise; [annotate_file] removes such a bag before
    it calls them, and returns. *)
Example malformed_bag_example :
  post_process_futures_segment lower_latin
    [word_va_null; word_a_bare; word_llover_bare] = Raise TypeError ∧
  post_process_tenses_segment lower_latin [word_Comido; word_ha_text_morph] =
    Raise AttributeError ∧
  match annotate_file lower_latin strip_spaces nlp_demo malformed_transcript with
  | Ok _ => True
  | Raise _ => False
  end.
Proof. repeat split; by vm_compute. Qed.

Example pipeline_example :
  annotate_file lower_latin strip_spaces nlp_demo demo_transcript =
  Ok (Transcript ∅
        [Segment ∅
           [fill_word_annotation (word_of_text "Va") tok_va;
            fill_word_annotation (word_of_text "a") tok_a;
            set_future_type
              (fill_word_annotation (word_of_text "llover") tok_llover)
              "analyticalFuture"]]).
Proof. by vm_compute. Qed.

(* ===================================================================== *)
(** ** The claim about the speaker attributes                               *)
(* ===================================================================== *)

(** C9, as the specification words it, fails: a name that is not in the
    table resolves to four empty strings, not to an "unknown" marker. *)
Lemma unknown_speaker_is_empty :
  AnalysisTenses.map_speaker_attributes "xyz" = ("", "", "", "") ∧
  DatabaseCreation.map_speaker_attributes "xyz" = ("", "", "", "") ∧
  AnalysisTenses.map_speaker_attributes "xyz" ≠
    ("unknown", "unknown", "unknown", "unknown").
Proof. repeat split; by vm_compute. Qed.

(** C9 (amended).  For a speaker name that is not in the lookup table, the
    attribute mapping of both scripts returns without an exception, and
    resolves professionalism, gender, discourse mode and topic to the empty
    string. *)
Theorem unknown_speaker_resolves_to_empty name :
  name ∉ (speaker_table.*1) →
  AnalysisTenses.map_speaker_attributes name = ("", "", "", "") ∧
  DatabaseCreation.map_speaker_attributes name = ("", "", "", "").
Proof.
  intros Hname.
  unfold AnalysisTenses.map_speaker_attributes, AnalysisTenses.mapping,
    DatabaseCreation.map_speaker_attributes, DatabaseCreation.mapping.
  by rewrite (not_elem_of_list_to_map_1 _ _ Hname).
Qed.

Lemma unknown_speaker_resolves_to_empty_witness :
  ("xyz" ∉ speaker_table.*1) ∧
  AnalysisTenses.map_speaker_attributes "xyz" = ("", "", "", "") ∧
  DatabaseCreation.map_speaker_attributes "xyz" = ("", "", "", "").
Proof.
  assert ("xyz" ∉ (speaker_table.*1)) as H.
  { apply (bool_decide_unpack _). vm_compute. exact I. }
  split; [exact H|]. exact (unknown_speaker_resolves_to_empty "xyz" H).
Defined.

(* ===================================================================== *)
(** ** Further properties: the context of a token                           *)
(* ===================================================================== *)

Lemma py_index_nat {A : Type} (l : list A) (i : nat) :
  py_index l (Z.of_nat i) =
    match l !! i with Some x => Done x | None => Fails IndexError end.
Proof.
  unfold py_index.
  destruct (Z.ltb_spec (Z.of_nat i) 0) as [?|_]; [lia|].
  destruct (Z.ltb_spec (Z.of_nat i) 0) as [?|_]; [lia|].
  by rewrite Nat2Z.id.
Qed.

Lemma is_sentence_boundary_text number_is_true (w : word) :
  text_is_string w = true →
  is_sentence_boundary number_is_true (dict_get w "text" (JStr "")) =
    Ok (ends_sentence w).
Proof.
  unfold text_is_string, ends_sentence, dict_get.
  destruct (w !! "text") as [[| | |s| |]|]; try done; simpl.
  destruct (String.eqb_spec s "") as [->|_]; done.
Qed.

(** The left loop takes the [k] words before position [c], for the largest
    [k] the budget, the start of the list and the sentence ends allow. *)
Lemma left_loop_spec number_is_true (words : list word) budget :
  Forall (λ w, text_is_string w = true) words →
  ∀ (c : nat) result, c ≤ length words →
  ∃ k, k ≤ budget ∧ k ≤ c ∧
       left_loop number_is_true words budget (Z.of_nat c - 1) result =
         Done (result ++ reverse (take k (drop (c - k) words))) ∧
       Forall (λ w, ends_sentence w = false) (take k (drop (c - k) words)) ∧
       (k = budget ∨ k = c ∨
        ∃ w, words !! (c - k - 1) = Some w ∧ ends_sentence w = true).
Proof.
  intros Htext. induction budget as [|budget IH]; intros c result Hc.
  { exists 0. simpl. rewrite app_nil_r. repeat split; auto with lia. }
  destruct c as [|c].
  { exists 0. simpl. rewrite app_nil_r. repeat split; auto with lia. }
  cbn [left_loop].
  replace (Z.of_nat (S c) - 1)%Z with (Z.of_nat c) by lia.
  destruct (Z.leb_spec 0 (Z.of_nat c)) as [_|?]; [|lia].
  rewrite py_index_nat.
  destruct (lookup_lt_is_Some_2 words c) as [w Hw]; [lia|].
  rewrite Hw. simpl.
  rewrite is_sentence_boundary_text
    by exact (proj1 (Forall_lookup _ _) Htext c w Hw).
  simpl. destruct (ends_sentence w) eqn:Hend.
  { exists 0. simpl. rewrite app_nil_r. repeat split; auto with lia.
    right; right. exists w. split; [|done]. rewrite <- Hw. f_equal; lia. }
  destruct (IH c (result ++ [w])) as (k & Hk & Hkc & Hrun & Hall & Hmax); [lia|].
  exists (S k).
  assert (take (S k) (drop (S c - S k) words) =
          take k (drop (c - k) words) ++ [w]) as Heq.
  { replace (S c - S k) with (c - k) by lia.
    apply take_S_r. rewrite lookup_drop.
    by replace (c - k + k) with c by lia. }
  split; [lia|]. split; [lia|]. rewrite Heq. split; [|split].
  - rewrite Hrun, reverse_app. simpl. by rewrite <- app_assoc.
  - apply Forall_app. split; [done|]. by constructor.
  - destruct Hmax as [->|[->|Hw']]; [by left|by right; left|].
    right; right. destruct Hw' as (w' & Hw' & Hend'). exists w'.
    split; [|done]. rewrite <- Hw'. f_equal; lia.
Qed.

(** The right loop takes the [k] words from position [i] on, up to and
    including the first that ends a sentence. *)
Lemma right_loop_spec number_is_true (words : list word) budget :
  Forall (λ w, text_is_string w = true) words →
  ∀ (i : nat) result, i ≤ length words →
  ∃ k, k ≤ budget ∧ i + k ≤ length words ∧
       right_loop number_is_true words budget (Z.of_nat i) result =
         Done (result ++ take k (drop i words)) ∧
       Forall (λ w, ends_sentence w = false) (take (k - 1) (drop i words)) ∧
       (k = budget ∨ i + k = length words ∨
        ∃ w, 0 < k ∧ words !! (i + k - 1) = Some w ∧ ends_sentence w = true).
Proof.
  intros Htext. induction budget as [|budget IH]; intros i result Hi.
  { exists 0. simpl. rewrite app_nil_r. repeat split; auto with lia. }
  cbn [right_loop].
  destruct (Z.ltb_spec (Z.of_nat i) (Z.of_nat (length words))) as [Hlt|Hge].
  2:{ exists 0. simpl. rewrite app_nil_r. repeat split; auto with lia. }
  rewrite py_index_nat.
  destruct (lookup_lt_is_Some_2 words i) as [w Hw]; [lia|].
  rewrite Hw. simpl.
  rewrite is_sentence_boundary_text
    by exact (proj1 (Forall_lookup _ _) Htext i w Hw).
  simpl. rewrite (drop_S _ _ _ Hw).
  destruct (ends_sentence w) eqn:Hend.
  { exists 1. simpl. rewrite take_0. repeat split; auto with lia.
    right; right. exists w. split; [lia|]. split; [|done].
    rewrite <- Hw. f_equal; lia. }
  replace (Z.of_nat i + 1)%Z with (Z.of_nat (S i)) by lia.
  destruct (IH (S i) (result ++ [w])) as (k & Hk & Hik & Hrun & Hall & Hmax);
    [lia|].
  exists (S k). split; [lia|]. split; [lia|]. split; [|split].
  - rewrite Hrun. simpl. by rewrite <- app_assoc.
  - simpl. rewrite Nat.sub_0_r. destruct k as [|k]; [by rewrite take_0|].
    simpl. constructor; [done|]. simpl in Hall. by rewrite Nat.sub_0_r in Hall.
  - destruct Hmax as [->|[Heq|(w' & Hpos & Hw' & Hend')]];
      [by left|right; left; lia|].
    right; right. exists w'. split; [lia|]. split; [|done].
    rewrite <- Hw'. f_equal; lia.
Qed.

(** X10.  In a segment whose words have a string for a text (or no text),
    the left context of position [c] is the run of [k] words that ends just
    before [c]; none of them ends a sentence; and the run is as long as it
    can be: it has [max_count] words, or it starts with the first word of
    the segment, or the word before it ends a sentence. *)
Theorem left_context_reaches_back_to_sentence_end number_is_true
    (words : list word) (c : nat) (max_count : Z) :
  Forall (λ w, text_is_string w = true) words → c ≤ length words →
  ∃ k, get_left_with_sentence_bounds number_is_true words (Z.of_nat c)
         max_count = Done (take k (drop (c - k) words)) ∧
       k ≤ c ∧ k ≤ Z.to_nat max_count ∧
       Forall (λ w, ends_sentence w = false) (take k (drop (c - k) words)) ∧
       (k = Z.to_nat max_count ∨ k = c ∨
        ∃ w, words !! (c - k - 1) = Some w ∧ ends_sentence w = true).
Proof.
  intros Htext Hc. unfold get_left_with_sentence_bounds.
  destruct (left_loop_spec number_is_true words (Z.to_nat max_count) Htext
              c [] Hc) as (k & Hk & Hkc & Hrun & Hall & Hmax).
  exists k. rewrite Hrun. simpl. by rewrite reverse_involutive.
Qed.

(** X11.  In such a segment, the right context of the word at position [c]
    is empty when the word ends a sentence; otherwise it is the run of [k]
    words that starts just after [c], only the last of which can end a
    sentence, and the run is as long as it can be: it has [max_count]
    words, or it reaches the end of the segment, or its last word ends a
    sentence. *)
Theorem right_context_reaches_to_sentence_end number_is_true
    (words : list word) (c : nat) (w : word) (max_count : Z) :
  Forall (λ w, text_is_string w = true) words → words !! c = Some w →
  ∃ k, get_right_with_sentence_bounds number_is_true words (Z.of_nat c)
         max_count = Done (take k (drop (S c) words)) ∧
       S c + k ≤ length words ∧ k ≤ Z.to_nat max_count ∧
       Forall (λ w, ends_sentence w = false) (take (k - 1) (drop (S c) words)) ∧
       if ends_sentence w then k = 0
       else k = Z.to_nat max_count ∨ S c + k = length words ∨
            ∃ w', 0 < k ∧ words !! (c + k) = Some w' ∧ ends_sentence w' = true.
Proof.
  intros Htext Hw. unfold get_right_with_sentence_bounds.
  pose proof (lookup_lt_Some _ _ _ Hw) as Hlt.
  rewrite py_index_nat, Hw. simpl.
  rewrite is_sentence_boundary_text
    by exact (proj1 (Forall_lookup _ _) Htext c w Hw).
  simpl. destruct (ends_sentence w) eqn:Hend.
  { exists 0. simpl. rewrite take_0. repeat split; auto with lia. }
  replace (Z.of_nat c + 1)%Z with (Z.of_nat (S c)) by lia.
  destruct (right_loop_spec number_is_true words (Z.to_nat max_count) Htext
              (S c) []) as (k & Hk & Hik & Hrun & Hall & Hmax); [lia|].
  exists k. rewrite Hrun. simpl. repeat split; auto with lia.
  destruct Hmax as [?|[?|(w' & Hpos & Hw' & Hend')]]; [by left|by right; left|].
  right; right. exists w'. split; [done|]. split; [|done].
  rewrite <- Hw'. f_equal; lia.
Qed.

(** X12.  In such a segment, the left context of a word, the word and its
    right context stand one after the other in the segment, and in this
    stretch no word but the last ends a sentence: a context never crosses a
    sentence end. *)
Theorem context_stays_inside_one_sentence number_is_true
    (words : list word) (c : nat) (w : word) (max_left max_right : Z) :
  Forall (λ w, text_is_string w = true) words → words !! c = Some w →
  ∃ left_tokens right_tokens,
    get_left_with_sentence_bounds number_is_true words (Z.of_nat c) max_left =
      Done left_tokens ∧
    get_right_with_sentence_bounds number_is_true words (Z.of_nat c) max_right =
      Done right_tokens ∧
    (∃ before after,
       words = before ++ left_tokens ++ w :: right_tokens ++ after ∧
       length (before ++ left_tokens) = c) ∧
    ∀ init final, left_tokens ++ w :: right_tokens = init ++ [final] →
      Forall (λ w, ends_sentence w = false) init.
Proof.
  intros Htext Hw. pose proof (lookup_lt_Some _ _ _ Hw) as Hlt.
  assert (∃ k, get_left_with_sentence_bounds number_is_true words (Z.of_nat c)
                 max_left = Done (take k (drop (c - k) words)) ∧
               k ≤ c ∧
               Forall (λ w, ends_sentence w = false)
                      (take k (drop (c - k) words)))
    as (k & Hleft & Hkc & Hall).
  { unfold get_left_with_sentence_bounds.
    destruct (left_loop_spec number_is_true words (Z.to_nat max_left) Htext
                c []) as (k & _ & Hkc & Hrun & Hall & _); [lia|].
    exists k. rewrite Hrun. simpl. by rewrite reverse_involutive. }
  assert (∃ k', get_right_with_sentence_bounds number_is_true words
                  (Z.of_nat c) max_right =
                  Done (take k' (drop (S c) words)) ∧
                S c + k' ≤ length words ∧
                Forall (λ w, ends_sentence w = false)
                       (take (k' - 1) (drop (S c) words)) ∧
                (ends_sentence w = true → k' = 0))
    as (k' & Hright & Hlen & Hall' & Hmax).
  { unfold get_right_with_sentence_bounds.
    rewrite py_index_nat, Hw. simpl.
    rewrite is_sentence_boundary_text
      by exact (proj1 (Forall_lookup _ _) Htext c w Hw).
    simpl. destruct (ends_sentence w) eqn:Hend.
    { exists 0. simpl. rewrite take_0. repeat split; auto with lia. }
    replace (Z.of_nat c + 1)%Z with (Z.of_nat (S c)) by lia.
    destruct (right_loop_spec number_is_true words (Z.to_nat max_right) Htext
                (S c) []) as (k' & _ & Hik & Hrun & Hall' & _); [lia|].
    exists k'. rewrite Hrun. simpl. repeat split; auto with lia. }
  eexists _, _. split; [exact Hleft|]. split; [exact Hright|]. split.
  - exists (take (c - k) words), (drop k' (drop (S c) words)). split.
    + rewrite (take_drop k' (drop (S c) words)), <- (drop_S _ _ _ Hw).
      replace (drop c words) with (drop k (drop (c - k) words))
        by (rewrite drop_drop; f_equal; lia).
      by rewrite !take_drop.
    + rewrite length_app, !length_take, length_drop. lia.
  - intros init final Heq. destruct (ends_sentence w) eqn:Hend.
    + rewrite (Hmax eq_refl), take_0 in Heq.
      apply app_inj_tail in Heq as [<- _]. done.
    + destruct k' as [|k'].
      { rewrite take_0 in Heq. apply app_inj_tail in Heq as [<- _]. done. }
      simpl in Hall'. rewrite Nat.sub_0_r in Hall'.
      destruct (lookup_lt_is_Some_2 (drop (S c) words) k') as [x Hx].
      { rewrite length_drop. lia. }
      rewrite (take_S_r _ _ _ Hx) in Heq.
      change (w :: (take k' (drop (S c) words) ++ [x]))
        with ((w :: take k' (drop (S c) words)) ++ [x]) in Heq.
      rewrite app_assoc in Heq. apply app_inj_tail in Heq as [<- _].
      apply Forall_app. split; [done|]. by constructor.
Qed.

Lemma py_index_inside {A : Type} (l : list A) (i : Z) :
  (- Z.of_nat (length l) ≤ i < Z.of_nat (length l))%Z →
  ∃ x, py_index l i = Done x.
Proof.
  intros Hi. unfold py_index.
  destruct (Z.ltb_spec i 0) as [Hneg|Hpos].
  - destruct (Z.ltb_spec (i + Z.of_nat (length l)) 0) as [?|_]; [lia|].
    destruct (lookup_lt_is_Some_2 l (Z.to_nat (i + Z.of_nat (length l))))
      as [x ->]; [lia|]. by exists x.
  - destruct (Z.ltb_spec i 0) as [?|_]; [lia|].
    destruct (lookup_lt_is_Some_2 l (Z.to_nat i)) as [x ->]; [lia|]. by exists x.
Qed.

Lemma py_index_outside {A : Type} (l : list A) (i : Z) :
  (i < - Z.of_nat (length l) ∨ Z.of_nat (length l) ≤ i)%Z →
  py_index l i = Fails IndexError.
Proof.
  intros Hi. unfold py_index.
  destruct (Z.ltb_spec i 0) as [Hneg|Hpos].
  - destruct (Z.ltb_spec (i + Z.of_nat (length l)) 0) as [?|?]; [done|lia].
  - destruct (Z.ltb_spec i 0) as [?|_]; [lia|].
    rewrite lookup_ge_None_2; [done|lia].
Qed.

Lemma lift_no_index_error {A : Type} (r : result A) (k : A → outcome (list word)) :
  (∀ a, k a ≠ Fails IndexError) → (lift r ≫= k) ≠ Fails IndexError.
Proof. intros Hk. destruct r as [a|e]; simpl; [apply Hk|done]. Qed.

(** Once the first word was read, the loops stay inside the list. *)
Lemma left_loop_no_index_error number_is_true (words : list word) budget :
  ∀ idx result, (idx < Z.of_nat (length words))%Z →
  left_loop number_is_true words budget idx result ≠ Fails IndexError.
Proof.
  induction budget as [|budget IH]; intros idx result Hidx; [done|].
  cbn [left_loop]. destruct (Z.leb_spec 0 idx) as [Hpos|_]; [|done].
  destruct (py_index_inside words idx) as [w ->]; [lia|]. simpl.
  apply lift_no_index_error. intros [|]; [done|]. apply IH. lia.
Qed.

Lemma right_loop_no_index_error number_is_true (words : list word) budget :
  ∀ idx result, (- Z.of_nat (length words) ≤ idx)%Z →
  right_loop number_is_true words budget idx result ≠ Fails IndexError.
Proof.
  induction budget as [|budget IH]; intros idx result Hidx; [done|].
  cbn [right_loop].
  destruct (Z.ltb_spec idx (Z.of_nat (length words))) as [Hlt|_]; [|done].
  destruct (py_index_inside words idx) as [w ->]; [lia|]. simpl.
  apply lift_no_index_error. intros [|]; [done|]. apply IH. lia.
Qed.

(** X13.  [get_left_with_sentence_bounds] raises IndexError exactly when the
    position lies more than one place behind the last word and at least one
    word is asked for: at the position right behind the last word it reads
    the last word and returns.  [get_right_with_sentence_bounds] raises
    IndexError exactly when the position is no index of the list, counting
    from the start or, when negative, from the end. *)
Theorem context_index_error_exactly number_is_true
    (words : list word) (center_index max_count : Z) :
  (get_left_with_sentence_bounds number_is_true words center_index max_count =
     Fails IndexError ↔
   (Z.of_nat (length words) < center_index ∧ 0 < max_count)%Z) ∧
  (get_right_with_sentence_bounds number_is_true words center_index max_count =
     Fails IndexError ↔
   (center_index < - Z.of_nat (length words) ∨
    Z.of_nat (length words) ≤ center_index)%Z).
Proof.
  split.
  - unfold get_left_with_sentence_bounds. split.
    + intros Hfail.
      destruct (Z.to_nat max_count) as [|budget] eqn:Hb; [done|].
      split; [|lia].
      destruct (Z.ltb_spec (Z.of_nat (length words)) center_index) as [?|Hle];
        [done|].
      pose proof (left_loop_no_index_error number_is_true words (S budget)
                    (center_index - 1) [] ltac:(lia)) as Hno.
      destruct (left_loop _ _ _ _ _) as [r|e]; simpl in Hfail; congruence.
    + intros [Hc Hm].
      destruct (Z.to_nat max_count) as [|budget] eqn:Hb; [lia|].
      cbn [left_loop].
      destruct (Z.leb_spec 0 (center_index - 1)) as [_|?]; [|lia].
      by rewrite py_index_outside by lia.
  - unfold get_right_with_sentence_bounds. split.
    + intros Hfail.
      destruct (Z.ltb_spec center_index (- Z.of_nat (length words))) as [?|Hlo];
        [by left|].
      destruct (Z.leb_spec (Z.of_nat (length words)) center_index) as [?|Hhi];
        [by right|].
      exfalso. revert Hfail.
      destruct (py_index_inside words center_index) as [w ->]; [lia|]. simpl.
      apply lift_no_index_error. intros [|]; [done|].
      apply right_loop_no_index_error. lia.
    + intros Hout. by rewrite py_index_outside by lia.
Qed.

(** At the position right behind the last word the left context is read
    from the last word on; the right context raises. *)
Lemma context_right_behind_last_word :
  get_left_with_sentence_bounds number_is_nonzero context_words 5 10 =
    Done [word_of_text "Bien"] ∧
  get_right_with_sentence_bounds number_is_nonzero context_words 5 10 =
    Fails IndexError ∧
  get_left_with_sentence_bounds number_is_nonzero context_words 6 10 =
    Fails IndexError.
Proof. repeat split; by vm_compute. Qed.

(* ===================================================================== *)
(** ** Further properties: token identifiers                                *)
(* ===================================================================== *)

Lemma substring_all (s : string) (n : nat) :
  String.length s ≤ n → String.substring 0 n s = s.
Proof.
  revert n. induction s as [|c s IH]; intros n Hn.
  - by destruct n.
  - destruct n as [|n]; simpl in *; [lia|]. rewrite IH; [done|lia].
Qed.

Lemma extend_loop_found py_str country_code hash_full existing_ids j :
  ∀ fuel hash_len extension_count,
  j < fuel →
  (token_id_of py_str country_code hash_full (hash_len + j) ∉ existing_ids) →
  (∀ i, i < j →
     token_id_of py_str country_code hash_full (hash_len + i) ∈ existing_ids) →
  extend_loop py_str fuel country_code hash_full existing_ids hash_len
    extension_count =
    Some (token_id_of py_str country_code hash_full (hash_len + j),
          extension_count + j).
Proof.
  induction j as [|j IH]; intros fuel hash_len extension_count Hfuel Hfree Htaken.
  - destruct fuel as [|fuel]; [lia|]. simpl.
    rewrite Nat.add_0_r in Hfree. rewrite decide_False by done.
    by rewrite !Nat.add_0_r.
  - destruct fuel as [|fuel]; [lia|]. simpl.
    rewrite decide_True.
    2:{ specialize (Htaken 0). rewrite Nat.add_0_r in Htaken. apply Htaken. lia. }
    rewrite (IH fuel (S hash_len) (S extension_count)).
    + assert (S hash_len + j = hash_len + S j) as -> by lia.
      by assert (S extension_count + j = extension_count + S j) as -> by lia.
    + lia.
    + by replace (S hash_len + j) with (hash_len + S j) by lia.
    + intros i Hi. replace (S hash_len + i) with (hash_len + S i) by lia.
      apply Htaken. lia.
Qed.

Lemma first_free_length (P : nat → Prop) `{∀ n, Decision (P n)} (j : nat) :
  ¬ P j → ∃ j0, j0 ≤ j ∧ ¬ P j0 ∧ ∀ i, i < j0 → P i.
Proof.
  assert (∀ n, (∀ i, i < n → P i) ∨
               ∃ j0, j0 < n ∧ ¬ P j0 ∧ ∀ i, i < j0 → P i) as Hscan.
  { induction n as [|n [IH|(j0 & ? & ? & ?)]].
    - left. intros i Hi. lia.
    - destruct (decide (P n)) as [Hn|Hn].
      + left. intros i Hi. destruct (decide (i = n)) as [->|]; [done|].
        apply IH. lia.
      + right. exists n. auto.
    - right. exists j0. auto with lia. }
  intros Hj. destruct (Hscan j) as [Hall|(j0 & ? & ? & ?)].
  - exists j. auto.
  - exists j0. auto with lia.
Qed.

Lemma extend_loop_inv py_str country_code hash_full existing_ids fuel :
  ∀ hash_len extension_count token_id extension_count',
  extend_loop py_str fuel country_code hash_full existing_ids hash_len
    extension_count = Some (token_id, extension_count') →
  (token_id ∉ existing_ids) ∧
  ∃ j, token_id = token_id_of py_str country_code hash_full (hash_len + j) ∧
       extension_count' = extension_count + j.
Proof.
  induction fuel as [|fuel IH]; intros hash_len ext token_id ext' Hrun;
    [done|].
  simpl in Hrun.
  destruct (decide (token_id_of py_str country_code hash_full hash_len
                      ∈ existing_ids)) as [Hin|Hout].
  - destruct (IH _ _ _ _ Hrun) as (Hfresh & j & -> & ->).
    split; [done|]. exists (S j).
    split; [f_equal; lia|lia].
  - simplify_eq. split; [done|]. exists 0. by rewrite !Nat.add_0_r.
Qed.

Lemma extend_loop_taken py_str country_code hash_full existing_ids fuel :
  ∀ hash_len extension_count,
  (∀ n, hash_len ≤ n ≤ Nat.max hash_len (String.length hash_full) →
        token_id_of py_str country_code hash_full n ∈ existing_ids) →
  extend_loop py_str fuel country_code hash_full existing_ids hash_len
    extension_count = None.
Proof.
  induction fuel as [|fuel IH]; intros hash_len ext Htaken; [done|].
  simpl. rewrite decide_True by (apply Htaken; lia).
  apply IH. intros n Hn.
  destruct (decide (n ≤ String.length hash_full)) as [Hle|Hgt].
  - apply Htaken. lia.
  - assert (token_id_of py_str country_code hash_full n =
            token_id_of py_str country_code hash_full hash_len) as ->.
    { unfold token_id_of. by rewrite !substring_all by lia. }
    apply Htaken. lia.
Qed.

(** X14.  When some hash length from 5 on gives an identifier that is not
    taken, the search returns (with enough fuel): the identifier returned is
    not among the identifiers taken before and is added to them; it is the
    country code followed by the shortest free prefix of the digest of at
    least 5 digits, and the extension count is the number of shorter
    prefixes that were taken. *)
Theorem token_id_is_shortest_free_prefix py_str md5_hexdigest
    (country_code date st et : jval) (text : string)
    (existing_ids : gset string) (n : nat) :
  5 ≤ n →
  (token_id_of py_str country_code
     (hash_of py_str md5_hexdigest date st et text) n ∉ existing_ids) →
  ∃ token_id extension_count fuel0,
    (∀ fuel, fuel0 ≤ fuel →
       generate_unique_token_id py_str md5_hexdigest fuel country_code date st
         et text existing_ids =
         Some (token_id, extension_count, {[ token_id ]} ∪ existing_ids)) ∧
    (token_id ∉ existing_ids) ∧
    token_id = token_id_of py_str country_code
                 (hash_of py_str md5_hexdigest date st et text)
                 (5 + extension_count) ∧
    5 + extension_count ≤ n ∧
    ∀ i, i < extension_count →
      token_id_of py_str country_code
        (hash_of py_str md5_hexdigest date st et text) (5 + i) ∈ existing_ids.
Proof.
  intros Hn Hfree.
  set (hash_full := hash_of py_str md5_hexdigest date st et text) in *.
  destruct (first_free_length
              (λ j, token_id_of py_str country_code hash_full (5 + j)
                      ∈ existing_ids) (n - 5))
    as (j & Hj & Hjfree & Htaken).
  { by replace (5 + (n - 5)) with n by lia. }
  exists (token_id_of py_str country_code hash_full (5 + j)), j, (S j).
  split; [|split; [done|split; [done|split; [lia|done]]]].
  intros fuel Hfuel. unfold generate_unique_token_id. fold hash_full.
  by rewrite (extend_loop_found py_str country_code hash_full existing_ids j
                fuel 5 0) by (done || lia).
Qed.

(** X15.  When the identifiers of all hash lengths from 5 up to the length
    of the digest are taken, the search never returns: a longer prefix is
    the whole digest again, so the loop tests the same identifier for
    ever. *)
Theorem token_id_search_does_not_end py_str md5_hexdigest
    (country_code date st et : jval) (text : string)
    (existing_ids : gset string) :
  (∀ n, 5 ≤ n ≤ Nat.max 5
          (String.length (hash_of py_str md5_hexdigest date st et text)) →
        token_id_of py_str country_code
          (hash_of py_str md5_hexdigest date st et text) n ∈ existing_ids) →
  ∀ fuel,
    generate_unique_token_id py_str md5_hexdigest fuel country_code date st et
      text existing_ids = None.
Proof.
  intros Htaken fuel. unfold generate_unique_token_id.
  by rewrite extend_loop_taken.
Qed.

(** X16.  Two calls, the second on the identifiers the first one left,
    never return the same identifier, whatever their arguments are; and no
    identifier is ever removed. *)
Theorem successive_token_ids_differ py_str md5_hexdigest
    (fuel1 fuel2 : nat) (code1 date1 st1 et1 code2 date2 st2 et2 : jval)
    (text1 text2 : string) (ids0 ids1 ids2 : gset string)
    (id1 id2 : string) (ext1 ext2 : nat) :
  generate_unique_token_id py_str md5_hexdigest fuel1 code1 date1 st1 et1
    text1 ids0 = Some (id1, ext1, ids1) →
  generate_unique_token_id py_str md5_hexdigest fuel2 code2 date2 st2 et2
    text2 ids1 = Some (id2, ext2, ids2) →
  id1 ≠ id2 ∧ (id1 ∉ ids0) ∧ (id2 ∉ ids0) ∧ ids2 = {[ id1; id2 ]} ∪ ids0.
Proof.
  unfold generate_unique_token_id. intros H1 H2.
  destruct (extend_loop _ fuel1 _ _ _ _ _) as [[t1 e1]|] eqn:Hloop1;
    simplify_eq/=.
  destruct (extend_loop _ fuel2 _ _ _ _ _) as [[t2 e2]|] eqn:Hloop2;
    simplify_eq/=.
  apply extend_loop_inv in Hloop1 as [Hfresh1 _].
  apply extend_loop_inv in Hloop2 as [Hfresh2 _].
  split; [|split; [done|split]].
  - intros ->. apply Hfresh2. by apply elem_of_union_l, elem_of_singleton.
  - intros Hin. apply Hfresh2. by apply elem_of_union_r.
  - apply set_eq. intros x. rewrite !elem_of_union, !elem_of_singleton. tauto.
Qed.

(* ===================================================================== *)
(** ** Further properties: the identifier written into a word               *)
(* ===================================================================== *)

Lemma od_set_fresh k v (d : odict) :
  k ∉ d.*1 → od_set k v d = d ++ [(k, v)].
Proof.
  induction d as [|[k' v'] d IH]; intros Hk; [done|].
  simpl in *. apply not_elem_of_cons in Hk as [Hne Hk].
  destruct (String.eqb_spec k' k) as [->|_]; [done|]. by rewrite IH.
Qed.

Lemma od_set_present k v old (a b : odict) :
  k ∉ a.*1 → od_set k v (a ++ (k, old) :: b) = a ++ (k, v) :: b.
Proof.
  induction a as [|[k' v'] a IH]; intros Hk; simpl in *.
  - by rewrite String.eqb_refl.
  - apply not_elem_of_cons in Hk as [Hne Hk].
    destruct (String.eqb_spec k' k) as [->|_]; [done|]. by rewrite IH.
Qed.

(** Once the identifier is inserted, or when no text is to come, the loop
    copies the remaining items one by one. *)
Lemma insert_loop_copy token_id (items : odict) :
  ∀ (new_word : odict) (inserted : bool),
  NoDup (new_word.*1 ++ items.*1) →
  inserted = true ∨ "text" ∉ items.*1 →
  insert_loop items token_id new_word inserted = (new_word ++ items, inserted).
Proof.
  induction items as [|[key value] items IH]; intros new_word inserted Hnd Hins.
  { simpl. by rewrite app_nil_r. }
  simpl in *. apply NoDup_app in Hnd as (Hnd1 & Hdisj & Hnd2).
  apply NoDup_cons in Hnd2 as [Hkey Hnd2].
  rewrite (od_set_fresh key value new_word)
    by (intros Hin; apply (Hdisj _ Hin); left).
  assert (String.eqb key "text" && negb inserted = false) as ->.
  { destruct Hins as [->|Hno]; [by rewrite andb_false_r|].
    apply not_elem_of_cons in Hno as [Hne _].
    destruct (String.eqb_spec key "text"); [congruence|done]. }
  rewrite IH.
  - by rewrite <- app_assoc.
  - rewrite fmap_app. simpl. apply NoDup_app. split; [|split; [|done]].
    + apply NoDup_app. split; [done|]. split; [|apply NoDup_singleton].
      intros x Hx Hx'. apply list_elem_of_singleton in Hx' as ->.
      apply (Hdisj _ Hx). left.
    + intros x Hx Hx'. apply elem_of_app in Hx as [Hx|Hx].
      * apply (Hdisj _ Hx). by right.
      * apply list_elem_of_singleton in Hx as ->. done.
  - destruct Hins as [->|Hno]; [by left|right].
    by apply not_elem_of_cons in Hno as [_ ?].
Qed.

(** Up to the text the loop copies the items; at the text it writes the
    identifier behind it. *)
Lemma insert_loop_until_text token_id (before : odict) t (after : odict) :
  ∀ new_word : odict,
  NoDup (new_word.*1 ++ before.*1 ++ ["text"]) →
  "token_id" ∉ new_word.*1 ++ before.*1 →
  insert_loop (before ++ ("text", t) :: after) token_id new_word false =
    insert_loop after token_id
      (new_word ++ before ++ [("text", t); ("token_id", token_id)]) true.
Proof.
  induction before as [|[key value] before IH]; intros new_word Hnd Hid.
  - simpl in *. rewrite app_nil_r in Hid.
    apply NoDup_app in Hnd as (_ & Hdisj & _).
    rewrite (od_set_fresh "text" t new_word)
      by (intros Hin; apply (Hdisj _ Hin); left).
    rewrite od_set_fresh; [by rewrite <- app_assoc|].
    rewrite fmap_app. simpl. intros Hin.
    apply elem_of_app in Hin as [Hin|Hin]; [done|].
    by apply list_elem_of_singleton in Hin.
  - simpl in *. apply NoDup_app in Hnd as (Hnd1 & Hdisj & Hnd2).
    apply NoDup_cons in Hnd2 as [Hkey Hnd2].
    rewrite (od_set_fresh key value new_word)
      by (intros Hin; apply (Hdisj _ Hin); left).
    assert (String.eqb key "text" = false) as ->.
    { destruct (String.eqb_spec key "text") as [->|]; [|done].
      exfalso. apply Hkey. apply elem_of_app. right. left. }
    simpl. rewrite IH.
    + by rewrite <- !app_assoc.
    + rewrite fmap_app. simpl. rewrite <- app_assoc. simpl.
      apply NoDup_app. split; [done|]. split; [|by apply NoDup_cons].
      intros x Hx. by apply Hdisj.
    + rewrite fmap_app. simpl. rewrite <- app_assoc. done.
Qed.

(** X17.  On a word (its keys in order, none repeated) that has no
    identifier yet, the result is the word with the identifier put right
    behind the text, all other items in their order; a word without a text
    gets the identifier as its last item. *)
Theorem token_id_goes_right_behind_text (word : odict) (token_id : jval) :
  NoDup word.*1 → "token_id" ∉ word.*1 →
  (∀ before t after, word = before ++ ("text", t) :: after →
     insert_token_id_after_text word token_id =
       before ++ ("text", t) :: ("token_id", token_id) :: after) ∧
  ("text" ∉ word.*1 →
     insert_token_id_after_text word token_id =
       word ++ [("token_id", token_id)]).
Proof.
  intros Hnd Hid. unfold insert_token_id_after_text. split.
  - intros before t after ->.
    rewrite fmap_app in Hnd, Hid. simpl in Hnd, Hid.
    rewrite insert_loop_until_text; simpl.
    + rewrite insert_loop_copy; [|..|by left].
      * by rewrite <- app_assoc.
      * rewrite fmap_app. simpl. rewrite <- app_assoc. simpl.
        apply NoDup_app in Hnd as (Hnd1 & Hdisj & Hnd2).
        apply NoDup_cons in Hnd2 as [Htext Hnd2].
        apply NoDup_app. split; [done|]. split.
        -- intros x Hx Hx'. apply elem_of_cons in Hx' as [->|Hx'].
           { apply (Hdisj _ Hx). left. }
           apply elem_of_cons in Hx' as [->|Hx'].
           { apply Hid. apply elem_of_app. by left. }
           apply (Hdisj _ Hx). by right.
        -- apply NoDup_cons. split.
           { intros Hin. apply elem_of_cons in Hin as [?|Hin]; [done|].
             done. }
           apply NoDup_cons. split; [|done].
           intros Hin. apply Hid. apply elem_of_app. right. by right.
    + apply NoDup_app in Hnd as (Hnd1 & Hdisj & Hnd2).
      apply NoDup_app. split; [done|]. split; [|apply NoDup_singleton].
      intros x Hx Hx'. apply list_elem_of_singleton in Hx' as ->.
      apply (Hdisj _ Hx). left.
    + intros Hin. apply Hid. apply elem_of_app. by left.
  - intros Hno. rewrite insert_loop_copy; [|done|by right].
    simpl. by rewrite od_set_fresh.
Qed.

Lemma NoDup_of_submseteq {A : Type} (l k : list A) :
  l ⊆+ k → NoDup k → NoDup l.
Proof.
  intros Hsub Hnd. apply submseteq_Permutation in Hsub as [k' Hk'].
  rewrite Hk' in Hnd. by apply NoDup_app in Hnd as [? _].
Qed.

Lemma insert_loop_app_inserted token_id (l1 l2 new_word : odict) :
  insert_loop (l1 ++ l2) token_id new_word true =
    insert_loop l2 token_id (insert_loop l1 token_id new_word true).1 true.
Proof.
  revert new_word. induction l1 as [|[key value] l1 IH]; intros new_word;
    [done|].
  simpl. rewrite andb_false_r. apply IH.
Qed.

(** X18.  On a word that already has an identifier somewhere behind its
    text, the new identifier is not kept: the result has the old
    identifier, moved to the place right behind the text. *)
Theorem old_token_id_behind_text_wins (before : odict) (t : jval)
    (mid : odict) (old : jval) (after : odict) (token_id : jval) :
  NoDup (before ++ ("text", t) :: mid ++ ("token_id", old) :: after).*1 →
  insert_token_id_after_text
    (before ++ ("text", t) :: mid ++ ("token_id", old) :: after) token_id =
    before ++ ("text", t) :: ("token_id", old) :: mid ++ after.
Proof.
  intros Hnd. unfold insert_token_id_after_text.
  rewrite !fmap_app, !fmap_cons, !fmap_app, !fmap_cons in Hnd. simpl in Hnd.
  rewrite insert_loop_until_text; simpl.
  2:{ eapply NoDup_of_submseteq; [|exact Hnd]. solve_submseteq. }
  2:{ intros Hin. apply NoDup_app in Hnd as (_ & Hdisj & _).
      apply (Hdisj _ Hin). right. apply elem_of_app. right. left. }
  assert (insert_loop (mid ++ ("token_id", old) :: after) token_id
            (before ++ [("text", t); ("token_id", token_id)]) true =
          (before ++ ("text", t) :: ("token_id", old) :: mid ++ after, true))
    as ->; [|done].
  rewrite insert_loop_app_inserted.
  rewrite (insert_loop_copy token_id mid
             (before ++ [("text", t); ("token_id", token_id)]) true);
    [|..|by left].
  2:{ rewrite fmap_app. simpl.
      eapply NoDup_of_submseteq; [|exact Hnd]. solve_submseteq. }
  simpl.
  replace ((before ++ [("text", t); ("token_id", token_id)]) ++ mid)
    with ((before ++ [("text", t)]) ++ ("token_id", token_id) :: mid)
    by (by rewrite <- !app_assoc).
  rewrite od_set_present.
  2:{ rewrite fmap_app. simpl. intros Hin.
      assert (NoDup ((before.*1 ++ ["text"]) ++ ["token_id"])) as Hnd'.
      { eapply NoDup_of_submseteq; [|exact Hnd]. solve_submseteq. }
      apply NoDup_app in Hnd' as (_ & Hdisj & _).
      apply (Hdisj _ Hin). left. }
  rewrite insert_loop_copy; [|..|by left].
  - by rewrite <- !app_assoc.
  - rewrite !fmap_app. simpl.
    eapply NoDup_of_submseteq; [|exact Hnd]. solve_submseteq.
Qed.

(* ===================================================================== *)
(** ** Further properties: counting the tense labels                        *)
(* ===================================================================== *)

#[local] Arguments eq_str : simpl never.

Lemma counters_add_zero c : counters_add c (Counters 0 0 0 0) = c.
Proof. destruct c. unfold counters_add. simpl. f_equal; lia. Qed.

Lemma update_future_counters_delta c future_type tense_vals :
  update_future_counters c future_type tense_vals =
    d ← future_delta future_type tense_vals; Ok (counters_add c d).
Proof.
  unfold update_future_counters, future_delta.
  destruct (eq_str _ _); simpl.
  - unfold counters_add. simpl. f_equal. f_equal; lia.
  - destruct (py_in "Fut" tense_vals) as [[]|]; simpl; [|..|done].
    + unfold counters_add. simpl. f_equal. f_equal; lia.
    + by rewrite counters_add_zero.
Qed.

Lemma update_pasado_counters_delta c morph :
  update_pasado_counters c (JDict morph) =
    d ← pasado_delta morph; Ok (counters_add c d).
Proof.
  unfold update_pasado_counters, pasado_delta.
  destruct (py_in "Past" _) as [[]|]; simpl; [|..|done].
  - set (ptype := dict_get morph "Past_Tense_Type" (JStr "PastOther")).
    destruct (eq_str (Some ptype) "PerfectoCompuesto"); simpl.
    { unfold counters_add. simpl. f_equal. f_equal; lia. }
    destruct (eq_str (Some ptype) "PerfectoSimple"); simpl.
    { unfold counters_add. simpl. f_equal. f_equal; lia. }
    by rewrite counters_add_zero.
  - by rewrite counters_add_zero.
Qed.

Lemma update_by_mode_delta (update : counters → result counters)
    (delta : result counters) mode mc :
  (∀ c, update c = d ← delta; Ok (counters_add c d)) →
  update_by_mode update mode mc = d ← delta; Ok (bump mode mc d).
Proof.
  intros Hupd. unfold update_by_mode, bump. rewrite !Hupd.
  destruct delta as [d|e]; simpl; [|done].
  destruct (String.eqb_spec mode "libre") as [->|Hl]; [done|].
  destruct (String.eqb_spec mode "lectura") as [->|Hle]; [done|].
  destruct (String.eqb_spec mode "pre") as [->|Hp]; done.
Qed.

#[local] Arguments update_pasado_counters : simpl never.
#[local] Arguments update_future_counters : simpl never.

Lemma count_word_delta mode fc w_obj :
  count_word mode fc w_obj =
    d ← word_delta w_obj;
    Ok (FileCounters (bump mode (counters_future fc) d.1)
                     (bump mode (counters_pasado fc) d.2)).
Proof.
  unfold count_word, word_delta.
  destruct (dict_get w_obj "morph" (JDict ∅)) as [| | | | |morph]; simpl;
    try (destruct fc as [[] []]; unfold bump; simpl;
         rewrite !counters_add_zero;
         by repeat match goal with |- context [if ?b then _ else _] =>
                     destruct b end).
  rewrite (update_by_mode_delta _ _ _ _
             (λ c, update_future_counters_delta c _ _)).
  destruct (future_delta _ _) as [df|e]; simpl; [|done].
  rewrite (update_by_mode_delta _ _ _ _
             (λ c, update_pasado_counters_delta c _)).
  by destruct (pasado_delta morph) as [dp|e].
Qed.

Lemma py_in_tense_ok (m : dict) x :
  match m !! "Tense" with
  | Some JNull | Some (JBool _) | Some (JNum _) => false
  | _ => true
  end = true →
  ∃ b, py_in x (dict_get m "Tense" (JList [])) = Ok b.
Proof.
  unfold dict_get. destruct (m !! "Tense") as [[| | | | |]|]; simpl; eauto;
    done.
Qed.

Lemma py_in_tense_raise (m : dict) x :
  match m !! "Tense" with
  | Some JNull | Some (JBool _) | Some (JNum _) => false
  | _ => true
  end = false →
  py_in x (dict_get m "Tense" (JList [])) = Raise TypeError.
Proof.
  unfold dict_get. by destruct (m !! "Tense") as [[| | | | |]|].
Qed.

Lemma word_delta_searchable w :
  tense_is_searchable w = true → ∃ d, word_delta w = Ok d.
Proof.
  unfold tense_is_searchable, word_delta. unfold dict_get at 1.
  destruct (w !! "morph") as [[| | | | |m]|]; simpl; eauto.
  intros Hm. unfold future_delta, pasado_delta.
  destruct (py_in_tense_ok m "Fut" Hm) as [b1 ->].
  destruct (py_in_tense_ok m "Past" Hm) as [b2 ->]. simpl.
  repeat match goal with
         | |- context [if ?b then _ else _] => destruct b; simpl
         end; eauto.
Qed.

Lemma word_delta_unsearchable w :
  tense_is_searchable w = false → word_delta w = Raise TypeError.
Proof.
  unfold tense_is_searchable, word_delta. unfold dict_get at 1.
  destruct (w !! "morph") as [[| | | | |m]|]; simpl; try done.
  intros Hm. unfold future_delta, pasado_delta.
  rewrite (py_in_tense_raise m "Fut" Hm), (py_in_tense_raise m "Past" Hm).
  by destruct (eq_str _ "analyticalFuture").
Qed.

Lemma word_delta_fields w df dp :
  word_delta w = Ok (df, dp) →
  compoundPast df = 0 ∧ simplePast df = 0 ∧
  analyticalFuture dp = 0 ∧ simpleFuture dp = 0.
Proof.
  unfold word_delta, future_delta, pasado_delta.
  destruct (dict_get w "morph" (JDict ∅)) as [| | | | |m]; simpl;
    try (intros; by simplify_eq).
  destruct (eq_str _ "analyticalFuture"); simpl.
  - destruct (py_in "Past" _) as [[]|]; simpl; [|intros; by simplify_eq|done].
    set (ptype := dict_get m "Past_Tense_Type" (JStr "PastOther")).
    destruct (eq_str (Some ptype) "PerfectoCompuesto"); simpl;
      [intros; by simplify_eq|].
    destruct (eq_str (Some ptype) "PerfectoSimple"); simpl;
      intros; by simplify_eq.
  - destruct (py_in "Fut" _) as [is_fut|]; simpl; [|done].
    destruct (py_in "Past" _) as [[]|]; simpl; [| |done].
    + set (ptype := dict_get m "Past_Tense_Type" (JStr "PastOther")).
      destruct (eq_str (Some ptype) "PerfectoCompuesto"); simpl;
        [intros; simplify_eq; by destruct is_fut|].
      destruct (eq_str (Some ptype) "PerfectoSimple"); simpl;
        intros; simplify_eq; by destruct is_fut.
    + intros; simplify_eq; by destruct is_fut.
Qed.

(** X19.  The loop over the words of a segment raises TypeError when some
    word has a morphology bag whose Tense entry is null, a boolean or a
    number, and returns in every other case: words without a morphology
    bag, or with one that is no mapping, are passed over. *)
Theorem counting_raises_on_unsearchable_tense mode fc (wlist : list word) :
  if forallb tense_is_searchable wlist
  then ∃ fc', count_words mode fc wlist = Ok fc'
  else count_words mode fc wlist = Raise TypeError.
Proof.
  revert fc. induction wlist as [|w wlist IH]; intros fc; simpl; [eauto|].
  rewrite count_word_delta.
  destruct (tense_is_searchable w) eqn:Hw; simpl.
  - destruct (word_delta_searchable w Hw) as [d ->]. simpl. apply IH.
  - by rewrite word_delta_unsearchable.
Qed.

Ltac counters_arith :=
  repeat match goal with
         | c : counters |- _ => destruct c
         | mc : mode_counters |- _ => destruct mc
         end;
  unfold counters_le, mode_sum, counters_add in *; simpl in *;
  repeat split; try f_equal; lia.

Lemma mode_sum_bump mode mc d :
  mode_sum (bump mode mc d) =
    counters_add (mode_sum mc)
      (if String.eqb mode "libre" || String.eqb mode "lectura" ||
          String.eqb mode "pre"
       then d else Counters 0 0 0 0).
Proof.
  unfold bump.
  destruct (String.eqb_spec mode "libre") as [->|Hl]; simpl;
    [counters_arith|].
  destruct (String.eqb_spec mode "lectura") as [->|Hle]; simpl;
    [counters_arith|].
  destruct (String.eqb_spec mode "pre") as [->|Hp]; simpl; counters_arith.
Qed.

Lemma count_word_consistent mode fc w fc' :
  count_word mode fc w = Ok fc' →
  (counters_consistent fc → counters_consistent fc') ∧
  (String.eqb mode "libre" || String.eqb mode "lectura" ||
     String.eqb mode "pre" = true →
   counters_exhaustive fc → counters_exhaustive fc').
Proof.
  rewrite count_word_delta.
  destruct (word_delta w) as [[df dp]|] eqn:Hd; simpl; [|done].
  intros ?; simplify_eq.
  destruct (word_delta_fields w df dp Hd) as (Hf1 & Hf2 & Hp1 & Hp2).
  unfold counters_consistent, counters_exhaustive. simpl.
  rewrite !mode_sum_bump. split.
  - intros (Hle1 & Hle2 & Hz1 & Hz2 & Hz3 & Hz4).
    destruct (_ || _); destruct fc as [F P]; simpl in *; counters_arith.
  - intros -> [He1 He2]. destruct fc as [F P]; simpl in *.
    by rewrite He1, He2.
Qed.

Lemma count_words_consistent mode (wlist : list word) :
  ∀ fc, forallb tense_is_searchable wlist = true →
  ∃ fc', count_words mode fc wlist = Ok fc' ∧
         (counters_consistent fc → counters_consistent fc') ∧
         (String.eqb mode "libre" || String.eqb mode "lectura" ||
            String.eqb mode "pre" = true →
          counters_exhaustive fc → counters_exhaustive fc').
Proof.
  induction wlist as [|w wlist IH]; intros fc Hall; simpl in *; [by eauto|].
  apply andb_prop in Hall as [Hw Hall].
  destruct (word_delta_searchable w Hw) as [d Hd].
  destruct (count_word mode fc w) as [fc1|e] eqn:Hstep.
  2:{ rewrite count_word_delta, Hd in Hstep. done. }
  simpl. destruct (count_word_consistent _ _ _ _ Hstep) as [Hc He].
  destruct (IH fc1 Hall) as (fc' & -> & Hc' & He').
  exists fc'. split; [done|]. split; [tauto|]. intros Hm ?. auto.
Qed.

Lemma count_segments_consistent (segs : list (jval * list word)) :
  Forall (λ seg, is_hashable seg.1 = true ∧
                 forallb tense_is_searchable seg.2 = true) segs →
  ∀ fc, ∃ fc', count_segments fc segs = Ok fc' ∧
               (counters_consistent fc → counters_consistent fc') ∧
               (Forall (λ seg, mode_is_counted seg.1 = true) segs →
                counters_exhaustive fc → counters_exhaustive fc').
Proof.
  induction 1 as [|[spkname wlist] segs [Hname Hwords] _ IH]; intros fc;
    simpl in *; [by eauto|].
  unfold count_segment. simpl.
  assert (∃ mode, speaker_mode spkname = Ok mode) as [mode Hmode].
  { destruct spkname; simpl in *; try done; eauto.
    destruct (AnalysisTenses.map_speaker_attributes s) as [[[? ?] mode] ?].
    eauto. }
  rewrite Hmode. simpl.
  destruct (count_words_consistent mode wlist fc Hwords)
    as (fc1 & -> & Hc1 & He1). simpl.
  destruct (IH fc1) as (fc' & -> & Hc' & He').
  exists fc'. split; [done|]. split; [tauto|].
  intros Hall He. apply Forall_cons in Hall as [Hcounted Hall].
  unfold mode_is_counted in Hcounted. simpl in Hcounted.
  rewrite Hmode in Hcounted. auto.
Qed.

(** X20.  On segments whose speaker names can be looked up and whose words
    have a Tense entry that can be searched, the counting of a file
    returns; the forms counted for the three speech modes are among those
    counted in total, no counter of one kind counts a form of the other
    kind, and when every speaker has one of the three modes, the modes
    together account for every form counted in total. *)
Theorem mode_counters_are_part_of_total (segs : list (jval * list word)) :
  Forall (λ seg, is_hashable seg.1 = true ∧
                 forallb tense_is_searchable seg.2 = true) segs →
  ∃ fc, count_file segs = Ok fc ∧
        counters_consistent fc ∧
        (Forall (λ seg, mode_is_counted seg.1 = true) segs →
         counters_exhaustive fc).
Proof.
  intros Hsegs. unfold count_file.
  destruct (count_segments_consistent segs Hsegs initialize_file_counters)
    as (fc & Hrun & Hc & He).
  exists fc. split; [done|]. split.
  - apply Hc. unfold counters_consistent, counters_le. simpl. auto 10 with lia.
  - intros Hall. by apply He.
Qed.

Lemma well_typed_searchable w :
  well_typed w = true → tense_is_searchable w = true.
Proof.
  unfold well_typed, tense_is_searchable. intros Hwt.
  apply andb_prop in Hwt as [_ Hm].
  destruct (w !! "morph") as [[| | | | |m]|]; try done.
  apply andb_prop in Hm as [Ht _].
  by destruct (m !! "Tense") as [[| | | | |]|].
Qed.

Lemma processed_well_typed lower nlp w w' :
  processed lower nlp w w' → well_typed w' = true.
Proof. intros (w1 & _ & Hwt & Hr). by rewrite (refines_well_typed _ _ Hr). Qed.

(** X21.  A transcript whose words all have a text is annotated into a
    record that the counting accepts, whatever names its speakers resolve
    to (as long as they can be looked up): the annotation never leaves a
    Tense entry that the counting cannot search. *)
Theorem annotated_transcript_can_be_counted lower strip nlp
    (data : transcript) (names : list jval) :
  all_words has_text (segments data) →
  Forall (λ name, is_hashable name = true) names →
  ∃ data' fc,
    annotate_file lower strip nlp data = Ok data' ∧
    count_file (zip names (words <$> segments data')) = Ok fc ∧
    counters_consistent fc.
Proof.
  intros Htext Hnames.
  destruct (annotate_file_spec lower strip nlp data Htext)
    as (data' & Hrun & _ & Hsegs).
  assert (Forall (λ ws, forallb tense_is_searchable ws = true)
                 (words <$> segments data')) as Hwords.
  { apply Forall_fmap. eapply Forall2_Forall_r; [exact Hsegs|].
    apply Forall_forall. intros s _ s' [_ Hws]. simpl.
    apply forallb_forall. intros w' Hw'. apply list_elem_of_In in Hw'.
    destruct (proj1 (list_elem_of_lookup _ _) Hw') as [i Hi].
    destruct (Forall2_lookup_r _ _ _ _ _ Hws Hi) as (w & _ & Hp).
    apply well_typed_searchable. by eapply processed_well_typed. }
  destruct (count_segments_consistent
              (zip names (words <$> segments data')))
    with (fc := initialize_file_counters) as (fc & Hcount & Hc & _).
  { revert Hnames Hwords. generalize (words <$> segments data').
    intros wss Hnames. revert wss.
    induction Hnames as [|name names Hname _ IH]; intros [|ws wss] Hwss;
      simpl; try by constructor.
    apply Forall_cons in Hwss as [Hws Hwss]. constructor; [done|]. by apply IH. }
  exists data', fc. split; [done|]. split; [done|].
  apply Hc. unfold counters_consistent, counters_le. simpl. auto 10 with lia.
Qed.

(** *** The counting after the post-processing *)

Lemma past_label_simple lower i w ws :
  String.eqb (past_label lower i w ws) "PerfectoSimple" =
    feature_has w "VerbForm" "Fin".
Proof.
  unfold past_label, past_label_for, haber_label.
  destruct (feature_has w "VerbForm" "Fin"); [done|].
  destruct (feature_has w "VerbForm" "Part"); [|done].
  repeat match goal with
         | |- context [if ?b then _ else _] => destruct b
         end; done.
Qed.

Lemma well_typed_morph_of w :
  well_typed w = true →
  ∃ m, dict_get w "morph" (JDict ∅) = JDict m ∧
       match w !! "morph" with Some (JDict m') => m' | _ => ∅ end = m ∧
       (∀ f, dict_get m f (JList []) = feature_values w f) ∧
       (∀ f, bool_decide (is_Some (m !! f)) = has_feature w f) ∧
       is_feature (m !! "Tense") = true.
Proof.
  intros Hwt. destruct (well_typed_morph w Hwt) as (m & Hm & Hf & Hh & Ht & _).
  exists m. split; [done|]. split; [|done].
  unfold dict_get in Hm. unfold well_typed in Hwt.
  destruct (w !! "morph") as [[| | | | |m']|]; simpl in *; try by simplify_eq.
  all: by rewrite !andb_false_r in Hwt.
Qed.

Lemma dict_get_insert_eq (m : dict) k v dflt :
  dict_get (<[k := v]> m) k dflt = v.
Proof. unfold dict_get. by rewrite lookup_insert_eq. Qed.

Lemma dict_get_insert_ne (m : dict) k k' v dflt :
  k ≠ k' → dict_get (<[k := v]> m) k' dflt = dict_get m k' dflt.
Proof. intros. unfold dict_get. by rewrite lookup_insert_ne. Qed.

(** What a word adds to the counters of past forms after the tense
    classifier. *)
Lemma word_delta_tense_expected lower ws i w :
  well_typed w = true →
  ∃ df, word_delta (tense_expected lower ws i w) =
    Ok (df, Counters 0 0
              (if feature_has w "Tense" "Past" &&
                  String.eqb (past_label lower i w ws) "PerfectoCompuesto"
               then 1 else 0)
              (if feature_has w "Tense" "Past" &&
                  feature_has w "VerbForm" "Fin"
               then 1 else 0)).
Proof.
  intros Hwt.
  destruct (well_typed_morph_of w Hwt) as (m & Hm & Hm' & Hf & _ & Ht).
  pose proof (py_in_feature "Past" m "Tense" Ht) as Hpast.
  pose proof (py_in_feature "Fut" m "Tense" Ht) as Hfut.
  rewrite Hf in Hpast, Hfut.
  rewrite <- (past_label_simple lower i w ws).
  unfold tense_expected. fold (feature_has w "Tense" "Past") in Hpast.
  destruct (feature_has w "Tense" "Past") eqn:Hp; simpl.
  - unfold word_delta, set_past_tense_type. rewrite Hm'.
    rewrite dict_get_insert_eq. unfold future_delta.
    rewrite !dict_get_insert_ne by done. rewrite Hf, Hfut.
    set (label := past_label lower i w ws).
    assert (pasado_delta (<["Past_Tense_Type" := JStr label]> m) =
            Ok (Counters 0 0
                  (if String.eqb label "PerfectoCompuesto" then 1 else 0)
                  (if String.eqb label "PerfectoSimple" then 1 else 0)))
      as ->.
    { unfold pasado_delta.
      rewrite (dict_get_insert_ne m "Past_Tense_Type" "Tense") by done.
      rewrite dict_get_insert_eq, Hf, Hpast. simpl. unfold eq_str.
      destruct (String.eqb_spec label "PerfectoCompuesto") as [->|_]; [done|].
      by destruct (String.eqb label "PerfectoSimple"). }
    destruct (eq_str _ "analyticalFuture"); simpl; eauto.
  - unfold word_delta. rewrite Hm. unfold future_delta, pasado_delta.
    rewrite Hf, Hpast, Hfut. simpl.
    destruct (eq_str _ "analyticalFuture"); simpl; eauto.
Qed.

Lemma count_where_cons {A : Type} (P : A → bool) x l :
  count_where P (x :: l) = (if P x then 1 else 0) + count_where P l.
Proof. unfold count_where. simpl. by destruct (P x). Qed.

Lemma count_where_enumerate {A : Type} (P : A → bool) (l : list A) k :
  count_where (λ p, P p.2) (enumerate_from k l) = count_where P l.
Proof.
  revert k. induction l as [|x l IH]; intros k; [done|].
  simpl. by rewrite !count_where_cons, IH.
Qed.

Lemma enumerate_lookup {A : Type} (l : list A) i j x :
  enumerate l !! i = Some (j, x) → l !! i = Some x ∧ j = i.
Proof.
  intros Hp. unfold enumerate in Hp.
  pose proof (f_equal (λ l, l !! i) (enumerate_from_snd l 0)) as H2.
  pose proof (f_equal (λ l, l !! i) (enumerate_from_fst l 0)) as H1.
  cbv beta in H1, H2.
  rewrite list_lookup_fmap, Hp in H1. rewrite list_lookup_fmap, Hp in H2.
  simpl in H1, H2. split; [done|].
  symmetry in H1. apply lookup_seq in H1. lia.
Qed.

(** The counting of a segment in which the word at position [k + i] adds
    what [delta (k + i)] says to the counters of past forms. *)
Lemma count_words_pasado mode (P Q : nat * word → bool) (l : list word) :
  ∀ k (l' : list word) fc,
  Forall2 (λ p w', ∃ df, word_delta w' =
             Ok (df, Counters 0 0 (if P p then 1 else 0)
                                  (if Q p then 1 else 0)))
          (enumerate_from k l) l' →
  ∃ fc', count_words mode fc l' = Ok fc' ∧
         compoundPast (total (counters_pasado fc')) =
           compoundPast (total (counters_pasado fc)) +
           count_where P (enumerate_from k l) ∧
         simplePast (total (counters_pasado fc')) =
           simplePast (total (counters_pasado fc)) +
           count_where Q (enumerate_from k l).
Proof.
  induction l as [|w l IH]; intros k l' fc Hall; simpl in *.
  { apply Forall2_nil_inv_l in Hall as ->. simpl. exists fc.
    unfold count_where. simpl. auto with lia. }
  apply Forall2_cons_inv_l in Hall as (w' & l'' & [df Hd] & Hall & ->).
  simpl. rewrite count_word_delta, Hd. simpl.
  destruct (IH _ _ (FileCounters (bump mode (counters_future fc) df)
                      (bump mode (counters_pasado fc)
                         (Counters 0 0 (if P (k, w) then 1 else 0)
                                       (if Q (k, w) then 1 else 0))))
              Hall) as (fc' & Hrun & Hc & Hs).
  exists fc'. split; [done|]. rewrite Hc, Hs, !count_where_cons. simpl. lia.
Qed.

(** X22.  After the tense classifier has run on a segment of well-typed
    words, the counting returns on the segment, and from fresh counters it
    counts as simple past exactly the words whose Tense includes Past and
    whose VerbForm includes Fin, and as compound past exactly the words
    whose Tense includes Past and that the classifier labels
    PerfectoCompuesto; every other past form is counted as neither. *)
Theorem past_forms_counted_as_classified lower mode (ws : list word) :
  Forall (λ w, well_typed w = true) ws →
  ∃ ws' fc,
    post_process_tenses_segment lower ws = Ok ws' ∧
    count_words mode initialize_file_counters ws' = Ok fc ∧
    simplePast (total (counters_pasado fc)) =
      count_where (λ w, feature_has w "Tense" "Past" &&
                        feature_has w "VerbForm" "Fin") ws ∧
    compoundPast (total (counters_pasado fc)) =
      count_where (λ p, feature_has p.2 "Tense" "Past" &&
                        String.eqb (past_label lower p.1 p.2 ws)
                                   "PerfectoCompuesto")
                  (enumerate ws).
Proof.
  intros Hwt.
  destruct (post_process_tenses_segment_spec lower ws Hwt)
    as (ws' & Hrun & Hlen & Hexp).
  destruct (count_words_pasado mode
              (λ p, feature_has p.2 "Tense" "Past" &&
                    String.eqb (past_label lower p.1 p.2 ws) "PerfectoCompuesto")
              (λ p, feature_has p.2 "Tense" "Past" &&
                    feature_has p.2 "VerbForm" "Fin")
              ws 0 ws' initialize_file_counters)
    as (fc & Hcount & Hc & Hs).
  { apply Forall2_same_length_lookup_2.
    { rewrite <- (length_fmap snd (enumerate_from 0 ws)), enumerate_from_snd.
      done. }
    intros i [j w] w' Hp Hw'.
    apply enumerate_lookup in Hp as [Hw ->].
    rewrite (Hexp i w Hw) in Hw'. simplify_eq. simpl.
    apply word_delta_tense_expected.
    exact (proj1 (Forall_lookup _ _) Hwt i w Hw). }
  exists ws', fc. split; [done|]. split; [done|].
  rewrite Hs, Hc. simpl. split; [|done].
  by rewrite (count_where_enumerate
                (λ w, feature_has w "Tense" "Past" &&
                      feature_has w "VerbForm" "Fin")).
Qed.

Lemma future_expected_label lower ws j w :
  future_expected lower ws j w =
    match future_label_at lower ws j w with
    | Some label => set_future_type w label
    | None => w
    end.
Proof.
  unfold future_expected, future_label_at.
  destruct j as [|[|i]]; try done.
  by destruct (ws !! i), (ws !! S i).
Qed.

Lemma analytic_future_label_cases lower w1 w2 w3 label :
  analytic_future_label lower w1 w2 w3 = Some label →
  label = "analyticalFuture" ∨ label = "analyticalFuture_past".
Proof.
  unfold analytic_future_label.
  repeat match goal with
         | |- context [if ?b then _ else _] => destruct b
         end; intros; simplify_eq; auto.
Qed.

Lemma pasado_delta_ok (m : dict) :
  is_feature (m !! "Tense") = true → ∃ dp, pasado_delta m = Ok dp.
Proof.
  intros Ht. unfold pasado_delta. rewrite (py_in_feature "Past" m "Tense" Ht).
  simpl.
  repeat match goal with
         | |- context [if ?b then _ else _] => destruct b
         end; eauto.
Qed.

(** What a word adds to the counters of future forms after the future
    detector. *)
Lemma word_delta_future_expected lower ws j w :
  well_typed w = true → has_feature w "Future_Type" = false →
  ∃ dp, word_delta (future_expected lower ws j w) =
    Ok (Counters
          (if bool_decide (future_label_at lower ws j w =
                             Some "analyticalFuture") then 1 else 0)
          (if negb (bool_decide (future_label_at lower ws j w =
                                   Some "analyticalFuture")) &&
              feature_has w "Tense" "Fut" then 1 else 0)
          0 0, dp).
Proof.
  intros Hwt Hnone.
  destruct (well_typed_morph_of w Hwt) as (m & Hm & Hm' & Hf & Hh & Ht).
  pose proof (py_in_feature "Fut" m "Tense" Ht) as Hfut.
  rewrite Hf in Hfut. fold (feature_has w "Tense" "Fut") in Hfut.
  assert (m !! "Future_Type" = None) as Hft.
  { specialize (Hh "Future_Type"). rewrite Hnone in Hh.
    apply bool_decide_eq_false in Hh.
    destruct (m !! "Future_Type"); [|done]. exfalso. apply Hh. eauto. }
  rewrite future_expected_label.
  destruct (future_label_at lower ws j w) as [label|] eqn:Hlabel.
  - assert (label = "analyticalFuture" ∨ label = "analyticalFuture_past")
      as Hcases.
    { unfold future_label_at in Hlabel. destruct j as [|[|i]]; try done.
      destruct (ws !! i), (ws !! S i); try done.
      by eapply analytic_future_label_cases. }
    unfold word_delta, set_future_type. rewrite Hm', dict_get_insert_eq.
    destruct (pasado_delta_ok (<["Future_Type" := JStr label]> m))
      as [dp ->].
    { by rewrite lookup_insert_ne. }
    unfold future_delta.
    rewrite dict_get_insert_eq, dict_get_insert_ne, Hf, Hfut by done.
    exists dp. destruct Hcases as [->| ->]; simpl.
    + done.
    + by destruct (feature_has w "Tense" "Fut").
  - unfold word_delta. rewrite Hm.
    destruct (pasado_delta_ok m Ht) as [dp ->].
    unfold future_delta, dict_get at 1. rewrite Hft, Hf, Hfut. simpl.
    exists dp. by destruct (feature_has w "Tense" "Fut").
Qed.

Lemma count_words_future mode (P Q : nat * word → bool) (l : list word) :
  ∀ k (l' : list word) fc,
  Forall2 (λ p w', ∃ dp, word_delta w' =
             Ok (Counters (if P p then 1 else 0) (if Q p then 1 else 0) 0 0,
                 dp))
          (enumerate_from k l) l' →
  ∃ fc', count_words mode fc l' = Ok fc' ∧
         analyticalFuture (total (counters_future fc')) =
           analyticalFuture (total (counters_future fc)) +
           count_where P (enumerate_from k l) ∧
         simpleFuture (total (counters_future fc')) =
           simpleFuture (total (counters_future fc)) +
           count_where Q (enumerate_from k l).
Proof.
  induction l as [|w l IH]; intros k l' fc Hall; simpl in *.
  { apply Forall2_nil_inv_l in Hall as ->. simpl. exists fc.
    unfold count_where. simpl. auto with lia. }
  apply Forall2_cons_inv_l in Hall as (w' & l'' & [dp Hd] & Hall & ->).
  simpl. rewrite count_word_delta, Hd. simpl.
  destruct (IH _ _ (FileCounters
                      (bump mode (counters_future fc)
                         (Counters (if P (k, w) then 1 else 0)
                                   (if Q (k, w) then 1 else 0) 0 0))
                      (bump mode (counters_pasado fc) dp))
              Hall) as (fc' & Hrun & Ha & Hs).
  exists fc'. split; [done|]. rewrite Ha, Hs, !count_where_cons. simpl. lia.
Qed.

(** X23.  After the future detector has run on a segment of well-typed
    words that carry no Future_Type entry yet, the counting returns on the
    segment, and from fresh counters it counts as analytic future exactly
    the words that close a window labelled analyticalFuture, and as simple
    future exactly the other words whose Tense includes Fut; a word
    labelled analyticalFuture_past is no analytic future for the
    counting. *)
Theorem future_forms_counted_as_detected lower mode (ws : list word) :
  Forall (λ w, well_typed w = true) ws →
  Forall (λ w, has_feature w "Future_Type" = false) ws →
  ∃ ws' fc,
    post_process_futures_segment lower ws = Ok ws' ∧
    count_words mode initialize_file_counters ws' = Ok fc ∧
    analyticalFuture (total (counters_future fc)) =
      count_where (λ p, bool_decide (future_label_at lower ws p.1 p.2 =
                                       Some "analyticalFuture"))
                  (enumerate ws) ∧
    simpleFuture (total (counters_future fc)) =
      count_where (λ p, negb (bool_decide (future_label_at lower ws p.1 p.2 =
                                             Some "analyticalFuture")) &&
                        feature_has p.2 "Tense" "Fut")
                  (enumerate ws).
Proof.
  intros Hwt Hnone.
  destruct (post_process_futures_segment_spec lower ws Hwt)
    as (ws' & Hrun & Hlen & Hexp).
  destruct (count_words_future mode
              (λ p, bool_decide (future_label_at lower ws p.1 p.2 =
                                   Some "analyticalFuture"))
              (λ p, negb (bool_decide (future_label_at lower ws p.1 p.2 =
                                         Some "analyticalFuture")) &&
                    feature_has p.2 "Tense" "Fut")
              ws 0 ws' initialize_file_counters)
    as (fc & Hcount & Ha & Hs).
  { apply Forall2_same_length_lookup_2.
    { rewrite <- (length_fmap snd (enumerate_from 0 ws)), enumerate_from_snd.
      done. }
    intros i [j w] w' Hp Hw'.
    apply enumerate_lookup in Hp as [Hw ->].
    rewrite (Hexp i w Hw) in Hw'. simplify_eq. simpl.
    apply word_delta_future_expected.
    - exact (proj1 (Forall_lookup _ _) Hwt i w Hw).
    - exact (proj1 (Forall_lookup _ _) Hnone i w Hw). }
  exists ws', fc. by rewrite Ha, Hs.
Qed.

(* ===================================================================== *)
(** ** The further properties on the concrete environment                  *)
(* ===================================================================== *)

Lemma sentences_partition_segment_witness :
  forallb text_is_string [word_of_text "Va."; word_of_text "a"; word_of_text "llover"] = true ∧
  ∃ sl, split_into_sentences lower_latin strip_spaces
          [word_of_text "Va."; word_of_text "a"; word_of_text "llover"] = Ok sl ∧
        concat sl = seq 0 3 ∧
        Forall (λ s, s ≠ []) sl ∧
        well_cut lower_latin strip_spaces
          [word_of_text "Va."; word_of_text "a"; word_of_text "llover"] sl.
Proof.
  assert (forallb text_is_string
            [word_of_text "Va."; word_of_text "a"; word_of_text "llover"] = true)
    as H by reflexivity.
  split; [exact H|].
  exact (sentences_partition_segment lower_latin strip_spaces _ H).
Defined.

Lemma second_run_changes_nothing_witness :
  (all_words has_text (segments demo_transcript) ∧
   ∃ data',
     annotate_file lower_latin strip_spaces nlp_demo demo_transcript = Ok data' ∧
     ∀ overwrite_existing,
       main lower_latin strip_spaces nlp_demo overwrite_existing [data'] =
         ([data'], None)) ∧
  (all_words has_text (segments empty_transcript) ∧
   ∃ data',
     annotate_file lower_latin strip_spaces nlp_demo empty_transcript = Ok data' ∧
     ∀ overwrite_existing,
       main lower_latin strip_spaces nlp_demo overwrite_existing [data'] =
         ([data'], Some ZeroDivisionError)).
Proof.
  assert (all_words has_text (segments demo_transcript)) as H1
    by (repeat constructor).
  assert (all_words has_text (segments empty_transcript)) as H2
    by constructor.
  split.
  - split; [exact H1|].
    exact (second_run_changes_nothing lower_latin strip_spaces nlp_demo
             demo_transcript H1).
  - split; [exact H2|].
    exact (second_run_changes_nothing lower_latin strip_spaces nlp_demo
             empty_transcript H2).
Defined.

Lemma result_is_annotated_iff_some_word_not_foreign_witness :
  all_words has_text (segments demo_transcript) ∧
  ∃ data',
    annotate_file lower_latin strip_spaces nlp_demo demo_transcript = Ok data' ∧
    (already_annotated (segments data') = true ↔
     ∃ s w, s ∈ segments demo_transcript ∧ w ∈ words s ∧ is_foreign w = false).
Proof.
  assert (all_words has_text (segments demo_transcript)) as H
    by (repeat constructor).
  split; [exact H|].
  exact (result_is_annotated_iff_some_word_not_foreign lower_latin strip_spaces
           nlp_demo demo_transcript H).
Defined.

Lemma post_processing_only_adds_synthetic_entries_witness :
  Forall (λ w, well_typed w = true) [word_va; word_a; word_llover] ∧
  ∃ ws1 ws2,
    post_process_tenses_segment lower_latin [word_va; word_a; word_llover] =
      Ok ws1 ∧
    post_process_futures_segment lower_latin ws1 = Ok ws2 ∧
    length ws2 = 3.
Proof.
  assert (Forall (λ w, well_typed w = true) [word_va; word_a; word_llover])
    as H by (repeat constructor).
  split; [exact H|].
  destruct (post_processing_only_adds_synthetic_entries lower_latin
              [word_va; word_a; word_llover] H)
    as (ws1 & ws2 & H1 & H2 & Hlen & _).
  exists ws1, ws2. split; [exact H1|]. split; [exact H2|]. exact Hlen.
Defined.

Lemma tense_classifier_idempotent_witness :
  Forall (λ w, well_typed w = true) [word_habia; word_comido] ∧
  ∃ ws', post_process_tenses_segment lower_latin [word_habia; word_comido] =
           Ok ws' ∧
         post_process_tenses_segment lower_latin ws' = Ok ws'.
Proof.
  assert (Forall (λ w, well_typed w = true) [word_habia; word_comido]) as H
    by (repeat constructor).
  split; [exact H|].
  exact (tense_classifier_idempotent lower_latin [word_habia; word_comido] H).
Defined.

Lemma future_detector_idempotent_witness :
  Forall (λ w, well_typed w = true) [word_va; word_a; word_llover] ∧
  ∃ ws', post_process_futures_segment lower_latin
           [word_va; word_a; word_llover] = Ok ws' ∧
         post_process_futures_segment lower_latin ws' = Ok ws'.
Proof.
  assert (Forall (λ w, well_typed w = true) [word_va; word_a; word_llover])
    as H by (repeat constructor).
  split; [exact H|].
  exact (future_detector_idempotent lower_latin
           [word_va; word_a; word_llover] H).
Defined.

Lemma cursor_moves_forward_inside_doc_witness :
  has_text (word_of_text "a") = true ∧ 1 ≤ length demo_doc ∧
  ∃ tok' w',
    annotate_word lower_latin nlp_demo demo_doc 1 (word_of_text "a") =
      Ok (tok', w') ∧
    1 ≤ tok' ≤ length demo_doc.
Proof.
  assert (has_text (word_of_text "a") = true) as H1 by reflexivity.
  assert (1 ≤ length demo_doc) as H2 by (vm_compute; lia).
  split; [exact H1|]. split; [exact H2|].
  exact (cursor_moves_forward_inside_doc lower_latin nlp_demo demo_doc 1
           (word_of_text "a") H1 H2).
Defined.

Lemma left_context_reaches_back_to_sentence_end_witness :
  Forall (λ w, text_is_string w = true) context_words ∧
  3 ≤ length context_words ∧
  ∃ k, get_left_with_sentence_bounds number_is_nonzero context_words
         (Z.of_nat 3) 10 = Done (take k (drop (3 - k) context_words)) ∧
       k ≤ 3.
Proof.
  assert (Forall (λ w, text_is_string w = true) context_words) as H1
    by (repeat constructor).
  assert (3 ≤ length context_words) as H2 by (vm_compute; lia).
  split; [exact H1|]. split; [exact H2|].
  destruct (left_context_reaches_back_to_sentence_end number_is_nonzero
              context_words 3 10 H1 H2) as (k & Hrun & Hk & _).
  exists k. split; [exact Hrun|exact Hk].
Defined.

Lemma right_context_reaches_to_sentence_end_witness :
  Forall (λ w, text_is_string w = true) context_words ∧
  context_words !! 1 = Some (word_of_text "Va") ∧
  ∃ k, get_right_with_sentence_bounds number_is_nonzero context_words
         (Z.of_nat 1) 10 = Done (take k (drop 2 context_words)) ∧
       2 + k ≤ length context_words.
Proof.
  assert (Forall (λ w, text_is_string w = true) context_words) as H1
    by (repeat constructor).
  assert (context_words !! 1 = Some (word_of_text "Va")) as H2 by reflexivity.
  split; [exact H1|]. split; [exact H2|].
  destruct (right_context_reaches_to_sentence_end number_is_nonzero
              context_words 1 (word_of_text "Va") 10 H1 H2)
    as (k & Hrun & Hk & _).
  exists k. split; [exact Hrun|exact Hk].
Defined.

Lemma context_stays_inside_one_sentence_witness :
  Forall (λ w, text_is_string w = true) context_words ∧
  context_words !! 2 = Some (word_of_text "a") ∧
  ∃ left_tokens right_tokens,
    get_left_with_sentence_bounds number_is_nonzero context_words
      (Z.of_nat 2) 10 = Done left_tokens ∧
    get_right_with_sentence_bounds number_is_nonzero context_words
      (Z.of_nat 2) 10 = Done right_tokens ∧
    ∃ before after,
      context_words =
        before ++ left_tokens ++ word_of_text "a" :: right_tokens ++ after ∧
      length (before ++ left_tokens) = 2.
Proof.
  assert (Forall (λ w, text_is_string w = true) context_words) as H1
    by (repeat constructor).
  assert (context_words !! 2 = Some (word_of_text "a")) as H2 by reflexivity.
  split; [exact H1|]. split; [exact H2|].
  destruct (context_stays_inside_one_sentence number_is_nonzero context_words
              2 (word_of_text "a") 10 10 H1 H2)
    as (l & r & Hl & Hr & Hcut & _).
  exists l, r. split; [exact Hl|]. split; [exact Hr|exact Hcut].
Defined.

Lemma context_index_error_exactly_witness :
  get_left_with_sentence_bounds number_is_nonzero context_words 6 10 =
    Fails IndexError ∧
  get_left_with_sentence_bounds number_is_nonzero context_words 5 10 ≠
    Fails IndexError ∧
  get_right_with_sentence_bounds number_is_nonzero context_words 5 10 =
    Fails IndexError.
Proof.
  destruct (context_index_error_exactly number_is_nonzero context_words 6 10)
    as [Hleft6 _].
  destruct (context_index_error_exactly number_is_nonzero context_words 5 10)
    as [Hleft5 Hright5].
  split; [|split].
  - apply Hleft6. by vm_compute.
  - intros [H _]%Hleft5. by vm_compute in H.
  - apply Hright5. right. by vm_compute.
Defined.

Lemma token_id_is_shortest_free_prefix_witness :
  5 ≤ 6 ∧
  (token_id_of str_demo (JStr "ES")
     (hash_of str_demo digest_demo (JStr "2024-01-31") (JNum "1.5")
        (JNum "1.9") "Va") 6 ∉ ({[ "ES01234" ]} : gset string)) ∧
  ∃ token_id extension_count fuel0,
    (∀ fuel, fuel0 ≤ fuel →
       generate_unique_token_id str_demo digest_demo fuel (JStr "ES")
         (JStr "2024-01-31") (JNum "1.5") (JNum "1.9") "Va" {[ "ES01234" ]} =
         Some (token_id, extension_count, {[ token_id ]} ∪ {[ "ES01234" ]})) ∧
    (token_id ∉ ({[ "ES01234" ]} : gset string)).
Proof.
  assert (5 ≤ 6) as H1 by lia.
  assert (token_id_of str_demo (JStr "ES")
            (hash_of str_demo digest_demo (JStr "2024-01-31") (JNum "1.5")
               (JNum "1.9") "Va") 6 ∉ ({[ "ES01234" ]} : gset string)) as H2.
  { intros Hin. apply elem_of_singleton in Hin. discriminate Hin. }
  split; [exact H1|]. split; [exact H2|].
  destruct (token_id_is_shortest_free_prefix str_demo digest_demo (JStr "ES")
              (JStr "2024-01-31") (JNum "1.5") (JNum "1.9") "Va"
              {[ "ES01234" ]} 6 H1 H2)
    as (token_id & ext & fuel0 & Hrun & Hfresh & _).
  exists token_id, ext, fuel0. split; [exact Hrun|exact Hfresh].
Defined.

Lemma token_id_search_does_not_end_witness :
  generate_unique_token_id str_demo digest_demo 1000 (JStr "ES")
    (JStr "2024-01-31") (JNum "1.5") (JNum "1.9") "Va" taken_ids = None.
Proof.
  apply (token_id_search_does_not_end str_demo digest_demo (JStr "ES")
           (JStr "2024-01-31") (JNum "1.5") (JNum "1.9") "Va" taken_ids).
  intros n Hn.
  change (Nat.max 5 _) with 32 in Hn.
  apply elem_of_list_to_set, list_elem_of_fmap. exists n.
  split; [reflexivity|]. apply elem_of_seq. lia.
Defined.

Lemma successive_token_ids_differ_witness :
  generate_unique_token_id str_demo digest_demo 3 (JStr "ES")
    (JStr "2024-01-31") (JNum "1.5") (JNum "1.9") "Va" ∅ =
    Some ("ES01234", 0, {[ "ES01234" ]} ∪ ∅) ∧
  generate_unique_token_id str_demo digest_demo 3 (JStr "ES")
    (JStr "2024-01-31") (JNum "2.0") (JNum "2.4") "a" ({[ "ES01234" ]} ∪ ∅) =
    Some ("ES012345", 1, {[ "ES012345" ]} ∪ ({[ "ES01234" ]} ∪ ∅)) ∧
  "ES01234" ≠ "ES012345".
Proof.
  assert (generate_unique_token_id str_demo digest_demo 3 (JStr "ES")
            (JStr "2024-01-31") (JNum "1.5") (JNum "1.9") "Va" ∅ =
          Some ("ES01234", 0, {[ "ES01234" ]} ∪ ∅)) as H1 by reflexivity.
  assert (generate_unique_token_id str_demo digest_demo 3 (JStr "ES")
            (JStr "2024-01-31") (JNum "2.0") (JNum "2.4") "a"
            ({[ "ES01234" ]} ∪ ∅) =
          Some ("ES012345", 1, {[ "ES012345" ]} ∪ ({[ "ES01234" ]} ∪ ∅)))
    as H2 by reflexivity.
  split; [exact H1|]. split; [exact H2|].
  exact (proj1 (successive_token_ids_differ str_demo digest_demo 3 3
                  (JStr "ES") (JStr "2024-01-31") (JNum "1.5") (JNum "1.9")
                  (JStr "ES") (JStr "2024-01-31") (JNum "2.0") (JNum "2.4")
                  "Va" "a" ∅ _ _ "ES01234" "ES012345" 0 1 H1 H2)).
Defined.

Lemma token_id_goes_right_behind_text_witness :
  NoDup ordered_word.*1 ∧ ("token_id" ∉ ordered_word.*1) ∧
  insert_token_id_after_text ordered_word (JStr "ES01234") =
    [("text", JStr "Va"); ("token_id", JStr "ES01234");
     ("start", JNum "1.5"); ("end", JNum "1.9")].
Proof.
  assert (NoDup ordered_word.*1) as H1.
  { compute_done. }
  assert ("token_id" ∉ ordered_word.*1) as H2.
  { compute_done. }
  split; [exact H1|]. split; [exact H2|].
  exact (proj1 (token_id_goes_right_behind_text ordered_word (JStr "ES01234")
                  H1 H2)
           [] (JStr "Va") [("start", JNum "1.5"); ("end", JNum "1.9")]
           eq_refl).
Defined.

Lemma old_token_id_behind_text_wins_witness :
  NoDup identified_word.*1 ∧
  insert_token_id_after_text identified_word (JStr "ES99999") =
    [("text", JStr "Va"); ("token_id", JStr "ES01234"); ("start", JNum "1.5")].
Proof.
  assert (NoDup identified_word.*1) as H1.
  { compute_done. }
  split; [exact H1|].
  exact (old_token_id_behind_text_wins [] (JStr "Va") [("start", JNum "1.5")]
           (JStr "ES01234") [] (JStr "ES99999") H1).
Defined.

Lemma mode_counters_are_part_of_total_witness :
  Forall (λ seg, is_hashable seg.1 = true ∧
                 forallb tense_is_searchable seg.2 = true) counted_segments ∧
  ∃ fc, count_file counted_segments = Ok fc ∧ counters_consistent fc.
Proof.
  assert (Forall (λ seg, is_hashable seg.1 = true ∧
                         forallb tense_is_searchable seg.2 = true)
                 counted_segments) as H by (repeat constructor).
  split; [exact H|].
  destruct (mode_counters_are_part_of_total counted_segments H)
    as (fc & Hrun & Hc & _).
  exists fc. split; [exact Hrun|exact Hc].
Defined.

Lemma annotated_transcript_can_be_counted_witness :
  all_words has_text (segments demo_transcript) ∧
  Forall (λ name, is_hashable name = true) [JStr "lib-pm"] ∧
  ∃ data' fc,
    annotate_file lower_latin strip_spaces nlp_demo demo_transcript =
      Ok data' ∧
    count_file (zip [JStr "lib-pm"] (words <$> segments data')) = Ok fc ∧
    counters_consistent fc.
Proof.
  assert (all_words has_text (segments demo_transcript)) as H1
    by (repeat constructor).
  assert (Forall (λ name, is_hashable name = true) [JStr "lib-pm"]) as H2
    by (repeat constructor).
  split; [exact H1|]. split; [exact H2|].
  exact (annotated_transcript_can_be_counted lower_latin strip_spaces nlp_demo
           demo_transcript [JStr "lib-pm"] H1 H2).
Defined.

Lemma past_forms_counted_as_classified_witness :
  Forall (λ w, well_typed w = true) [word_ha; word_Comido] ∧
  ∃ ws' fc,
    post_process_tenses_segment lower_latin [word_ha; word_Comido] = Ok ws' ∧
    count_words "libre" initialize_file_counters ws' = Ok fc ∧
    simplePast (total (counters_pasado fc)) = 0 ∧
    compoundPast (total (counters_pasado fc)) = 1.
Proof.
  assert (Forall (λ w, well_typed w = true) [word_ha; word_Comido]) as H
    by (repeat constructor).
  split; [exact H|].
  destruct (past_forms_counted_as_classified lower_latin "libre"
              [word_ha; word_Comido] H) as (ws' & fc & H1 & H2 & H3 & H4).
  exists ws', fc. split; [exact H1|]. split; [exact H2|].
  split; [exact H3|exact H4].
Defined.

Lemma future_forms_counted_as_detected_witness :
  Forall (λ w, well_typed w = true) [word_va; word_a; word_llover] ∧
  Forall (λ w, has_feature w "Future_Type" = false)
         [word_va; word_a; word_llover] ∧
  ∃ ws' fc,
    post_process_futures_segment lower_latin [word_va; word_a; word_llover] =
      Ok ws' ∧
    count_words "libre" initialize_file_counters ws' = Ok fc ∧
    analyticalFuture (total (counters_future fc)) = 1 ∧
    simpleFuture (total (counters_future fc)) = 0.
Proof.
  assert (Forall (λ w, well_typed w = true) [word_va; word_a; word_llover])
    as H1 by (repeat constructor).
  assert (Forall (λ w, has_feature w "Future_Type" = false)
                 [word_va; word_a; word_llover]) as H2 by (repeat constructor).
  split; [exact H1|]. split; [exact H2|].
  destruct (future_forms_counted_as_detected lower_latin "libre"
              [word_va; word_a; word_llover] H1 H2)
    as (ws' & fc & H3 & H4 & H5 & H6).
  exists ws', fc. split; [exact H3|]. split; [exact H4|].
  split; [exact H5|exact H6].
Defined.
